(** * zangief validator: round coordination, coverage tracking, dispatch
      and score-to-weight conversion

    A shallow embedding of [src/zangief/validator/validator.py].

    Conventions of the embedding
    - Python [int] is [Z]; Python [str] is [string]; a value that may be
      [None] is an [option].
    - Scores and weights are Python floats.  The step (what is queried,
      recorded, raised, voted and reset) is embedded with the scores as
      exact rationals [Q], compared with [Qeq]/[Qlt]/[Qle].  How weights
      compare with one another depends on rounding: [normalize_scores] and
      the weights of [set_weights] are embedded a second time in binary64
      arithmetic ([Binary64]), and the statements on the order and the
      range of the weights are made there.
    - The keys of a Python dictionary are typed: the integer [7] and the
      string ["7"] are two keys ([dict_key]).
    - A Python exception is an explicit [Raise] result.
    - The outside world (directory, network, scorer, authority, random
      source) is an explicit environment record read by the step. *)

From Stdlib Require Import QArith Qminmax Qabs Qround Lqa.
From stdpp Require Import gmap strings list fin_maps pretty.

Open Scope Z_scope.

(** ** Results of fallible code *)

Inductive exn : Type :=
| TypeError
| ValueError
| KeyError
| ZeroDivisionError
| VoteError.

Inductive result (A : Type) : Type :=
| Ok (a : A)
| Raise (e : exn).
Arguments Ok {A} a.
Arguments Raise {A} e.

#[global] Instance result_ret : MRet result := λ A a, Ok a.
#[global] Instance result_bind : MBind result := λ A B k r,
  match r with
  | Ok a => k a
  | Raise e => Raise e
  end.

(** ** Data model *)

(** One entry of the directory ([get_map_modules] values): the fields the
    validator reads. *)
Record Miner : Type := {
  uid : Z;
  key : string;
  address : option string;
  incentive : Z;
  dividends : Z;
}.

#[global] Instance Miner_eq_dec : EqDecision Miner.
Proof. solve_decision. Defined.

(** One value of [weights.json]: [{"ss58": ..., "score": ...}]. *)
Record ScoreRecord : Type := {
  ss58 : string;
  score : Q;
}.

(** A dictionary key as Python compares it: an [int] is never equal to a
    [str], whatever they spell. *)
Inductive dict_key : Type :=
| IntKey (n : Z)
| StrKey (s : string).

#[global] Instance dict_key_eq_dec : EqDecision dict_key.
Proof. solve_decision. Defined.

(** [str(uid)] of an [int]: its decimal numeral. *)
Definition str (n : Z) : string := pretty n.

(** Modelled from the spec: [weights_io] ([read_weight_file],
    [write_weight_file]) is not part of the sources.  The spec gives the
    durable store as [read() -> map<id, ScoreRecord>] and
    [write(map<id, ScoreRecord>)] with full-replace semantics and at most
    one record per worker id.  The validator writes under the integer [uid]
    and looks up under [str(uid)] (lines 268-272): the keys of what is read
    are the strings [str(uid)].  The map below is indexed by the [uid] whose
    numeral is the key; where the keys themselves are handed on
    ([s_dict_of]) they are the strings. *)
Definition read_weight_file (file : gmap Z ScoreRecord) : gmap Z ScoreRecord :=
  file.

Definition write_weight_file (file : gmap Z ScoreRecord)
    (data : gmap Z ScoreRecord) : gmap Z ScoreRecord :=
  data.

(** ** [get_miner_ip_port]: the eligibility filter *)

(** [incentive == dividends == 0] is the chained comparison
    [incentive == dividends and dividends == 0]. *)
Definition eligible (m : Miner) : bool :=
  if bool_decide (incentive m = dividends m) && bool_decide (dividends m = 0)
  then true
  else bool_decide (incentive m > dividends m).

Definition get_miner_ip_port (modules : list Miner) : list Miner :=
  filter (λ m, eligible m = true) modules.

(** ** [get_miners_to_query]: the coverage partition *)

(** The locals of the loop plus the file it rewrites. *)
Record Scan : Type := {
  remaining_miners : list Miner;
  miners_to_query : list Miner;
  counter : Z;
  scan_file : gmap Z ScoreRecord;
}.

(** Lines 270-273: re-read the file, delete the entry, write it back. *)
Definition purge (m : Miner) (file : gmap Z ScoreRecord) : gmap Z ScoreRecord :=
  let current_weights := read_weight_file file in
  if bool_decide (is_Some (current_weights !! uid m))
  then write_weight_file file (delete (uid m) current_weights)
  else file.

(** The [for] loop of lines 267-283.  [scored_miners] is the map read once
    before the loop; the loop never re-reads it.  Returning the state
    without a recursive call is the [break]. *)
Fixpoint scan_miners (scored_miners : gmap Z ScoreRecord)
    (miners : list Miner) (st : Scan) : Scan :=
  match miners with
  | [] => st
  | m :: rest =>
    let query (st1 : Scan) : Scan :=
      let st2 := {| remaining_miners := remaining_miners st1;
                    miners_to_query := miners_to_query st1 ++ [m];
                    counter := counter st1 + 1;
                    scan_file := scan_file st1 |} in
      if bool_decide (counter st2 = 8) then st2
      else scan_miners scored_miners rest st2 in
    match scored_miners !! uid m with
    | Some r =>
      let st1 :=
        if bool_decide (key m ≠ ss58 r)
        then {| remaining_miners := remaining_miners st;
                miners_to_query := miners_to_query st;
                counter := counter st;
                scan_file := purge m (scan_file st) |}
        else st in
      if bool_decide (key m = ss58 r)
      then scan_miners scored_miners rest
             {| remaining_miners :=
                  filter (λ rm, uid rm ≠ uid m) (remaining_miners st1);
                miners_to_query := miners_to_query st1;
                counter := counter st1;
                scan_file := scan_file st1 |}
      else query st1
    | None => query st
    end
  end.

Definition get_miners_to_query (file : gmap Z ScoreRecord)
    (miners : list Miner) : Scan :=
  let scored_miners := read_weight_file file in
  scan_miners scored_miners miners
    {| remaining_miners := miners;
       miners_to_query := [];
       counter := 0;
       scan_file := file |}.

(** *** Vocabulary of the spec for the partition *)

(** A worker is covered by a store when the store has a record for its id
    whose key equals the worker's current key. *)
Definition covered (scored : gmap Z ScoreRecord) (m : Miner) : bool :=
  match scored !! uid m with
  | Some r => bool_decide (key m = ss58 r)
  | None => false
  end.

(** A worker is stale when a record exists for its id under another key. *)
Definition stale (scored : gmap Z ScoreRecord) (m : Miner) : bool :=
  match scored !! uid m with
  | Some r => bool_decide (key m ≠ ss58 r)
  | None => false
  end.

(** The eligible-candidate set of the spec, in snapshot order. *)
Definition candidates (scored : gmap Z ScoreRecord) (miners : list Miner)
    : list Miner :=
  filter (λ m, covered scored m = false) miners.

(** The ids of the covered workers of a snapshot. *)
Definition covered_uids (scored : gmap Z ScoreRecord) (miners : list Miner)
    : list Z :=
  uid <$> filter (λ m, covered scored m = true) miners.

(** The three state changes of the loop body. *)
Definition drop_covered (m : Miner) (st : Scan) : Scan :=
  {| remaining_miners := filter (λ rm, uid rm ≠ uid m) (remaining_miners st);
     miners_to_query := miners_to_query st;
     counter := counter st;
     scan_file := scan_file st |}.

Definition purge_stale (m : Miner) (st : Scan) : Scan :=
  {| remaining_miners := remaining_miners st;
     miners_to_query := miners_to_query st;
     counter := counter st;
     scan_file := purge m (scan_file st) |}.

Definition enqueue (m : Miner) (st : Scan) : Scan :=
  {| remaining_miners := remaining_miners st;
     miners_to_query := miners_to_query st ++ [m];
     counter := counter st + 1;
     scan_file := scan_file st |}.

(** The counter is the length of the batch, and the batch stays short of 8
    while the loop runs. *)
Definition scan_inv (st : Scan) : Prop :=
  counter st = Z.of_nat (length (miners_to_query st))
  ∧ (length (miners_to_query st) < 8)%nat.

(** ** [split_ip_port] and [_get_miner_prediction] *)

(** The separator [":"], character 58. *)
Definition colon : Ascii.ascii := Ascii.ascii_of_nat 58.

(** [str.split(":")]: one more part than there are colons. *)
Fixpoint split_colon (s : string) : list string :=
  match s with
  | EmptyString => [EmptyString]
  | String c s' =>
    if Ascii.eqb c colon then EmptyString :: split_colon s'
    else match split_colon s' with
         | part :: parts => String c part :: parts
         | [] => [String c EmptyString]
         end
  end.

(** [not ip_port] holds of [None] and of the empty string. *)
Definition split_ip_port (ip_port : option string)
    : option string * option string :=
  match ip_port with
  | None => (None, None)
  | Some EmptyString => (None, None)
  | Some s =>
    match split_colon s with
    | [ip; port] => (Some ip, Some port)
    | _ => (None, None)
    end
  end.

(** The task sent to every member of a batch. *)
Record Prompt : Type := {
  question : string;
  source_language : string;
  target_language : string;
}.

(** What a step does to the outside world: a call to a worker, the entry
    into the finalisation branch (the log line of line 418), a vote, a sleep
    and the construction of a client on a resolved endpoint. *)
Inductive event : Type :=
| EvCall (ip : option string) (port : Z) (miner_key : string)
| EvSettingWeights
| EvVote (endpoint : Z) (uids : list dict_key) (weights : list Q)
| EvSleep (seconds : Q)
| EvNewClient (endpoint : Z).

(** The inputs one step receives from its collaborators.
    - [py_int] is the builtin [int] on a string, [None] for [ValueError];
    - [call] is [ModuleClient(ip, port, key).call("generate", ...)] followed
      by the ["answer"] lookup, [None] when any of it raises;
    - [get_scores] is [Reward.get_scores];
    - [vote_first] and [vote_retry] tell whether the first and the second
      [client.vote] of the step succeed;
    - [node_url] is what [get_node_url] resolves to;
    - [random] is the draw of [random.random()] behind [random.uniform]. *)
Record Env : Type := {
  modules : list Miner;
  modules_keys : list (Z * string);
  miner_prompt : Prompt;
  py_int : string → option Z;
  call : option string → Z → string → Prompt → option string;
  get_scores : string → string → list (option string) → list Q;
  vote_first : bool;
  vote_retry : bool;
  node_url : Z;
  random : Q;
}.

(** [int(module_port)]: [int(None)] is a [TypeError]. *)
Definition int_ (env : Env) (x : option string) : result Z :=
  match x with
  | None => Raise TypeError
  | Some s =>
    match py_int env s with
    | Some n => Ok n
    | None => Raise ValueError
    end
  end.

(** The guard of line 234 compares with the string ["None"].  The
    [ModuleClient] constructor and its [int] argument sit before the [try],
    the call sits inside it. *)
Definition _get_miner_prediction (env : Env) (prompt : Prompt) (miner_info : Miner)
    : list event * result (option string) :=
  let connection := address miner_info in
  let miner_key := key miner_info in
  let '(module_ip, module_port) := split_ip_port connection in
  if bool_decide (module_ip = Some "None"%string)
     || bool_decide (module_port = Some "None"%string)
  then ([], Ok (Some EmptyString))
  else
    match int_ env module_port with
    | Raise e => ([], Raise e)
    | Ok port =>
      ([EvCall module_ip port miner_key],
       Ok (call env module_ip port miner_key prompt))
    end.

(** [executor.map(f, batch)] followed by [[*it]]: every call is submitted
    to the pool of 8 threads, the results are collected in batch order and
    the first exception met while collecting is re-raised.  The events are
    those of the whole batch.  When a member raises, the executor cancels
    the calls that no thread has started yet; which ones is a race that the
    embedding does not follow, so in that case the events of the members
    after the raising one are the calls that may have been made, not calls
    known to have been made.  The value returned does not depend on it. *)
Fixpoint collect {A : Type} (rs : list (result A)) : result (list A) :=
  match rs with
  | [] => Ok []
  | Ok a :: rs' => as' ← collect rs'; Ok (a :: as')
  | Raise e :: _ => Raise e
  end.

Definition executor_map {A B : Type} (f : A → list event * result B)
    (batch : list A) : list event * result (list B) :=
  let runs := f <$> batch in
  (concat (fst <$> runs), collect (snd <$> runs)).

(** ** [normalize_scores] *)

(** Lines 89-103 over exact rationals: what the code computes where no
    operation rounds.  The step is stated over this version; the version
    that rounds follows it. *)

(** [min] and [max] of a sequence: [ValueError] on the empty one, the first
    extremal element otherwise. *)
Definition py_min (scores : list Q) : result Q :=
  match scores with
  | [] => Raise ValueError
  | x :: xs => Ok (foldl Qmin x xs)
  end.

Definition py_max (scores : list Q) : result Q :=
  match scores with
  | [] => Raise ValueError
  | x :: xs => Ok (foldl Qmax x xs)
  end.

Definition normalize_scores (scores : list Q) (scale : bool) : result (list Q) :=
  min_score ← py_min scores;
  max_score ← py_max scores;
  if Qeq_bool min_score max_score
  then Ok (replicate (length scores) 1%Q)
  else
    let normalized_scores :=
      (λ score, (score - min_score) / (max_score - min_score))%Q <$> scores in
    if scale
    then Ok ((λ score, score * (1 - min_score) + min_score)%Q <$> normalized_scores)
    else Ok normalized_scores.

(** [sum(values)]: the fold starts from 0. *)
Definition py_sum (values : list Q) : Q := foldl Qplus 0%Q values.

(** ** The same arithmetic in binary64

    The scores are Python floats.  [normalize_scores] and the weights of
    [set_weights] are embedded a second time, with every operation rounded
    as IEEE 754 rounds it (to the nearest binary64 number, a tie to the even
    one) and with the infinities and [nan].  The statements on how the
    weights compare are made on this embedding. *)

Module Binary64.

(** A Python [float]: a number, an infinity or [nan].  The two zeros are
    one number: they compare equal and the code never divides by either. *)
Inductive float : Type :=
| Fin (q : Q)
| PInf
| NInf
| NaN.

(** Rounding of a rational to the nearest integer, ties to the even one. *)
Definition round_half_even (x : Q) : Z :=
  let f := Qfloor x in
  match (x - inject_Z f ?= 1 # 2)%Q with
  | Lt => f
  | Gt => f + 1
  | Eq => if Z.even f then f else f + 1
  end.

(** The binary64 numbers, counted in units of [2^-1074], are the integers
    [m * 2^k] with [m < 2^53] and [k >= 0]: around a non-negative [x] in
    these units they are [2^k] apart, with [k] read off the bit length of
    the integer part of [x]; [x] is rounded to the nearest of them, a tie
    going to the even [m]. *)
Definition spacing (x : Q) : Z := Z.max 0 (Z.log2 (Qfloor x) - 52).

Definition round_units (x : Q) : Z :=
  round_half_even (x / inject_Z (2 ^ spacing x)) * 2 ^ spacing x.

(** The binary64 number nearest to the rational [q]: an infinity from
    [2^1024] on. *)
Definition round64 (q : Q) : float :=
  let n := round_units (Qabs q * inject_Z (2 ^ 1074)) in
  if 2 ^ 2098 <=? n then (if Qle_bool 0 q then PInf else NInf)
  else if Qle_bool 0 q then Fin (Qred (inject_Z n / inject_Z (2 ^ 1074)))
       else Fin (Qred (- (inject_Z n / inject_Z (2 ^ 1074)))).

(** [a + b], [a - b] and [a * b]: the exact result rounded; the cases of
    the infinities and of [nan] as IEEE 754 gives them. *)
Definition fadd (a b : float) : float :=
  match a, b with
  | NaN, _ | _, NaN => NaN
  | Fin x, Fin y => round64 (x + y)
  | PInf, NInf | NInf, PInf => NaN
  | PInf, _ | _, PInf => PInf
  | NInf, _ | _, NInf => NInf
  end.

Definition fsub (a b : float) : float :=
  match a, b with
  | NaN, _ | _, NaN => NaN
  | Fin x, Fin y => round64 (x - y)
  | PInf, PInf | NInf, NInf => NaN
  | PInf, _ | _, NInf => PInf
  | NInf, _ | _, PInf => NInf
  end.

Definition fmul (a b : float) : float :=
  match a, b with
  | NaN, _ | _, NaN => NaN
  | Fin x, Fin y => round64 (x * y)
  | PInf, PInf | NInf, NInf => PInf
  | PInf, NInf | NInf, PInf => NInf
  | PInf, Fin y | Fin y, PInf =>
    if Qeq_bool y 0 then NaN else if Qle_bool 0 y then PInf else NInf
  | NInf, Fin y | Fin y, NInf =>
    if Qeq_bool y 0 then NaN else if Qle_bool 0 y then NInf else PInf
  end.

Definition is_zero (a : float) : bool :=
  match a with
  | Fin q => Qeq_bool q 0
  | _ => false
  end.

(** [a / b]: Python raises [ZeroDivisionError] on a zero divisor, whatever
    the dividend. *)
Definition fdiv (a b : float) : result float :=
  if is_zero b then Raise ZeroDivisionError
  else Ok match a, b with
          | NaN, _ | _, NaN => NaN
          | Fin x, Fin y => round64 (x / y)
          | Fin _, _ => Fin 0
          | _, PInf | _, NInf => NaN
          | PInf, Fin y => if Qle_bool 0 y then PInf else NInf
          | NInf, Fin y => if Qle_bool 0 y then NInf else PInf
          end.

(** [a < b] and [a == b]: every comparison with [nan] is false. *)
Definition flt (a b : float) : bool :=
  match a, b with
  | NaN, _ | _, NaN => false
  | Fin x, Fin y => negb (Qle_bool y x)
  | _, NInf | PInf, _ => false
  | NInf, _ | _, PInf => true
  end.

Definition feq (a b : float) : bool :=
  match a, b with
  | Fin x, Fin y => Qeq_bool x y
  | PInf, PInf | NInf, NInf => true
  | _, _ => false
  end.

Definition is_nan (a : float) : bool :=
  match a with
  | NaN => true
  | _ => false
  end.

(** The order of the numbers, infinities included; [nan] is not in it. *)
Definition fle (a b : float) : Prop :=
  match a, b with
  | NaN, _ | _, NaN => False
  | Fin x, Fin y => (x <= y)%Q
  | NInf, _ | _, PInf => True
  | _, NInf | PInf, _ => False
  end.

(** A positive number or [+inf]. *)
Definition fpos (d : float) : Prop := fle (Fin 0) d ∧ is_zero d = false.

(** [min] and [max]: [ValueError] on an empty sequence; the running
    extremum is replaced by an item that compares below (above) it. *)
Definition py_min (scores : list float) : result float :=
  match scores with
  | [] => Raise ValueError
  | x :: xs => Ok (foldl (λ cur item, if flt item cur then item else cur) x xs)
  end.

Definition py_max (scores : list float) : result float :=
  match scores with
  | [] => Raise ValueError
  | x :: xs => Ok (foldl (λ cur item, if flt cur item then item else cur) x xs)
  end.

(** Lines 89-103. *)
Definition normalize_scores (scores : list float) (scale : bool)
    : result (list float) :=
  min_score ← py_min scores;
  max_score ← py_max scores;
  if feq min_score max_score
  then Ok (replicate (length scores) (Fin 1))
  else
    normalized_scores ←
      mapM (λ score, fdiv (fsub score min_score) (fsub max_score min_score))
           scores;
    if scale
    then Ok ((λ score, fadd (fmul score (fsub (Fin 1) min_score)) min_score)
               <$> normalized_scores)
    else Ok normalized_scores.

(** [sum(values)]: the additions from left to right, from 0. *)
Definition py_sum (values : list float) : float := foldl fadd (Fin 0) values.

(** Lines 435-457 with the squashing curve [squash] for the values of
    [sigmoid_rewards]. *)
Definition weighted_scores_of {K : Type} `{EqDecision K}
    (squash : float → float) (s_dict : list (K * float))
    (self_uid : option K) : result (list (K * float)) :=
  let full_score_dict := s_dict in
  let abnormal_scores := full_score_dict.*2 in
  normal_scores ← normalize_scores abnormal_scores false;
  let score_dict := zip (full_score_dict.*1) normal_scores in
  let sigmoided_scores := (λ '(uid, score), (uid, squash score)) <$> score_dict in
  let scores := py_sum (sigmoided_scores.*2) in
  weighted_scores ←
    mapM (λ '(uid, score),
            weight ← fdiv (fmul score (Fin 1000)) scores; Ok (uid, weight))
         sigmoided_scores;
  renormalized ← normalize_scores (weighted_scores.*2) false;
  let weighted_scores :=
    filter (λ kv, feq kv.2 (Fin 0) = false)
           (zip (weighted_scores.*1) renormalized) in
  match self_uid with
  | Some u =>
    if bool_decide (u ∈ weighted_scores.*1)
    then Ok (filter (λ kv, kv.1 ≠ u) weighted_scores)
    else Ok weighted_scores
  | None => Ok weighted_scores
  end.

(** The number a decimal literal [n/d] stands for. *)
Definition literal (n : Z) (d : positive) : float := round64 (n # d).

(** Lines 449-452 on the weighted items: zero weights dropped, then the
    validator's own id. *)
Definition drop_zero_and_self {K : Type} `{EqDecision K}
    (self_uid : option K) (items : list (K * float)) : list (K * float) :=
  let weighted_scores := filter (λ kv, feq kv.2 (Fin 0) = false) items in
  match self_uid with
  | Some u =>
    if bool_decide (u ∈ weighted_scores.*1)
    then filter (λ kv, kv.1 ≠ u) weighted_scores
    else weighted_scores
  | None => weighted_scores
  end.

End Binary64.

(** ** The validator object and its monad *)

(** The attributes of [TranslateValidator] that the step reads or writes:
    the content of [weights_file], the [client] (named by the endpoint it is
    connected to), [uid] and the ss58 address of [key]. *)
Record Validator : Type := {
  weights_file : gmap Z ScoreRecord;
  client : Z;
  self_uid : option Z;
  val_ss58 : string;
}.

(** A computation on the validator: the events it emitted, the validator it
    left behind and either a value or the exception that stopped it. *)
Record Run (A : Type) : Type := {
  trace : list event;
  final : Validator;
  value : result A;
}.
Arguments trace {A} _.
Arguments final {A} _.
Arguments value {A} _.

Definition M (A : Type) : Type := Validator → Run A.

#[global] Instance M_ret : MRet M := λ A a v,
  {| trace := []; final := v; value := Ok a |}.

#[global] Instance M_bind : MBind M := λ A B k m v,
  let r := m v in
  match value r with
  | Ok a =>
    let r' := k a (final r) in
    {| trace := trace r ++ trace r'; final := final r'; value := value r' |}
  | Raise e => {| trace := trace r; final := final r; value := Raise e |}
  end.

Definition get : M Validator := λ v,
  {| trace := []; final := v; value := Ok v |}.

Definition put (v' : Validator) : M unit := λ _,
  {| trace := []; final := v'; value := Ok () |}.

Definition emit (e : event) : M unit := λ v,
  {| trace := [e]; final := v; value := Ok () |}.

Definition raise {A : Type} (e : exn) : M A := λ v,
  {| trace := []; final := v; value := Raise e |}.

(** A computation that only emits events and may fail. *)
Definition lift {A : Type} (r : list event * result A) : M A := λ v,
  {| trace := r.1; final := v; value := r.2 |}.

(** [try: body except Exception: handler]. *)
Definition try_except {A : Type} (body : M A) (handler : exn → M A) : M A := λ v,
  let r := body v in
  match value r with
  | Ok _ => r
  | Raise e =>
    let r' := handler e (final r) in
    {| trace := trace r ++ trace r'; final := final r'; value := value r' |}
  end.

(** Attribute assignments. *)
Definition with_file (v : Validator) (file : gmap Z ScoreRecord) : Validator :=
  {| weights_file := file; client := client v;
     self_uid := self_uid v; val_ss58 := val_ss58 v |}.

Definition with_client (v : Validator) (endpoint : Z) : Validator :=
  {| weights_file := weights_file v; client := endpoint;
     self_uid := self_uid v; val_ss58 := val_ss58 v |}.

Definition with_uid (v : Validator) (u : option Z) : Validator :=
  {| weights_file := weights_file v; client := client v;
     self_uid := u; val_ss58 := val_ss58 v |}.

Definition set_weights_file (file : gmap Z ScoreRecord) : M unit :=
  v ← get; put (with_file v file).

Definition set_client (endpoint : Z) : M unit :=
  v ← get; put (with_client v endpoint).

Definition set_self_uid (u : option Z) : M unit :=
  v ← get; put (with_uid v u).

(** The events of [t] followed by the run [r]. *)
Definition prepend {A : Type} (t : list event) (r : Run A) : Run A :=
  {| trace := t ++ trace r; final := final r; value := value r |}.

(** [random.uniform(a, b)] is [a + (b - a) * random()]. *)
Definition uniform (a b u : Q) : Q := (a + (b - a) * u)%Q.

(** ** [set_weights], [validate_step] and [validation_loop] *)

Section Validation.

(** The curve of the squashing transform, a tunable of the design. *)
Variable squash : Q → Q.

(** Modelled from the spec: [sigmoid.sigmoid_rewards] is not part of the
    sources.  The spec gives it as a squashing transform applied per worker,
    keys unchanged, whose exact curve is a tunable. *)
Definition sigmoid_rewards {K : Type} (score_dict : list (K * Q))
    : list (K * Q) :=
  (λ '(uid, score), (uid, squash score)) <$> score_dict.

(** Lines 435-457: the dictionary [weighted_scores] that is handed to the
    vote.  A dictionary is a list of items with distinct keys, in insertion
    order; [zip] of its keys with a list of values rebuilds one with the
    same keys.  The division of line 446 raises when the sum is zero.  The
    keys are of any type [K]; [self.uid in weighted_scores] and the [del]
    compare [self.uid] with them by Python's equality. *)
Definition weighted_scores_of {K : Type} `{EqDecision K}
    (s_dict : list (K * Q)) (self_uid : option K)
    : result (list (K * Q)) :=
  let full_score_dict := s_dict in
  let abnormal_scores := full_score_dict.*2 in
  normal_scores ← normalize_scores abnormal_scores false;
  let score_dict := zip (full_score_dict.*1) normal_scores in
  let sigmoided_scores := sigmoid_rewards score_dict in
  let scores := py_sum (sigmoided_scores.*2) in
  weighted_scores ←
    match sigmoided_scores with
    | [] => Ok []
    | _ :: _ =>
      if Qeq_bool scores 0 then Raise ZeroDivisionError
      else Ok ((λ '(uid, score), (uid, score * 1000 / scores)%Q)
                 <$> sigmoided_scores)
    end;
  renormalized ← normalize_scores (weighted_scores.*2) false;
  let weighted_scores :=
    filter (λ kv, Qeq_bool kv.2 0 = false)
           (zip (weighted_scores.*1) renormalized) in
  match self_uid with
  | Some u =>
    if bool_decide (u ∈ weighted_scores.*1)
    then Ok (filter (λ kv, kv.1 ≠ u) weighted_scores)
    else Ok weighted_scores
  | None => Ok weighted_scores
  end.

(** [self.client.vote(...)] against the current client. *)
Definition vote (succeeds : bool) (uids : list dict_key) (weights : list Q)
    : M unit :=
  v ← get;
  _ ← emit (EvVote (client v) uids weights);
  if succeeds then mret () else raise VoteError.

(** [self.uid] is the [int] that line 338 took from the directory. *)
Definition set_weights (env : Env) (s_dict : list (dict_key * Q)) : M unit :=
  v ← get;
  weighted_scores ←
    lift ([], weighted_scores_of s_dict (IntKey <$> self_uid v));
  let uids := weighted_scores.*1 in
  let weights := weighted_scores.*2 in
  try_except
    (vote (vote_first env) uids weights)
    (λ _,
      let sleepy_time := uniform 1 2 (random env) in
      _ ← emit (EvSleep sleepy_time);
      _ ← emit (EvNewClient (node_url env));
      _ ← set_client (node_url env);
      vote (vote_retry env) uids weights).

(** Lines 336-339: the last directory entry carrying the validator's key
    sets [self.uid]. *)
Definition find_uid (modules_keys : list (Z * string)) (val : string)
    (current : option Z) : option Z :=
  foldl (λ acc '(uid, ss58), if bool_decide (ss58 = val) then Some uid else acc)
        current modules_keys.

(** Lines 381-383: [score_dict[uid] = score] over the zipped pairs; a later
    pair overwrites an earlier one. *)
Definition build_score_dict (uids : list Z) (scores : list Q) : gmap Z Q :=
  foldl (λ d '(uid, score), <[uid := score]> d) ∅ (zip uids scores).

(** Lines 385-391: [score_dict[uid]] raises [KeyError] on a missing id. *)
Fixpoint build_data_to_write (score_dict : gmap Z Q) (batch : list Miner)
    (data_to_write : gmap Z ScoreRecord) : result (gmap Z ScoreRecord) :=
  match batch with
  | [] => Ok data_to_write
  | item :: rest =>
    match score_dict !! uid item with
    | None => Raise KeyError
    | Some score =>
      build_data_to_write score_dict rest
        (<[uid item := {| ss58 := key item; score := score |}]> data_to_write)
    end
  end.

(** The accumulated scores handed to [set_weights] (lines 411-416):
    [s_dict[uid] = data['score']] under the keys as they are read, the
    strings [str(uid)]; line 415, which converted them with [int(uid)], is
    commented out.  The items come in the order of the map, not in the
    order in which the file lists them: a vote below names the same ids
    with the same weights as the code's, possibly in another order. *)
Definition s_dict_of (scores : gmap Z ScoreRecord) : list (dict_key * Q) :=
  (λ '(uid, data), (StrKey (str uid), score data)) <$> map_to_list scores.

(** One step.  Both the early [return None] and the normal end give [()]. *)
Definition validate_step (env : Env) : M unit :=
  v ← get;
  let miners := get_miner_ip_port (modules env) in
  if bool_decide (val_ss58 v ∉ (modules_keys env).*2) then mret ()
  else
    _ ← set_self_uid (find_uid (modules_keys env) (val_ss58 v) (self_uid v));
    let scan := get_miners_to_query (weights_file v) miners in
    let remaining_miners := remaining_miners scan in
    let miners_to_query := miners_to_query scan in
    _ ← set_weights_file (scan_file scan);
    let prompt := miner_prompt env in
    miner_answers ←
      lift (executor_map (_get_miner_prediction env prompt) miners_to_query);
    let scores :=
      get_scores env (question prompt) (target_language prompt) miner_answers in
    let score_dict := build_score_dict (uid <$> miners_to_query) scores in
    data_to_write ← lift ([], build_data_to_write score_dict miners_to_query ∅);
    v1 ← get;
    let current_weights := read_weight_file (weights_file v1) in
    (* [current_weights[key] = data] for every item of [data_to_write] *)
    let current_weights := data_to_write ∪ current_weights in
    _ ← set_weights_file (write_weight_file (weights_file v1) current_weights);
    if bool_decide (length remaining_miners = 0%nat)
    then
      v2 ← get;
      let scores := read_weight_file (weights_file v2) in
      let s_dict := s_dict_of scores in
      _ ← emit EvSettingWeights;
      _ ← set_weights env s_dict;
      v3 ← get;
      set_weights_file (write_weight_file (weights_file v3) ∅)
    else mret ().

(** [while True]: one step and one sleep per tick.  The ticks that the
    process lives through are given by the environments they see; an
    exception leaving a step leaves the loop. *)
Fixpoint validation_loop (interval : Z) (ticks : list Env) : M unit :=
  match ticks with
  | [] => mret ()
  | env :: later =>
    _ ← validate_step env;
    _ ← emit (EvSleep (inject_Z interval));
    validation_loop interval later
  end.

End Validation.

(** ** Vocabulary for the weights *)

(** The extremal elements [min] and [max] return on a non-empty list. *)
Definition list_min (l : list Q) : Q :=
  match l with
  | [] => 0%Q
  | x :: xs => foldl Qmin x xs
  end.

Definition list_max (l : list Q) : Q :=
  match l with
  | [] => 0%Q
  | x :: xs => foldl Qmax x xs
  end.

(** What [normalize_scores l] makes of the element [x]. *)
Definition norm_fn (l : list Q) (x : Q) : Q :=
  if Qeq_bool (list_min l) (list_max l) then 1%Q
  else ((x - list_min l) / (list_max l - list_min l))%Q.

(** Lines 439-446 on one raw score: normalised, squashed, rescaled to the
    budget of 1000. *)
Definition rescaled {K : Type} (squash : Q → Q) (s_dict : list (K * Q))
    (x : Q) : Q :=
  let total :=
    py_sum ((λ y, squash (norm_fn (s_dict.*2) y)) <$> s_dict.*2) in
  (squash (norm_fn (s_dict.*2) x) * 1000 / total)%Q.

(** Line 449 on top of it: the weight a raw score ends with. *)
Definition weight_curve {K : Type} (squash : Q → Q) (s_dict : list (K * Q))
    (x : Q) : Q :=
  norm_fn (rescaled squash s_dict <$> s_dict.*2) (rescaled squash s_dict x).

(** Lines 449-452 on the weighted items: zero weights dropped, then the
    validator's own id. *)
Definition drop_zero_and_self {K : Type} `{EqDecision K}
    (self_uid : option K) (items : list (K * Q)) : list (K * Q) :=
  let weighted_scores := filter (λ kv, Qeq_bool kv.2 0 = false) items in
  match self_uid with
  | Some u =>
    if bool_decide (u ∈ weighted_scores.*1)
    then filter (λ kv, kv.1 ≠ u) weighted_scores
    else weighted_scores
  | None => weighted_scores
  end.

(** ** Vocabulary for one step *)

(** The validator's key is in the directory. *)
Definition registered (env : Env) (v : Validator) : Prop :=
  val_ss58 v ∈ (modules_keys env).*2.

(** The partition computed by the step. *)
Definition step_scan (env : Env) (v : Validator) : Scan :=
  get_miners_to_query (weights_file v) (get_miner_ip_port (modules env)).

(** The validator after the partition: [uid] set and the file as the loop
    left it. *)
Definition step_validator (env : Env) (v : Validator) : Validator :=
  with_file
    (with_uid v (find_uid (modules_keys env) (val_ss58 v) (self_uid v)))
    (scan_file (step_scan env v)).

(** The dispatch of the step. *)
Definition step_answers (env : Env) (v : Validator)
    : list event * result (list (option string)) :=
  executor_map (_get_miner_prediction env (miner_prompt env))
               (miners_to_query (step_scan env v)).

(** The records the step builds from the answers. *)
Definition step_data (env : Env) (v : Validator)
    (miner_answers : list (option string)) : result (gmap Z ScoreRecord) :=
  let batch := miners_to_query (step_scan env v) in
  let scores :=
    get_scores env (question (miner_prompt env))
               (target_language (miner_prompt env)) miner_answers in
  build_data_to_write (build_score_dict (uid <$> batch) scores) batch ∅.

(** The end of the finalisation branch: the file is emptied when
    [set_weights] returned. *)
Definition finish (r : Run unit) : Run unit :=
  match value r with
  | Ok _ => {| trace := trace r; final := with_file (final r) ∅; value := Ok () |}
  | Raise e => {| trace := trace r; final := final r; value := Raise e |}
  end.

Definition is_setting_weights (e : event) : bool :=
  match e with
  | EvSettingWeights => true
  | _ => false
  end.

Definition is_vote (e : event) : bool :=
  match e with
  | EvVote _ _ _ => true
  | _ => false
  end.

Definition is_call (e : event) : bool :=
  match e with
  | EvCall _ _ _ => true
  | _ => false
  end.

(** ** Sample data *)

(** An eligible worker reachable at a well-formed address. *)
Definition worker (u : Z) (k : string) : Miner :=
  {| uid := u; key := k; address := Some "10.0.0.1:8080"%string;
     incentive := 0; dividends := 0 |}.

Definition record (k : string) (s : Q) : ScoreRecord :=
  {| ss58 := k; score := s |}.

(** Nine workers; the ninth may already be on file. *)
Definition nine_workers : list Miner :=
  [worker 1 "k1"; worker 2 "k2"; worker 3 "k3"; worker 4 "k4";
   worker 5 "k5"; worker 6 "k6"; worker 7 "k7"; worker 8 "k8";
   worker 9 "k9"].

Definition two_workers : list Miner := [worker 1 "k1"; worker 2 "k2"].

(** Files holding one record: for worker 9, for worker 2 under its current
    key, and for worker 2 under a former key. *)
Definition file_w9 : gmap Z ScoreRecord := {[ 9 := record "k9" 1 ]}.
Definition file_w2 : gmap Z ScoreRecord := {[ 2 := record "k2" 1 ]}.
Definition file_w2_old : gmap Z ScoreRecord := {[ 2 := record "old" 1 ]}.

(** The validator's own directory entry: dividends above incentive, so it
    is not eligible. *)
Definition validator_module : Miner :=
  {| uid := 0; key := "val"; address := Some "10.0.0.9:9000"%string;
     incentive := 0; dividends := 7 |}.

(** Decimal digits only: enough of [int] for the sample ports. *)
Fixpoint digits (s : string) (acc : Z) : option Z :=
  match s with
  | EmptyString => Some acc
  | String c s' =>
    let n := Z.of_nat (Ascii.nat_of_ascii c) - 48 in
    if (0 <=? n) && (n <=? 9) then digits s' (10 * acc + n) else None
  end.

Definition parse_int (s : string) : option Z :=
  match s with
  | EmptyString => None
  | _ => digits s 0
  end.

(** A rational curve of logistic shape: strictly increasing, between 0
    and 1. *)
Definition rational_sigmoid (x : Q) : Q := ((1 + x / (1 + Qabs x)) / 2)%Q.

(** An environment over a list of workers in which no worker answers, the
    scorer gives every answer the score 1, and the two votes succeed or
    fail as told. *)
Definition sample_env (workers : list Miner) (first retry : bool) : Env :=
  {| modules := workers ++ [validator_module];
     modules_keys := (λ m, (uid m, key m)) <$> (workers ++ [validator_module]);
     miner_prompt := {| question := "hello"; source_language := "en";
                        target_language := "fr" |};
     py_int := parse_int;
     call := λ _ _ _ _, None;
     get_scores := λ _ _ answers, (λ _, 1%Q) <$> answers;
     vote_first := first;
     vote_retry := retry;
     node_url := 2;
     random := (1 # 2)%Q |}.

Definition sample_validator (file : gmap Z ScoreRecord) : Validator :=
  {| weights_file := file; client := 1; self_uid := None; val_ss58 := "val" |}.

(** Both workers of [two_workers] on file under their current keys. *)
Definition file_both : gmap Z ScoreRecord :=
  {[ 1 := record "k1" 1; 2 := record "k2" 3 ]}.

(** A worker whose directory entry carries no usable address. *)
Definition worker_without_address (u : Z) (k : string) : Miner :=
  {| uid := u; key := k; address := Some EmptyString;
     incentive := 0; dividends := 0 |}.

(** The weights computed from [file_both] by the validator of id 0. *)
Definition sample_weights : list (dict_key * Q) :=
  match weighted_scores_of rational_sigmoid (s_dict_of file_both)
          (Some (IntKey 0)) with
  | Ok ws => ws
  | Raise _ => []
  end.

(** A directory in which the validator's own module is eligible (incentive
    and dividends both zero, as for a newcomer), and a file that holds its
    record beside a worker's, with equal scores. *)
Definition newcomer_env : Env :=
  {| modules := [worker 0 "val"; worker 1 "k1"];
     modules_keys := [(0, "val"%string); (1, "k1"%string)];
     miner_prompt := {| question := "hello"; source_language := "en";
                        target_language := "fr" |};
     py_int := parse_int;
     call := λ _ _ _ _, None;
     get_scores := λ _ _ answers, (λ _, 1%Q) <$> answers;
     vote_first := true;
     vote_retry := true;
     node_url := 2;
     random := (1 # 2)%Q |}.

Definition file_with_validator : gmap Z ScoreRecord :=
  {[ 0 := record "val" 1; 1 := record "k1" 1 ]}.

(** Four raw scores as the literals [0], [0.497], [0.49700000000000005] and
    [0.99] give them: the second and the third are neighbours. *)
Definition close_scores : list (dict_key * Binary64.float) :=
  [(StrKey "1", Binary64.Fin 0);
   (StrKey "2", Binary64.literal 497 1000);
   (StrKey "3", Binary64.literal 49700000000000005 100000000000000000);
   (StrKey "4", Binary64.literal 99 100)].

(** What [normalize_scores] makes of [0.497] and of [0.49700000000000005]
    among them: [0.502020202020202], that is [0x1.0108cabb37566p-1]. *)
Definition close_weight : Binary64.float :=
  Eval vm_compute in
    match Binary64.normalize_scores (close_scores.*2) false with
    | Ok (_ :: y :: _) => y
    | _ => Binary64.NaN
    end.

(** ** Vocabulary for the further properties *)

(** A tick in which the collaborators behave: the directory is the given
    one, every eligible worker has an address of two parts whose port parses
    and whose host is not the string ["None"], the scorer returns one score
    per answer, and the first vote succeeds.  (The port is required not to be
    the string ["None"] because [py_int] is an arbitrary function here.) *)
Definition healthy (mods : list Miner) (keys : list (Z * string)) (env : Env)
    : Prop :=
  modules env = mods
  ∧ modules_keys env = keys
  ∧ (∀ m, m ∈ get_miner_ip_port mods →
       ∃ ip port n, split_ip_port (address m) = (Some ip, Some port)
                    ∧ ip ≠ "None"%string ∧ port ≠ "None"%string
                    ∧ py_int env port = Some n)
  ∧ (∀ q t answers, length (get_scores env q t answers) = length answers)
  ∧ vote_first env = true.

(** ** [get_miner_prompt] *)

(** [self.languages]. *)
Definition languages : list string :=
  ["ar"; "de"; "en"; "es"; "fa"; "fr"; "hi"; "he"; "pt"; "ru"; "ur"; "vi";
   "zh"]%string.

(** [self.datasets]: every language has the one dataset [cc_100], a dataset
    being known by its [get_random_record]. *)
Definition datasets (cc_100 : string → string)
    : gmap string (list (string → string)) :=
  list_to_map ((λ language, (language, [cc_100])) <$> languages).

(** What can go wrong in [get_miner_prompt]: [ValueError] from a [choice]
    in an empty list or a [randint] over an empty range, [KeyError] from the
    dictionary, [IndexError] from the list. *)
Inductive prompt_error : Type :=
| PromptValueError
| PromptKeyError
| PromptIndexError.

(** [np.random.choice(a)]: the element at a drawn position, [ValueError] on
    an empty list.  The draw is any number, reduced to a position. *)
Definition choice (a : list string) (draw : nat) : prompt_error + string :=
  match a !! (draw `mod` length a)%nat with
  | Some x => inr x
  | None => inl PromptValueError
  end.

(** [random.randint(lo, hi)]: [ValueError] on an empty range. *)
Definition randint (lo hi : Z) (draw : nat) : prompt_error + Z :=
  if bool_decide (hi < lo) then inl PromptValueError
  else inr (lo + Z.of_nat draw `mod` (hi - lo + 1)).

(** [a[i]] on a list: a negative index counts from the end. *)
Definition list_item {A : Type} (a : list A) (i : Z) : prompt_error + A :=
  let position := if bool_decide (i < 0) then Z.of_nat (length a) + i else i in
  if bool_decide (position < 0) then inl PromptIndexError
  else match a !! Z.to_nat position with
       | Some x => inr x
       | None => inl PromptIndexError
       end.

(** Lines 290-306.  The three draws are those of the two [choice] and of
    [randint]. *)
Definition get_miner_prompt (cc_100 : string → string) (d1 d2 d3 : nat)
    : prompt_error + (string * string * string) :=
  match choice languages d1 with
  | inl e => inl e
  | inr source_language =>
    let target_languages :=
      filter (λ language, language ≠ source_language) languages in
    match choice target_languages d2 with
    | inl e => inl e
    | inr target_language =>
      match datasets cc_100 !! source_language with
      | None => inl PromptKeyError
      | Some source_datasets =>
        match randint 0 (Z.of_nat (length source_datasets) - 1) d3 with
        | inl e => inl e
        | inr random_dataset_index =>
          match list_item source_datasets random_dataset_index with
          | inl e => inl e
          | inr source_dataset =>
            let source_text := source_dataset source_language in
            inr (source_text, source_language, target_language)
          end
        end
      end
    end
  end.

(** Whether a string holds the separator. *)
Fixpoint has_colon (s : string) : bool :=
  match s with
  | EmptyString => false
  | String c s' => Ascii.eqb c colon || has_colon s'
  end.

(** [":".join(parts)]. *)
Fixpoint join_colon (parts : list string) : string :=
  match parts with
  | [] => EmptyString
  | [part] => part
  | part :: rest => String.append part (String colon (join_colon rest))
  end.

(** The number of events of a kind in a trace. *)
Definition count_events (kind : event → bool) (t : list event) : nat :=
  length (filter (λ e, kind e = true) t).

(** An environment whose directory does not list the validator's key. *)
Definition stranger_env : Env :=
  {| modules := two_workers;
     modules_keys := [(1, "k1"%string); (2, "k2"%string)];
     miner_prompt := {| question := "hello"; source_language := "en";
                        target_language := "fr" |};
     py_int := parse_int;
     call := λ _ _ _ _, None;
     get_scores := λ _ _ answers, (λ _, 1%Q) <$> answers;
     vote_first := true;
     vote_retry := true;
     node_url := 2;
     random := (1 # 2)%Q |}.

(** * Properties *)

(** ** Lists *)

Lemma filter_all {A : Type} (P : A → Prop) `{!∀ x, Decision (P x)} (l : list A) :
  (∀ x, x ∈ l → P x) → filter P l = l.
Proof.
  induction l as [|a l IH]; intros Hl; [done|].
  rewrite filter_cons_True by (apply Hl; left).
  f_equal. apply IH. intros x Hx. apply Hl. by right.
Qed.

Lemma filter_none {A : Type} (P : A → Prop) `{!∀ x, Decision (P x)} (l : list A) :
  (∀ x, x ∈ l → ¬ P x) → filter P l = [].
Proof.
  induction l as [|a l IH]; intros Hl; [done|].
  rewrite filter_cons_False by (apply Hl; left).
  apply IH. intros x Hx. apply Hl. by right.
Qed.

(** Distinct ids: two entries with one id are one entry. *)
Lemma NoDup_uid_inj (l : list Miner) (x y : Miner) :
  NoDup (uid <$> l) → x ∈ l → y ∈ l → uid x = uid y → x = y.
Proof.
  induction l as [|a l IH]; intros Hnd Hx Hy Heq.
  - by apply not_elem_of_nil in Hx.
  - rewrite fmap_cons in Hnd. apply NoDup_cons in Hnd as [Ha Hnd].
    apply elem_of_cons in Hx as [->|Hx]; apply elem_of_cons in Hy as [->|Hy].
    + done.
    + exfalso. apply Ha. rewrite Heq. apply list_elem_of_fmap. eauto.
    + exfalso. apply Ha. rewrite <- Heq. apply list_elem_of_fmap. eauto.
    + by apply IH.
Qed.

(** ** The coverage partition *)

Section Partition.

Variable scored : gmap Z ScoreRecord.

(** One iteration, read through [covered] and [stale]. *)
Lemma scan_miners_cons m rest st :
  scan_miners scored (m :: rest) st =
  if covered scored m then scan_miners scored rest (drop_covered m st)
  else
    let st2 := enqueue m (if stale scored m then purge_stale m st else st) in
    if bool_decide (counter st2 = 8) then st2
    else scan_miners scored rest st2.
Proof.
  unfold covered, stale. simpl.
  destruct (scored !! uid m) as [r|] eqn:Hr; [|reflexivity].
  destruct (decide (key m = ss58 r)) as [Hk|Hk].
  - rewrite (bool_decide_eq_true_2 _ Hk).
    rewrite bool_decide_eq_false_2 by (intros H; apply H, Hk).
    reflexivity.
  - rewrite (bool_decide_eq_false_2 _ Hk).
    rewrite (bool_decide_eq_true_2 (key m ≠ ss58 r)) by exact Hk.
    reflexivity.
Qed.

Lemma covered_stale_excl m : covered scored m = true → stale scored m = false.
Proof.
  unfold covered, stale. destruct (scored !! uid m); [|done].
  intros H%bool_decide_eq_true. apply bool_decide_eq_false. tauto.
Qed.

Lemma candidates_cons m ms :
  candidates scored (m :: ms) =
  if covered scored m then candidates scored ms
  else m :: candidates scored ms.
Proof.
  unfold candidates. rewrite filter_cons.
  destruct (covered scored m); case_decide; congruence.
Qed.

Lemma enqueue_inv m st st1 :
  scan_inv st →
  miners_to_query st1 = miners_to_query st → counter st1 = counter st →
  counter (enqueue m st1) ≠ 8 → scan_inv (enqueue m st1).
Proof.
  intros [Hc Hl] Hb Hcn Hne. unfold scan_inv, enqueue in *. simpl in *.
  rewrite Hb, Hcn, length_app. simpl. split; lia.
Qed.

Lemma purge_or_not_batch m st :
  miners_to_query (if stale scored m then purge_stale m st else st)
  = miners_to_query st
  ∧ counter (if stale scored m then purge_stale m st else st) = counter st
  ∧ remaining_miners (if stale scored m then purge_stale m st else st)
    = remaining_miners st.
Proof. destruct (stale scored m); done. Qed.

(** The batch is filled with the candidates met, up to eight. *)
Lemma scan_batch ms : ∀ st,
  scan_inv st →
  miners_to_query (scan_miners scored ms st) =
  miners_to_query st
    ++ take (8 - length (miners_to_query st)) (candidates scored ms).
Proof.
  induction ms as [|m ms IH]; intros st Hinv.
  - simpl. unfold candidates. rewrite filter_nil, take_nil, app_nil_r. done.
  - rewrite scan_miners_cons, candidates_cons.
    destruct (covered scored m) eqn:Hcov.
    + rewrite IH; [done|]. exact Hinv.
    + destruct (purge_or_not_batch m st) as (Hb & Hc & _).
      set (st1 := if stale scored m then purge_stale m st else st) in *.
      destruct Hinv as [Hcnt Hlen]. cbn zeta.
      case_bool_decide as H8.
      * unfold enqueue in *. simpl in *. rewrite Hb.
        assert (8 - length (miners_to_query st) = 1)%nat as -> by lia.
        simpl. rewrite take_0. done.
      * rewrite IH by (apply (enqueue_inv m st st1); done).
        unfold enqueue in *. simpl in *. rewrite Hb, length_app. simpl.
        rewrite <- app_assoc. simpl.
        assert (8 - length (miners_to_query st)
                = S (8 - (length (miners_to_query st) + 1)))%nat as -> by lia.
        done.
Qed.

(** [remaining_miners] only shrinks. *)
Lemma scan_remaining_subseteq ms : ∀ st x,
  x ∈ remaining_miners (scan_miners scored ms st) → x ∈ remaining_miners st.
Proof.
  induction ms as [|m ms IH]; intros st x; [done|].
  rewrite scan_miners_cons.
  destruct (covered scored m).
  - intros H%IH. simpl in H. apply list_elem_of_filter in H. tauto.
  - destruct (purge_or_not_batch m st) as (_ & _ & Hr).
    cbn zeta. case_bool_decide.
    + simpl. rewrite Hr. done.
    + intros Hx%IH. simpl in Hx. rewrite Hr in Hx. done.
Qed.

(** A worker leaves [remaining_miners] only because a covered worker with
    its id was met. *)
Lemma scan_remaining_removed ms : ∀ st x,
  x ∈ remaining_miners st →
  x ∉ remaining_miners (scan_miners scored ms st) →
  ∃ m, m ∈ ms ∧ covered scored m = true ∧ uid m = uid x.
Proof.
  induction ms as [|m ms IH]; intros st x Hin Hout; [done|].
  rewrite scan_miners_cons in Hout.
  destruct (covered scored m) eqn:Hcov.
  - destruct (decide (uid x = uid m)) as [Heq|Hne].
    + exists m. split; [left|done].
    + destruct (IH (drop_covered m st) x) as (m' & ? & ? & ?); [|done|].
      * simpl. apply list_elem_of_filter. done.
      * exists m'. split; [right|]; done.
  - destruct (purge_or_not_batch m st) as (_ & _ & Hr).
    cbn zeta in Hout. case_bool_decide.
    + simpl in Hout. rewrite Hr in Hout. done.
    + apply IH in Hout as (m' & ? & ? & ?).
      * exists m'. split; [right|]; done.
      * simpl. rewrite Hr. done.
Qed.

Lemma covered_uids_cons m ms :
  covered_uids scored (m :: ms) =
  if covered scored m then uid m :: covered_uids scored ms
  else covered_uids scored ms.
Proof.
  unfold covered_uids. rewrite filter_cons.
  destruct (covered scored m); case_decide; try congruence; done.
Qed.

(** When fewer than eight candidates are met the loop runs to the end and
    every covered worker has been taken out. *)
Lemma scan_remaining_complete ms : ∀ st,
  scan_inv st →
  (length (miners_to_query st) + length (candidates scored ms) < 8)%nat →
  remaining_miners (scan_miners scored ms st) =
  filter (λ x, uid x ∉ covered_uids scored ms) (remaining_miners st).
Proof.
  induction ms as [|m ms IH]; intros st Hinv Hlen.
  - simpl. symmetry. apply filter_all. intros x _. apply not_elem_of_nil.
  - rewrite scan_miners_cons. rewrite candidates_cons in Hlen.
    rewrite covered_uids_cons.
    destruct (covered scored m) eqn:Hcov.
    + rewrite IH by done. simpl. rewrite list_filter_filter.
      apply list_filter_iff. intros x. rewrite not_elem_of_cons. tauto.
    + destruct (purge_or_not_batch m st) as (Hb & Hc & Hr).
      set (st1 := if stale scored m then purge_stale m st else st) in *.
      simpl in Hlen. destruct Hinv as [Hcnt Hl]. cbn zeta.
      case_bool_decide as H8.
      * unfold enqueue in H8. simpl in H8. lia.
      * rewrite IH.
        -- simpl. rewrite Hr. done.
        -- apply (enqueue_inv m st st1); done.
        -- unfold enqueue. simpl. rewrite Hb, length_app. simpl. lia.
Qed.

(** The loop over a prefix that holds fewer than eight candidates runs
    through it. *)
Lemma scan_app pre : ∀ rest st,
  scan_inv st →
  (length (miners_to_query st) + length (candidates scored pre) < 8)%nat →
  scan_miners scored (pre ++ rest) st
  = scan_miners scored rest (scan_miners scored pre st)
  ∧ scan_inv (scan_miners scored pre st).
Proof.
  induction pre as [|m pre IH]; intros rest st Hinv Hlen; [done|].
  rewrite <- app_comm_cons, !scan_miners_cons.
  rewrite candidates_cons in Hlen.
  destruct (covered scored m) eqn:Hcov.
  - apply IH; done.
  - destruct (purge_or_not_batch m st) as (Hb & Hc & Hr).
    set (st1 := if stale scored m then purge_stale m st else st) in *.
    simpl in Hlen. destruct Hinv as [Hcnt Hl]. cbn zeta.
    case_bool_decide as H8.
    + unfold enqueue in H8. simpl in H8. lia.
    + apply IH.
      * apply (enqueue_inv m st st1); done.
      * unfold enqueue. simpl. rewrite Hb, length_app. simpl. lia.
Qed.

(** *** The file during the loop *)

Lemma purge_lookup_same m file : purge m file !! uid m = None.
Proof.
  unfold purge, read_weight_file, write_weight_file.
  case_bool_decide as H.
  - apply lookup_delete_eq.
  - destruct (file !! uid m) eqn:E; [|done]. exfalso. apply H. eauto.
Qed.

Lemma purge_lookup_Some m file u r :
  purge m file !! u = Some r → file !! u = Some r.
Proof.
  unfold purge, read_weight_file, write_weight_file.
  case_bool_decide; [|done].
  intros Hd. apply lookup_delete_Some in Hd. tauto.
Qed.

(** The loop only deletes records. *)
Lemma scan_file_lookup_Some ms : ∀ st u r,
  scan_file (scan_miners scored ms st) !! u = Some r →
  scan_file st !! u = Some r.
Proof.
  induction ms as [|m ms IH]; intros st u r; [done|].
  rewrite scan_miners_cons.
  destruct (covered scored m).
  - intros Hu%IH. done.
  - assert (∀ r, scan_file (enqueue m
               (if stale scored m then purge_stale m st else st)) !! u = Some r
             → scan_file st !! u = Some r) as Hstep.
    { intros r'. destruct (stale scored m); simpl; [|done].
      apply purge_lookup_Some. }
    cbn zeta. case_bool_decide.
    + apply Hstep.
    + intros Hu%IH. by apply Hstep.
Qed.

(** A stale worker that enters the batch has had its record deleted. *)
Lemma scan_purged ms : ∀ st x,
  stale scored x = true →
  x ∈ miners_to_query (scan_miners scored ms st) →
  x ∉ miners_to_query st →
  scan_file (scan_miners scored ms st) !! uid x = None.
Proof.
  induction ms as [|m ms IH]; intros st x Hst Hin Hout; [done|].
  rewrite scan_miners_cons in *.
  destruct (covered scored m) eqn:Hcov.
  - apply IH; done.
  - set (st2 := enqueue m (if stale scored m then purge_stale m st else st)) in *.
    assert (x ∈ miners_to_query st2 → scan_file st2 !! uid x = None) as Hhead.
    { unfold st2. destruct (purge_or_not_batch m st) as (Hb & _ & _).
      simpl. rewrite Hb. intros [?| ->%list_elem_of_singleton]%elem_of_app; [done|].
      rewrite Hst. simpl. apply purge_lookup_same. }
    cbn zeta in *. case_bool_decide.
    + by apply Hhead.
    + destruct (decide (x ∈ miners_to_query st2)) as [Hx|Hx].
      * destruct (scan_file (scan_miners scored ms st2) !! uid x) eqn:E; [|done].
        apply scan_file_lookup_Some in E. rewrite Hhead in E; done.
      * apply IH; done.
Qed.

(** A record disappears only because a stale worker with its id was met. *)
Lemma scan_file_lookup_None ms : ∀ st u r,
  scan_file st !! u = Some r →
  scan_file (scan_miners scored ms st) !! u = None →
  ∃ m, m ∈ ms ∧ stale scored m = true ∧ uid m = u.
Proof.
  induction ms as [|m ms IH]; intros st u r Hu Hn.
  - simpl in Hn. congruence.
  - rewrite scan_miners_cons in Hn.
    destruct (covered scored m).
    + destruct (IH (drop_covered m st) u r Hu Hn) as (m' & ? & ? & ?).
      exists m'. split; [by right|done].
    + set (st2 := enqueue m (if stale scored m then purge_stale m st else st)) in *.
      destruct (scan_file st2 !! u) as [r'|] eqn:E2.
      * cbn zeta in Hn. case_bool_decide; [congruence|].
        destruct (IH st2 u r' E2 Hn) as (m' & ? & ? & ?).
        exists m'. split; [by right|done].
      * exists m. split; [by left|].
        unfold st2 in E2. destruct (stale scored m); simpl in E2; [|congruence].
        split; [done|]. unfold purge, read_weight_file, write_weight_file in E2.
        case_bool_decide; [|congruence].
        apply lookup_delete_None in E2 as [?|?]; [done|congruence].
Qed.

End Partition.

Lemma scan_inv_init file miners :
  scan_inv {| remaining_miners := miners; miners_to_query := [];
              counter := 0; scan_file := file |}.
Proof. split; simpl; lia. Qed.

Lemma batch_is_take file miners :
  miners_to_query (get_miners_to_query file miners)
  = take 8 (candidates file miners).
Proof.
  unfold get_miners_to_query, read_weight_file.
  rewrite scan_batch by apply scan_inv_init. done.
Qed.

Lemma covered_uids_spec scored miners x :
  NoDup (uid <$> miners) → x ∈ miners →
  uid x ∉ covered_uids scored miners ↔ covered scored x = false.
Proof.
  intros Hnd Hx. unfold covered_uids. split.
  - intros Hn. destruct (covered scored x) eqn:E; [|done].
    exfalso. apply Hn. apply list_elem_of_fmap. exists x. split; [done|].
    apply list_elem_of_filter. done.
  - intros Hc (m & Hu & Hm)%list_elem_of_fmap.
    apply list_elem_of_filter in Hm as [Hm1 Hm2].
    assert (x = m) as -> by (eapply NoDup_uid_inj; done). congruence.
Qed.

Lemma filter_ext_in {A : Type} (P1 P2 : A → Prop)
    `{!∀ x, Decision (P1 x), !∀ x, Decision (P2 x)} (l : list A) :
  (∀ x, x ∈ l → P1 x ↔ P2 x) → filter P1 l = filter P2 l.
Proof.
  induction l as [|a l IH]; intros Hl; [done|].
  rewrite !filter_cons. rewrite IH by (intros x Hx; apply Hl; by right).
  destruct (decide (P1 a)) as [H1|H1], (decide (P2 a)) as [H2|H2]; try done.
  - exfalso. apply H2, Hl; [left|done].
  - exfalso. apply H1, Hl; [left|done].
Qed.

(** A covered worker is not a candidate, so it is not queried. *)
Lemma covered_not_queried file miners m :
  covered file m = true →
  m ∉ miners_to_query (get_miners_to_query file miners).
Proof.
  intros Hcov. rewrite batch_is_take. intros Hin%subseteq_take.
  apply list_elem_of_filter in Hin as [Hc _]. congruence.
Qed.

(** A candidate is never taken out of [remaining_miners]. *)
Lemma candidate_remains file miners m :
  NoDup (uid <$> miners) →
  m ∈ candidates file miners →
  m ∈ remaining_miners (get_miners_to_query file miners).
Proof.
  intros Hnd [Hc Hm]%list_elem_of_filter.
  unfold get_miners_to_query, read_weight_file.
  match goal with |- _ ∈ remaining_miners (scan_miners _ _ ?st) => set (st0 := st) end.
  destruct (decide (m ∈ remaining_miners (scan_miners file miners st0)))
    as [|Hout]; [done|].
  apply scan_remaining_removed in Hout as (m' & Hm' & Hc' & Hu); [|done].
  assert (m' = m) as -> by (eapply NoDup_uid_inj; done). congruence.
Qed.

(** *** The partition as the spec words it *)

(** C2 (as amended).  For a snapshot with distinct ids: the batch is the
    first min(8, |candidates|) candidates in snapshot order, so it has at most
    eight members; every candidate, hence every batch member, is in
    [remaining_miners] (the two lists are not disjoint); [remaining_miners]
    holds snapshot workers only, and when fewer than eight candidates exist
    it is exactly the candidate list. *)
Theorem partition_batch_prefix_remaining_superset
    (file : gmap Z ScoreRecord) (miners : list Miner) :
  NoDup (uid <$> miners) →
  let s := get_miners_to_query file miners in
  let c := candidates file miners in
  miners_to_query s = take (8 `min` length c) c
  ∧ (length (miners_to_query s) ≤ 8)%nat
  ∧ (∀ m, m ∈ c → m ∈ remaining_miners s)
  ∧ (∀ m, m ∈ miners_to_query s → m ∈ remaining_miners s)
  ∧ (∀ m, m ∈ remaining_miners s → m ∈ miners)
  ∧ ((length c < 8)%nat → remaining_miners s = c).
Proof.
  intros Hnd s c.
  assert (miners_to_query s = take 8 c) as Hb by apply batch_is_take.
  assert (∀ m, m ∈ c → m ∈ remaining_miners s) as Hc
    by (intros m; by apply candidate_remains).
  split; [|split; [|split; [|split; [|split]]]].
  - rewrite Hb. destruct (Nat.min_spec 8 (length c)) as [[? ->]|[? ->]]; [done|].
    rewrite !take_ge by lia. done.
  - rewrite Hb, length_take. lia.
  - exact Hc.
  - intros m Hm. apply Hc. rewrite Hb in Hm.
    eapply subseteq_take; done.
  - intros m Hm. unfold s, get_miners_to_query in Hm.
    apply scan_remaining_subseteq in Hm. done.
  - intros Hlen. unfold s, get_miners_to_query, read_weight_file.
    rewrite scan_remaining_complete; [|apply scan_inv_init|simpl; fold c; lia].
    simpl. unfold c, candidates. apply filter_ext_in.
    intros x Hx. by apply covered_uids_spec.
Qed.

Lemma partition_batch_prefix_remaining_superset_witness :
  NoDup (uid <$> nine_workers)
  ∧ (let s := get_miners_to_query file_w9 nine_workers in
     let c := candidates file_w9 nine_workers in
     miners_to_query s = take (8 `min` length c) c
     ∧ (length (miners_to_query s) ≤ 8)%nat
     ∧ (∀ m, m ∈ c → m ∈ remaining_miners s)
     ∧ (∀ m, m ∈ miners_to_query s → m ∈ remaining_miners s)
     ∧ (∀ m, m ∈ remaining_miners s → m ∈ nine_workers)
     ∧ ((length c < 8)%nat → remaining_miners s = c)).
Proof.
  assert (NoDup (uid <$> nine_workers)) as Hnd
    by (apply (bool_decide_unpack _); vm_compute; reflexivity).
  split; [exact Hnd|].
  apply (partition_batch_prefix_remaining_superset _ _ Hnd).
Defined.

(** C2, as stated, fails: with an empty file and one worker the worker is
    in the batch and in [remaining_miners]. *)
Lemma partition_not_disjoint :
  let s := get_miners_to_query ∅ [worker 1 "k1"] in
  miners_to_query s = [worker 1 "k1"]
  ∧ remaining_miners s = [worker 1 "k1"]
  ∧ ¬ (∀ m, m ∈ remaining_miners s → m ∉ miners_to_query s).
Proof.
  assert (get_miners_to_query ∅ [worker 1 "k1"]
          = {| remaining_miners := [worker 1 "k1"];
               miners_to_query := [worker 1 "k1"];
               counter := 1; scan_file := ∅ |}) as E by reflexivity.
  cbn zeta. rewrite E. simpl. split; [done|]. split; [done|].
  intros H. apply (H (worker 1 "k1")); left.
Qed.

(** C7 (as amended).  A worker with a record under its current key never
    enters the batch; it is taken out of [remaining_miners] whenever the loop
    reaches it, that is when fewer than eight candidates precede it in the
    snapshot, and in particular whenever the snapshot holds fewer than eight
    candidates. *)
Theorem covered_worker_not_in_batch
    (file : gmap Z ScoreRecord) (miners : list Miner) (m : Miner) :
  m ∈ miners →
  covered file m = true →
  let s := get_miners_to_query file miners in
  (m ∉ miners_to_query s)
  ∧ (∀ pre post, miners = pre ++ m :: post →
       (length (candidates file pre) < 8)%nat → m ∉ remaining_miners s)
  ∧ ((length (candidates file miners) < 8)%nat → m ∉ remaining_miners s).
Proof.
  intros Hm Hcov s. split; [|split].
  - by apply covered_not_queried.
  - intros pre post -> Hlen.
    unfold s, get_miners_to_query, read_weight_file.
    match goal with |- _ ∉ remaining_miners (scan_miners _ _ ?st) =>
      set (st0 := st) end.
    destruct (scan_app file pre (m :: post) st0) as [-> _];
      [apply scan_inv_init|simpl; lia|].
    rewrite scan_miners_cons, Hcov.
    intros Hin%scan_remaining_subseteq. simpl in Hin.
    apply list_elem_of_filter in Hin as [Hne _]. done.
  - intros Hlen. unfold s, get_miners_to_query, read_weight_file.
    rewrite scan_remaining_complete; [|apply scan_inv_init|simpl; lia].
    simpl. intros [Hn _]%list_elem_of_filter. apply Hn.
    unfold covered_uids. apply list_elem_of_fmap. exists m. split; [done|].
    apply list_elem_of_filter. done.
Qed.

Lemma covered_worker_not_in_batch_witness :
  worker 2 "k2" ∈ two_workers
  ∧ covered file_w2 (worker 2 "k2") = true
  ∧ (let s := get_miners_to_query file_w2 two_workers in
     (worker 2 "k2" ∉ miners_to_query s)
     ∧ (∀ pre post, two_workers = pre ++ worker 2 "k2" :: post →
          (length (candidates file_w2 pre) < 8)%nat →
          worker 2 "k2" ∉ remaining_miners s)
     ∧ ((length (candidates file_w2 two_workers) < 8)%nat →
        worker 2 "k2" ∉ remaining_miners s)).
Proof.
  assert (worker 2 "k2" ∈ two_workers) as Hin
    by (right; left).
  assert (covered file_w2 (worker 2 "k2") = true) as Hcov
    by reflexivity.
  split; [exact Hin|]. split; [exact Hcov|].
  apply (covered_worker_not_in_batch _ _ _ Hin Hcov).
Defined.

(** C7, as stated, fails: behind eight candidates the loop stops before it
    reaches the covered ninth worker, which stays in [remaining_miners]. *)
Lemma covered_worker_left_in_remaining :
  let file := file_w9 in
  let s := get_miners_to_query file nine_workers in
  covered file (worker 9 "k9") = true
  ∧ worker 9 "k9" ∈ nine_workers
  ∧ worker 9 "k9" ∈ remaining_miners s.
Proof.
  cbn zeta.
  assert (remaining_miners
            (get_miners_to_query file_w9 nine_workers)
          = nine_workers) as -> by reflexivity.
  split; [reflexivity|].
  assert (worker 9 "k9" ∈ nine_workers) as H.
  { unfold nine_workers. do 8 right. left. }
  done.
Qed.

(** C8.  A worker on file under another key is a candidate and stays in
    [remaining_miners]; when it enters the batch (which it does whenever
    fewer than eight candidates precede it) its record has been deleted from
    the file; and the file left by the partition never makes it covered. *)
Theorem stale_worker_requeried_and_purged
    (file : gmap Z ScoreRecord) (miners : list Miner) (m : Miner)
    (r : ScoreRecord) :
  NoDup (uid <$> miners) →
  m ∈ miners →
  file !! uid m = Some r →
  key m ≠ ss58 r →
  let s := get_miners_to_query file miners in
  m ∈ candidates file miners
  ∧ m ∈ remaining_miners s
  ∧ (m ∈ miners_to_query s → scan_file s !! uid m = None)
  ∧ (∀ pre post, miners = pre ++ m :: post →
       (length (candidates file pre) < 8)%nat → m ∈ miners_to_query s)
  ∧ covered (scan_file s) m = false.
Proof.
  intros Hnd Hm Hr Hk s.
  assert (covered file m = false) as Hcov.
  { unfold covered. rewrite Hr. by apply bool_decide_eq_false. }
  assert (stale file m = true) as Hst.
  { unfold stale. rewrite Hr. by apply bool_decide_eq_true. }
  assert (m ∈ candidates file miners) as Hc
    by (apply list_elem_of_filter; done).
  split; [exact Hc|]. split; [by apply candidate_remains|].
  split; [|split].
  - intros Hin. unfold s, get_miners_to_query, read_weight_file in *.
    apply scan_purged; [done|done|]. simpl. apply not_elem_of_nil.
  - intros pre post -> Hlen. unfold s. rewrite batch_is_take.
    unfold candidates. rewrite filter_app, filter_cons_True by done.
    apply elem_of_take. exists (length (filter (λ m0, covered file m0 = false) pre)).
    split; [|exact Hlen].
    rewrite lookup_app_r by lia. by rewrite Nat.sub_diag.
  - unfold covered. destruct (scan_file s !! uid m) as [r'|] eqn:E; [|done].
    unfold s, get_miners_to_query, read_weight_file in E.
    apply scan_file_lookup_Some in E. simpl in E.
    assert (r' = r) as -> by congruence. by apply bool_decide_eq_false.
Qed.

Lemma stale_worker_requeried_and_purged_witness :
  let file := file_w2_old in
  let miners := two_workers in
  let s := get_miners_to_query file miners in
  worker 2 "k2" ∈ candidates file miners
  ∧ worker 2 "k2" ∈ remaining_miners s
  ∧ (worker 2 "k2" ∈ miners_to_query s → scan_file s !! 2 = None)
  ∧ (∀ pre post, miners = pre ++ worker 2 "k2" :: post →
       (length (candidates file pre) < 8)%nat →
       worker 2 "k2" ∈ miners_to_query s)
  ∧ covered (scan_file s) (worker 2 "k2") = false.
Proof.
  apply (stale_worker_requeried_and_purged
           file_w2_old two_workers (worker 2 "k2") (record "old" 1)).
  - apply (bool_decide_unpack _). vm_compute. reflexivity.
  - right; left.
  - reflexivity.
  - simpl. discriminate.
Defined.

(** ** The monad, run by run *)

Lemma prepend_nil {A : Type} (r : Run A) : prepend [] r = r.
Proof. destruct r; reflexivity. Qed.

Lemma run_bind {A B : Type} (m : M A) (k : A → M B) (v : Validator) :
  (m ≫= k) v =
  match value (m v) with
  | Ok a => prepend (trace (m v)) (k a (final (m v)))
  | Raise e => {| trace := trace (m v); final := final (m v); value := Raise e |}
  end.
Proof. reflexivity. Qed.

Lemma get_bind {B : Type} (k : Validator → M B) (v : Validator) :
  (get ≫= k) v = k v v.
Proof. rewrite run_bind. simpl. apply prepend_nil. Qed.

Lemma put_bind {B : Type} (k : unit → M B) (v' v : Validator) :
  (put v' ≫= k) v = k () v'.
Proof. rewrite run_bind. simpl. apply prepend_nil. Qed.

Lemma ret_bind {A B : Type} (a : A) (k : A → M B) (v : Validator) :
  (mret a ≫= k) v = k a v.
Proof. rewrite run_bind. simpl. apply prepend_nil. Qed.

Lemma emit_bind {B : Type} (k : unit → M B) (e : event) (v : Validator) :
  (emit e ≫= k) v = prepend [e] (k () v).
Proof. rewrite run_bind. reflexivity. Qed.

Lemma lift_bind {A B : Type} (k : A → M B) (t : list event) (r : result A)
    (v : Validator) :
  (lift (t, r) ≫= k) v =
  match r with
  | Ok a => prepend t (k a v)
  | Raise e => {| trace := t; final := v; value := Raise e |}
  end.
Proof. rewrite run_bind. simpl. destruct r; reflexivity. Qed.

Lemma weights_file_with_file (v : Validator) (file : gmap Z ScoreRecord) :
  weights_file (with_file v file) = file.
Proof. reflexivity. Qed.

Lemma set_weights_file_run (file : gmap Z ScoreRecord) (v : Validator) :
  set_weights_file file v
  = {| trace := []; final := with_file v file; value := Ok () |}.
Proof. unfold set_weights_file. rewrite get_bind. reflexivity. Qed.

Lemma set_weights_file_bind {B : Type} (k : unit → M B)
    (file : gmap Z ScoreRecord) (v : Validator) :
  (set_weights_file file ≫= k) v = k () (with_file v file).
Proof. rewrite run_bind, set_weights_file_run. simpl. apply prepend_nil. Qed.

Lemma set_self_uid_bind {B : Type} (k : unit → M B) (u : option Z)
    (v : Validator) :
  (set_self_uid u ≫= k) v = k () (with_uid v u).
Proof.
  unfold set_self_uid. rewrite run_bind, get_bind. simpl. apply prepend_nil.
Qed.

Lemma set_client_bind {B : Type} (k : unit → M B) (c : Z) (v : Validator) :
  (set_client c ≫= k) v = k () (with_client v c).
Proof.
  unfold set_client. rewrite run_bind, get_bind. simpl. apply prepend_nil.
Qed.

Lemma vote_run (succeeds : bool) (uids : list dict_key) (weights : list Q)
    (v : Validator) :
  vote succeeds uids weights v
  = {| trace := [EvVote (client v) uids weights]; final := v;
       value := if succeeds then Ok () else Raise VoteError |}.
Proof.
  unfold vote. rewrite get_bind, emit_bind. destruct succeeds; reflexivity.
Qed.

(** ** [set_weights], case by case *)

Section SetWeights.

Variable squash : Q → Q.
Variable env : Env.
Variable s_dict : list (dict_key * Q).
Variable v : Validator.

Lemma set_weights_raise e :
  weighted_scores_of squash s_dict (IntKey <$> self_uid v) = Raise e →
  set_weights squash env s_dict v
  = {| trace := []; final := v; value := Raise e |}.
Proof.
  intros Hw. unfold set_weights. rewrite get_bind, Hw, lift_bind. reflexivity.
Qed.

Lemma set_weights_first_try ws :
  weighted_scores_of squash s_dict (IntKey <$> self_uid v) = Ok ws →
  vote_first env = true →
  set_weights squash env s_dict v
  = {| trace := [EvVote (client v) ws.*1 ws.*2]; final := v; value := Ok () |}.
Proof.
  intros Hw Hv. unfold set_weights. rewrite get_bind, Hw, lift_bind.
  rewrite prepend_nil. unfold try_except. rewrite vote_run, Hv. reflexivity.
Qed.

Lemma set_weights_retry ws :
  weighted_scores_of squash s_dict (IntKey <$> self_uid v) = Ok ws →
  vote_first env = false →
  set_weights squash env s_dict v
  = {| trace := [EvVote (client v) ws.*1 ws.*2;
                 EvSleep (uniform 1 2 (random env));
                 EvNewClient (node_url env);
                 EvVote (node_url env) ws.*1 ws.*2];
       final := with_client v (node_url env);
       value := if vote_retry env then Ok () else Raise VoteError |}.
Proof.
  intros Hw Hv. unfold set_weights. rewrite get_bind, Hw, lift_bind.
  rewrite prepend_nil. unfold try_except. rewrite vote_run, Hv.
  cbn [value final trace].
  rewrite !emit_bind, set_client_bind, vote_run. reflexivity.
Qed.

End SetWeights.

(** ** One step, case by case *)

Section Step.

Variable squash : Q → Q.
Variable env : Env.
Variable v : Validator.

Lemma validate_step_not_registered :
  ¬ registered env v →
  validate_step squash env v = {| trace := []; final := v; value := Ok () |}.
Proof.
  intros Hreg. unfold validate_step. rewrite get_bind.
  rewrite bool_decide_eq_true_2 by exact Hreg. reflexivity.
Qed.

Lemma validate_step_dispatch_raise e :
  registered env v →
  (step_answers env v).2 = Raise e →
  validate_step squash env v
  = {| trace := (step_answers env v).1; final := step_validator env v;
       value := Raise e |}.
Proof.
  intros Hreg Hd. unfold validate_step. rewrite get_bind.
  rewrite bool_decide_eq_false_2 by (intros H; apply H, Hreg).
  rewrite set_self_uid_bind. cbv zeta. rewrite set_weights_file_bind.
  fold (step_scan env v). fold (step_answers env v).
  destruct (step_answers env v) as [t r]. simpl in Hd. subst r.
  rewrite lift_bind. reflexivity.
Qed.

Lemma validate_step_data_raise answers e :
  registered env v →
  (step_answers env v).2 = Ok answers →
  step_data env v answers = Raise e →
  validate_step squash env v
  = {| trace := (step_answers env v).1; final := step_validator env v;
       value := Raise e |}.
Proof.
  intros Hreg Hd Hdata. unfold validate_step. rewrite get_bind.
  rewrite bool_decide_eq_false_2 by (intros H; apply H, Hreg).
  rewrite set_self_uid_bind. cbv zeta. rewrite set_weights_file_bind.
  fold (step_scan env v). fold (step_answers env v).
  destruct (step_answers env v) as [t r]. simpl in Hd. subst r.
  rewrite lift_bind. unfold step_data in Hdata. cbv zeta in Hdata.
  rewrite Hdata, lift_bind. unfold prepend. simpl. rewrite app_nil_r.
  reflexivity.
Qed.

Lemma validate_step_no_finalize answers data :
  registered env v →
  (step_answers env v).2 = Ok answers →
  step_data env v answers = Ok data →
  remaining_miners (step_scan env v) ≠ [] →
  validate_step squash env v
  = {| trace := (step_answers env v).1;
       final := with_file (step_validator env v)
                          (data ∪ scan_file (step_scan env v));
       value := Ok () |}.
Proof.
  intros Hreg Hd Hdata Hrem. unfold validate_step. rewrite get_bind.
  rewrite bool_decide_eq_false_2 by (intros H; apply H, Hreg).
  rewrite set_self_uid_bind. cbv zeta. rewrite set_weights_file_bind.
  fold (step_scan env v). fold (step_answers env v).
  destruct (step_answers env v) as [t r]. simpl in Hd. subst r.
  rewrite lift_bind. unfold step_data in Hdata. cbv zeta in Hdata.
  rewrite Hdata, lift_bind, prepend_nil, get_bind, set_weights_file_bind.
  rewrite bool_decide_eq_false_2.
  2:{ intros Hl. apply Hrem. by apply nil_length_inv. }
  unfold prepend. simpl. rewrite app_nil_r. reflexivity.
Qed.

Lemma validate_step_finalize answers data :
  registered env v →
  (step_answers env v).2 = Ok answers →
  step_data env v answers = Ok data →
  remaining_miners (step_scan env v) = [] →
  validate_step squash env v
  = prepend ((step_answers env v).1 ++ [EvSettingWeights])
      (finish (set_weights squash env
                 (s_dict_of (data ∪ scan_file (step_scan env v)))
                 (with_file (step_validator env v)
                            (data ∪ scan_file (step_scan env v))))).
Proof.
  intros Hreg Hd Hdata Hrem.
  match goal with |- _ = prepend _ (finish ?r) => remember r as sw eqn:Esw end.
  unfold validate_step. rewrite get_bind.
  rewrite bool_decide_eq_false_2 by (intros H; apply H, Hreg).
  rewrite set_self_uid_bind. cbv zeta. rewrite set_weights_file_bind.
  fold (step_scan env v). fold (step_answers env v).
  destruct (step_answers env v) as [t r]. simpl in Hd. subst r.
  rewrite lift_bind. unfold step_data in Hdata. cbv zeta in Hdata.
  rewrite Hdata, lift_bind, prepend_nil, get_bind, set_weights_file_bind.
  rewrite bool_decide_eq_true_2 by (rewrite Hrem; reflexivity).
  rewrite get_bind, emit_bind, run_bind.
  unfold read_weight_file, write_weight_file, finish.
  rewrite weights_file_with_file. fold (step_validator env v).
  change (weights_file (step_validator env v))
    with (scan_file (step_scan env v)).
  rewrite <- Esw. clear Esw. destruct sw as [t' f' [[]|e]].
  - cbn [value final trace]. rewrite get_bind, set_weights_file_run.
    unfold prepend. simpl. rewrite app_nil_r, <- app_assoc. reflexivity.
  - unfold prepend. simpl. rewrite <- app_assoc. reflexivity.
Qed.

End Step.

(** ** Dispatch and persistence *)

Lemma prediction_events (env : Env) (prompt : Prompt) (m : Miner) :
  Forall (λ e, is_call e = true) (_get_miner_prediction env prompt m).1.
Proof.
  unfold _get_miner_prediction.
  destruct (split_ip_port (address m)) as [ip port].
  destruct (_ || _); [constructor|].
  destruct (int_ env port); simpl; repeat constructor.
Qed.

Lemma executor_map_events (env : Env) (prompt : Prompt) (batch : list Miner) :
  Forall (λ e, is_call e = true)
         (executor_map (_get_miner_prediction env prompt) batch).1.
Proof.
  unfold executor_map. simpl.
  induction batch as [|m batch IH]; [constructor|].
  rewrite !fmap_cons. simpl. apply Forall_app. split; [|exact IH].
  apply prediction_events.
Qed.

Lemma calls_not_setting_weights (t : list event) :
  Forall (λ e, is_call e = true) t → EvSettingWeights ∉ t.
Proof.
  intros Hall Hin. rewrite Forall_forall in Hall.
  apply Hall in Hin. discriminate.
Qed.

Lemma step_batch_NoDup (env : Env) (v : Validator) :
  NoDup (uid <$> get_miner_ip_port (modules env)) →
  NoDup (uid <$> miners_to_query (step_scan env v)).
Proof.
  intros Hnd. eapply sublist_NoDup; [exact Hnd|].
  apply fmap_sublist. unfold step_scan. rewrite batch_is_take.
  etrans; [apply sublist_take|]. apply sublist_filter.
Qed.

(** What [build_data_to_write] leaves for the ids of the batch and for the
    others. *)
Lemma build_data_to_write_lookup (score_dict : gmap Z Q) (batch : list Miner) :
  ∀ data0 data,
  NoDup (uid <$> batch) →
  build_data_to_write score_dict batch data0 = Ok data →
  (∀ m, m ∈ batch →
     ∃ s, score_dict !! uid m = Some s
          ∧ data !! uid m = Some {| ss58 := key m; score := s |})
  ∧ (∀ u, u ∉ uid <$> batch → data !! u = data0 !! u).
Proof.
  induction batch as [|item batch IH]; intros data0 data Hnd Hb.
  - simpl in Hb. injection Hb as <-. split; [|done].
    intros m Hm. by apply not_elem_of_nil in Hm.
  - simpl in Hb. rewrite fmap_cons in Hnd. apply NoDup_cons in Hnd as [Hni Hnd].
    destruct (score_dict !! uid item) as [s|] eqn:Hs; [|discriminate].
    destruct (IH _ _ Hnd Hb) as [Hin Hout]. split.
    + intros m [->|Hm]%elem_of_cons.
      * exists s. split; [done|]. rewrite Hout by done. apply lookup_insert_eq.
      * by apply Hin.
    + intros u Hu. rewrite fmap_cons in Hu. apply not_elem_of_cons in Hu as [Hne Hu].
      rewrite Hout by done. by apply lookup_insert_ne.
Qed.

Lemma step_empty_batch (env : Env) (v : Validator) :
  miners_to_query (step_scan env v) = [] →
  step_answers env v = ([], Ok []) ∧ step_data env v [] = Ok ∅.
Proof.
  intros Hb. unfold step_answers, step_data. rewrite Hb. done.
Qed.

(** No candidate: nothing to query, nothing left. *)
Lemma all_covered_scan (file : gmap Z ScoreRecord) (miners : list Miner) :
  Forall (λ m, covered file m = true) miners →
  miners_to_query (get_miners_to_query file miners) = []
  ∧ remaining_miners (get_miners_to_query file miners) = []
  ∧ scan_file (get_miners_to_query file miners) = file.
Proof.
  intros Hall. rewrite Forall_forall in Hall.
  assert (candidates file miners = []) as Hc.
  { apply filter_none. intros m Hm. rewrite (Hall m Hm). done. }
  split; [|split].
  - rewrite batch_is_take, Hc. done.
  - unfold get_miners_to_query, read_weight_file.
    rewrite scan_remaining_complete;
      [|apply scan_inv_init|rewrite Hc; simpl; lia].
    simpl. apply filter_none. intros m Hm Hn. apply Hn.
    unfold covered_uids. apply list_elem_of_fmap. exists m. split; [done|].
    apply list_elem_of_filter. split; [by apply Hall|done].
  - apply map_eq. intros u. unfold get_miners_to_query, read_weight_file.
    match goal with |- scan_file (scan_miners _ _ ?st) !! _ = _ =>
      set (st0 := st) end.
    destruct (scan_file (scan_miners file miners st0) !! u) as [r|] eqn:E.
    + apply scan_file_lookup_Some in E. done.
    + destruct (file !! u) as [r|] eqn:Hu; [|done]. exfalso.
      destruct (scan_file_lookup_None file miners st0 u r Hu E)
        as (m & Hm & Hst & _).
      rewrite covered_stale_excl in Hst by (by apply Hall). discriminate.
Qed.

Lemma set_weights_trace (squash : Q → Q) (env : Env)
    (s_dict : list (dict_key * Q)) (v : Validator) :
  Forall (λ e, is_setting_weights e = false)
         (trace (set_weights squash env s_dict v)).
Proof.
  destruct (weighted_scores_of squash s_dict (IntKey <$> self_uid v))
    as [ws|e] eqn:Hw.
  - destruct (vote_first env) eqn:Hv.
    + rewrite (set_weights_first_try _ _ _ _ ws) by done.
      simpl. repeat constructor.
    + rewrite (set_weights_retry _ _ _ _ ws) by done.
      simpl. repeat constructor.
  - rewrite (set_weights_raise _ _ _ _ e) by done. constructor.
Qed.

Lemma finish_trace (r : Run unit) : trace (finish r) = trace r.
Proof. unfold finish. destruct (value r); reflexivity. Qed.

Lemma calls_filter_setting_weights (t : list event) :
  Forall (λ e, is_call e = true) t →
  filter (λ e, is_setting_weights e = true) t = [].
Proof.
  intros Hall. apply filter_none. intros e He.
  rewrite Forall_forall in Hall. apply Hall in He.
  destruct e; simpl in *; congruence.
Qed.

(** ** The cycle *)

(** C1, as stated, fails: starting from an empty file with one eligible
    worker, the step queries and scores that worker, every eligible worker has
    a current record once the step has persisted, and yet the step neither
    announces the weights, nor votes, nor empties the file; the step after
    it, which queries nobody, does. *)
Lemma last_scoring_step_does_not_finalize :
  let env := sample_env [worker 1 "k1"] true true in
  let v := sample_validator ∅ in
  let r := validate_step rational_sigmoid env v in
  miners_to_query (step_scan env v) = [worker 1 "k1"]
  ∧ value r = Ok ()
  ∧ Forall (λ m, covered (weights_file (final r)) m = true)
           (get_miner_ip_port (modules env))
  ∧ trace r = [EvCall (Some "10.0.0.1"%string) 8080 "k1"]
  ∧ weights_file (final r) !! 1 = Some (record "k1" 1)
  ∧ trace (validate_step rational_sigmoid env (final r))
    = [EvSettingWeights; EvVote 1 [StrKey "1"] [1%Q]].
Proof.
  cbn zeta. split; [reflexivity|]. split; [vm_compute; reflexivity|].
  split; [|split; [|split]; vm_compute; reflexivity].
  apply (bool_decide_unpack _). vm_compute. reflexivity.
Qed.

(** C9.  [set_weights] on an empty score dictionary raises [ValueError]
    from [min] of an empty sequence, whatever the curve and the validator's
    id; and the branch is reached by a step: with the validator registered, no
    eligible worker in the directory and an empty file, the step announces the
    weights and [ValueError] leaves it, before any vote. *)
Theorem empty_scores_raise_value_error (squash : Q → Q) :
  (∀ (K : Type) `{EqDecision K} (self : option K),
     weighted_scores_of squash [] self = Raise ValueError)
  ∧ (∀ env v,
       registered env v →
       get_miner_ip_port (modules env) = [] →
       weights_file v = ∅ →
       let r := validate_step squash env v in
       value r = Raise ValueError
       ∧ trace r = [EvSettingWeights]
       ∧ weights_file (final r) = ∅).
Proof.
  split; [reflexivity|].
  intros env v Hreg Hm Hf r.
  assert (Forall (λ m, covered (weights_file v) m = true)
                 (get_miner_ip_port (modules env))) as Hall
    by (rewrite Hm; constructor).
  destruct (all_covered_scan _ _ Hall) as (Hb & Hr & Hs).
  fold (step_scan env v) in Hb, Hr, Hs.
  destruct (step_empty_batch env v Hb) as [Ha Hd].
  unfold r. rewrite (validate_step_finalize _ _ _ [] ∅); try done.
  2:{ rewrite Ha. reflexivity. }
  rewrite Ha, Hs, Hf, (left_id_L ∅ (∪)).
  assert (s_dict_of ∅ = []) as ->
    by (unfold s_dict_of; rewrite map_to_list_empty; done).
  rewrite (set_weights_raise _ _ _ _ ValueError) by reflexivity.
  unfold finish. simpl. done.
Qed.

Lemma empty_scores_raise_value_error_witness :
  let env := sample_env [] true true in
  let v := sample_validator ∅ in
  let r := validate_step rational_sigmoid env v in
  value r = Raise ValueError
  ∧ trace r = [EvSettingWeights]
  ∧ weights_file (final r) = ∅.
Proof.
  apply (proj2 (empty_scores_raise_value_error rational_sigmoid)
           (sample_env [] true true) (sample_validator ∅)).
  - unfold registered. apply (bool_decide_unpack _). vm_compute. reflexivity.
  - reflexivity.
  - reflexivity.
Defined.

(** A covered worker of the snapshot keeps its record through a step that
    does not finalise, and is not queried by it. *)
Lemma record_kept_until_finalization
    (squash : Q → Q) (env : Env) (v : Validator) (m : Miner) (s : Q) :
  registered env v →
  NoDup (uid <$> get_miner_ip_port (modules env)) →
  m ∈ get_miner_ip_port (modules env) →
  weights_file v !! uid m = Some {| ss58 := key m; score := s |} →
  value (validate_step squash env v) = Ok () →
  EvSettingWeights ∉ trace (validate_step squash env v) →
  (m ∉ miners_to_query (step_scan env v))
  ∧ weights_file (final (validate_step squash env v)) !! uid m
    = Some {| ss58 := key m; score := s |}.
Proof.
  intros Hreg Hnd Hm Hrec Hval Hnf.
  assert (covered (weights_file v) m = true) as Hcov.
  { unfold covered. rewrite Hrec. simpl. by apply bool_decide_eq_true. }
  pose proof (covered_not_queried (weights_file v)
                (get_miner_ip_port (modules env)) m Hcov) as Hnb.
  fold (step_scan env v) in Hnb. split; [exact Hnb|].
  destruct (step_answers env v).2 as [answers|e] eqn:Ha.
  2:{ rewrite (validate_step_dispatch_raise _ _ _ e) in Hval by done.
      discriminate. }
  destruct (step_data env v answers) as [data|e] eqn:Hd.
  2:{ rewrite (validate_step_data_raise _ _ _ answers e) in Hval by done.
      discriminate. }
  destruct (decide (remaining_miners (step_scan env v) = [])) as [Hrem|Hrem].
  { exfalso. apply Hnf.
    rewrite (validate_step_finalize _ _ _ answers data) by done.
    unfold prepend. cbn [trace]. apply elem_of_app. left.
    apply elem_of_app. right. left. }
  rewrite (validate_step_no_finalize _ _ _ answers data) by done.
  cbn [final]. rewrite weights_file_with_file.
  destruct (build_data_to_write_lookup _ _ _ _ (step_batch_NoDup env v Hnd) Hd)
    as [_ Hout].
  rewrite lookup_union_r.
  2:{ rewrite Hout; [done|]. intros (m' & Hu & Hm')%list_elem_of_fmap.
      assert (m' ∈ get_miner_ip_port (modules env)) as Hm'in.
      { unfold step_scan in Hm'. rewrite batch_is_take in Hm'.
        apply subseteq_take, list_elem_of_filter in Hm'. tauto. }
      assert (m = m') as -> by (eapply NoDup_uid_inj; done). done. }
  destruct (scan_file (step_scan env v) !! uid m) as [r0|] eqn:E.
  - unfold step_scan, get_miners_to_query, read_weight_file in E.
    apply scan_file_lookup_Some in E. simpl in E. congruence.
  - exfalso. unfold step_scan, get_miners_to_query, read_weight_file in E.
    eapply scan_file_lookup_None in E as (m' & Hm' & Hst & Hu); [|exact Hrec].
    assert (m' = m) as -> by (eapply NoDup_uid_inj; done).
    rewrite covered_stale_excl in Hst by done. discriminate.
Qed.

(** C10.  When a step of a registered validator over a snapshot with distinct
    ids ends normally, every worker of its batch, whatever it answered, is on
    file under its current key, so it is covered and no later partition over
    that file queries it; and as long as it stays in the snapshot its record
    survives every later step that does not finalise. *)
Theorem batch_members_recorded
    (squash : Q → Q) (env : Env) (v : Validator) (m : Miner) :
  registered env v →
  NoDup (uid <$> get_miner_ip_port (modules env)) →
  value (validate_step squash env v) = Ok () →
  m ∈ miners_to_query (step_scan env v) →
  let v' := final (validate_step squash env v) in
  ∃ s,
    weights_file v' !! uid m = Some {| ss58 := key m; score := s |}
    ∧ covered (weights_file v') m = true
    ∧ (∀ miners',
         m ∉ miners_to_query (get_miners_to_query (weights_file v') miners'))
    ∧ (∀ env' v'',
         weights_file v'' !! uid m = Some {| ss58 := key m; score := s |} →
         registered env' v'' →
         NoDup (uid <$> get_miner_ip_port (modules env')) →
         m ∈ get_miner_ip_port (modules env') →
         value (validate_step squash env' v'') = Ok () →
         EvSettingWeights ∉ trace (validate_step squash env' v'') →
         (m ∉ miners_to_query (step_scan env' v''))
         ∧ weights_file (final (validate_step squash env' v'')) !! uid m
           = Some {| ss58 := key m; score := s |}).
Proof.
  intros Hreg Hnd Hval Hm v'.
  destruct (step_answers env v).2 as [answers|e] eqn:Ha.
  2:{ rewrite (validate_step_dispatch_raise _ _ _ e) in Hval by done.
      discriminate. }
  destruct (step_data env v answers) as [data|e] eqn:Hd.
  2:{ rewrite (validate_step_data_raise _ _ _ answers e) in Hval by done.
      discriminate. }
  assert (m ∈ remaining_miners (step_scan env v)) as Hrem.
  { apply candidate_remains; [done|]. unfold step_scan in Hm.
    rewrite batch_is_take in Hm. by apply subseteq_take in Hm. }
  assert (remaining_miners (step_scan env v) ≠ []) as Hne.
  { intros E. rewrite E in Hrem. by apply not_elem_of_nil in Hrem. }
  destruct (build_data_to_write_lookup _ _ _ _ (step_batch_NoDup env v Hnd) Hd)
    as [Hin _].
  destruct (Hin m Hm) as (s & _ & Hs).
  assert (weights_file v' !! uid m = Some {| ss58 := key m; score := s |})
    as Hrec.
  { unfold v'. rewrite (validate_step_no_finalize _ _ _ answers data) by done.
    cbn [final]. rewrite weights_file_with_file.
    by apply lookup_union_Some_l. }
  assert (covered (weights_file v') m = true) as Hcov.
  { unfold covered. rewrite Hrec. simpl. by apply bool_decide_eq_true. }
  exists s. split; [exact Hrec|]. split; [exact Hcov|]. split.
  - intros miners'. by apply covered_not_queried.
  - intros env' v'' Hrec' Hreg' Hnd' Hm' Hval' Hnf'.
    by apply record_kept_until_finalization.
Qed.

Lemma batch_members_recorded_witness :
  let env := sample_env two_workers true true in
  let v := sample_validator ∅ in
  let m := worker 2 "k2" in
  let v' := final (validate_step rational_sigmoid env v) in
  call env (Some "10.0.0.1"%string) 8080 "k2" (miner_prompt env) = None
  ∧ ∃ s,
    weights_file v' !! uid m = Some {| ss58 := key m; score := s |}
    ∧ covered (weights_file v') m = true
    ∧ (∀ miners',
         m ∉ miners_to_query (get_miners_to_query (weights_file v') miners'))
    ∧ (∀ env' v'',
         weights_file v'' !! uid m = Some {| ss58 := key m; score := s |} →
         registered env' v'' →
         NoDup (uid <$> get_miner_ip_port (modules env')) →
         m ∈ get_miner_ip_port (modules env') →
         value (validate_step rational_sigmoid env' v'') = Ok () →
         EvSettingWeights ∉ trace (validate_step rational_sigmoid env' v'') →
         (m ∉ miners_to_query (step_scan env' v''))
         ∧ weights_file (final (validate_step rational_sigmoid env' v'')) !! uid m
           = Some {| ss58 := key m; score := s |}).
Proof.
  cbn zeta. split; [reflexivity|].
  apply (batch_members_recorded rational_sigmoid
           (sample_env two_workers true true) (sample_validator ∅)
           (worker 2 "k2")).
  - unfold registered. apply (bool_decide_unpack _). vm_compute. reflexivity.
  - apply (bool_decide_unpack _). vm_compute. reflexivity.
  - vm_compute. reflexivity.
  - apply (bool_decide_unpack _). vm_compute. reflexivity.
Defined.

(** ** Submission *)

Lemma run_eta {A : Type} (r : Run A) :
  {| trace := trace r; final := final r; value := value r |} = r.
Proof. destruct r; reflexivity. Qed.

(** An exception leaving a step leaves the loop: no later tick runs. *)
Lemma validation_loop_raise (squash : Q → Q) (interval : Z) (env : Env)
    (later : list Env) (v : Validator) (e : exn) :
  value (validate_step squash env v) = Raise e →
  validation_loop squash interval (env :: later) v = validate_step squash env v.
Proof.
  intros Hv. simpl. rewrite run_bind, Hv. rewrite <- Hv. apply run_eta.
Qed.

(** C4 (as amended).  In a step that finalises, when the first vote fails
    the validator sleeps a time between 1 and 2, builds a client on the
    freshly resolved endpoint and votes exactly once more there, with the same
    ids and weights.  When that vote succeeds the file is emptied.  When it
    fails too, the exception leaves the step with the file untouched, and it
    leaves the loop as well: no later tick is run. *)
Theorem failed_vote_retried_once_then_raised
    (squash : Q → Q) (env : Env) (v : Validator)
    (ws : list (dict_key * Q)) :
  registered env v →
  Forall (λ m, covered (weights_file v) m = true)
         (get_miner_ip_port (modules env)) →
  weighted_scores_of squash (s_dict_of (weights_file v))
    (IntKey <$> find_uid (modules_keys env) (val_ss58 v) (self_uid v))
  = Ok ws →
  vote_first env = false →
  (0 <= random env)%Q →
  (random env <= 1)%Q →
  let r := validate_step squash env v in
  ∃ t,
    trace r = [EvSettingWeights;
               EvVote (client v) ws.*1 ws.*2;
               EvSleep t;
               EvNewClient (node_url env);
               EvVote (node_url env) ws.*1 ws.*2]
    ∧ (1 <= t)%Q ∧ (t <= 2)%Q
    ∧ client (final r) = node_url env
    ∧ (vote_retry env = true →
       value r = Ok () ∧ weights_file (final r) = ∅)
    ∧ (vote_retry env = false →
       value r = Raise VoteError
       ∧ weights_file (final r) = weights_file v
       ∧ ∀ interval later,
           validation_loop squash interval (env :: later) v = r).
Proof.
  intros Hreg Hall Hws Hfirst Hlo Hhi r.
  destruct (all_covered_scan _ _ Hall) as (Hb & Hr & Hs).
  fold (step_scan env v) in Hb, Hr, Hs.
  destruct (step_empty_batch env v Hb) as [Ha Hd].
  assert (r = prepend [EvSettingWeights]
                (finish (set_weights squash env (s_dict_of (weights_file v))
                           (with_file (step_validator env v) (weights_file v)))))
    as Hrun.
  { unfold r. rewrite (validate_step_finalize _ _ _ [] ∅); try done.
    - rewrite Ha, Hs, (left_id_L ∅ (∪)). reflexivity.
    - rewrite Ha. reflexivity. }
  rewrite (set_weights_retry _ _ _ _ ws) in Hrun by done.
  exists (uniform 1 2 (random env)).
  assert (1 <= uniform 1 2 (random env))%Q as H1 by (unfold uniform; lra).
  assert (uniform 1 2 (random env) <= 2)%Q as H2 by (unfold uniform; lra).
  unfold finish in Hrun. cbn [value final trace] in Hrun.
  destruct (vote_retry env) eqn:Hretry.
  - rewrite Hrun. unfold prepend. cbn [value final trace].
    split; [reflexivity|]. split; [exact H1|]. split; [exact H2|].
    split; [reflexivity|]. split; [done|]. discriminate.
  - rewrite Hrun. unfold prepend. cbn [value final trace].
    split; [reflexivity|]. split; [exact H1|]. split; [exact H2|].
    split; [reflexivity|]. split; [discriminate|]. intros _.
    split; [reflexivity|]. split; [reflexivity|].
    intros interval later. rewrite (validation_loop_raise _ _ _ _ _ VoteError).
    + fold r. rewrite Hrun. reflexivity.
    + fold r. rewrite Hrun. reflexivity.
Qed.

Lemma failed_vote_retried_once_then_raised_witness :
  let env := sample_env two_workers false false in
  let v := sample_validator file_both in
  let r := validate_step rational_sigmoid env v in
  ∃ t,
    trace r = [EvSettingWeights;
               EvVote (client v) sample_weights.*1 sample_weights.*2;
               EvSleep t;
               EvNewClient (node_url env);
               EvVote (node_url env) sample_weights.*1 sample_weights.*2]
    ∧ (1 <= t)%Q ∧ (t <= 2)%Q
    ∧ client (final r) = node_url env
    ∧ (vote_retry env = true →
       value r = Ok () ∧ weights_file (final r) = ∅)
    ∧ (vote_retry env = false →
       value r = Raise VoteError
       ∧ weights_file (final r) = weights_file v
       ∧ ∀ interval later,
           validation_loop rational_sigmoid interval (env :: later) v = r).
Proof.
  apply (failed_vote_retried_once_then_raised rational_sigmoid
           (sample_env two_workers false false) (sample_validator file_both)
           sample_weights).
  - unfold registered. apply (bool_decide_unpack _). vm_compute. reflexivity.
  - apply (bool_decide_unpack _). vm_compute. reflexivity.
  - vm_compute. reflexivity.
  - reflexivity.
  - simpl. lra.
  - simpl. lra.
Defined.

(** C4, as stated, fails: when both votes of a finalising step fail, the
    exception ends the loop; the tick that follows, in which the votes would
    succeed, is never run. *)
Lemma second_vote_failure_ends_the_loop :
  let failing := sample_env two_workers false false in
  let healthy := sample_env two_workers true true in
  let v := sample_validator file_both in
  let r := validation_loop rational_sigmoid 60 [failing; healthy] v in
  value r = Raise VoteError
  ∧ trace r = trace (validate_step rational_sigmoid failing v)
  ∧ length (filter (λ e, is_vote e = true) (trace r)) = 2%nat.
Proof.
  cbn zeta.
  rewrite (validation_loop_raise _ _ _ _ _ VoteError) by (vm_compute; reflexivity).
  split; [vm_compute; reflexivity|]. split; [reflexivity|].
  vm_compute. reflexivity.
Qed.

(** ** Dispatch *)

(** With addresses that split into two parts and ports that parse, the
    dispatch returns one answer per batch member, a failed call being the
    answer [None] of that member. *)
Lemma dispatch_positional (env : Env) (prompt : Prompt) (batch : list Miner) :
  (∀ m, m ∈ batch →
     ∃ ip port n, split_ip_port (address m) = (Some ip, Some port)
                  ∧ py_int env port = Some n) →
  ∃ answers,
    (executor_map (_get_miner_prediction env prompt) batch).2 = Ok answers
    ∧ length answers = length batch.
Proof.
  unfold executor_map. cbn [snd].
  induction batch as [|m batch IH]; intros Hok.
  - exists []. done.
  - destruct IH as (answers & Ha & Hl).
    { intros m' Hm'. apply Hok. by right. }
    destruct (Hok m) as (ip & port & n & Hs & Hn); [left|].
    assert (∃ a, (_get_miner_prediction env prompt m).2 = Ok a) as [a Hm].
    { unfold _get_miner_prediction. rewrite Hs.
      destruct (_ || _); [simpl; eauto|].
      unfold int_. rewrite Hn. simpl. eauto. }
    exists (a :: answers). rewrite !fmap_cons. cbn [collect].
    rewrite Hm, Ha. cbn. split; [done|]. by rewrite Hl.
Qed.

(** C3 fails on the code.  For a worker whose address is missing or does not
    split into two parts, [_get_miner_prediction] makes no call and raises
    [TypeError] from [int(None)] instead of returning an empty answer; the
    dispatch of any batch that holds the worker raises, so no answer of any
    other worker is returned; and the exception leaves the step before
    anything is written for the batch. *)
Theorem missing_address_aborts_dispatch
    (squash : Q → Q) (env : Env) (m : Miner) :
  split_ip_port (address m) = (None, None) →
  (∀ prompt, _get_miner_prediction env prompt m = ([], Raise TypeError))
  ∧ (∀ prompt pre post,
       ∃ e, (executor_map (_get_miner_prediction env prompt)
                          (pre ++ m :: post)).2 = Raise e)
  ∧ (∀ v, registered env v →
          m ∈ miners_to_query (step_scan env v) →
          ∃ e, value (validate_step squash env v) = Raise e
               ∧ weights_file (final (validate_step squash env v))
                 = scan_file (step_scan env v)).
Proof.
  intros Hsplit.
  assert (∀ prompt, _get_miner_prediction env prompt m = ([], Raise TypeError))
    as Hone.
  { intros prompt. unfold _get_miner_prediction. rewrite Hsplit. reflexivity. }
  assert (∀ prompt pre post,
            ∃ e, (executor_map (_get_miner_prediction env prompt)
                               (pre ++ m :: post)).2 = Raise e) as Hall.
  { intros prompt pre post. unfold executor_map. cbn [snd].
    induction pre as [|a pre IH].
    - rewrite app_nil_l, !fmap_cons, Hone. cbn. eauto.
    - rewrite <- app_comm_cons, !fmap_cons. cbn [collect].
      destruct (_get_miner_prediction env prompt a).2 as [x|e'].
      + destruct IH as [e IH]. rewrite IH. cbn. eauto.
      + eauto. }
  split; [exact Hone|]. split; [exact Hall|].
  intros v Hreg Hm.
  apply list_elem_of_split in Hm as (pre & post & Hb).
  destruct (Hall (miner_prompt env) pre post) as [e He].
  exists e. rewrite <- Hb in He. fold (step_answers env v) in He.
  rewrite (validate_step_dispatch_raise _ _ _ e) by done.
  split; reflexivity.
Qed.

Lemma missing_address_aborts_dispatch_witness :
  let env := sample_env [worker 1 "k1"; worker_without_address 2 "k2"] true true in
  let m := worker_without_address 2 "k2" in
  (∀ prompt, _get_miner_prediction env prompt m = ([], Raise TypeError))
  ∧ (∀ prompt pre post,
       ∃ e, (executor_map (_get_miner_prediction env prompt)
                          (pre ++ m :: post)).2 = Raise e)
  ∧ (∀ v, registered env v →
          m ∈ miners_to_query (step_scan env v) →
          ∃ e, value (validate_step rational_sigmoid env v) = Raise e
               ∧ weights_file (final (validate_step rational_sigmoid env v))
                 = scan_file (step_scan env v)).
Proof.
  apply (missing_address_aborts_dispatch rational_sigmoid
           (sample_env [worker 1 "k1"; worker_without_address 2 "k2"] true true)
           (worker_without_address 2 "k2")).
  reflexivity.
Defined.

(** The failing input of C3, evaluated: one reachable worker and one without
    address, from an empty file.  The reachable worker is called, the step
    raises [TypeError], and nothing is on file afterwards. *)
Lemma missing_address_step_evaluated :
  let env := sample_env [worker 1 "k1"; worker_without_address 2 "k2"] true true in
  let r := validate_step rational_sigmoid env (sample_validator ∅) in
  value r = Raise TypeError
  ∧ trace r = [EvCall (Some "10.0.0.1"%string) 8080 "k1"]
  ∧ weights_file (final r) = ∅.
Proof.
  cbn zeta. split; [vm_compute; reflexivity|].
  split; vm_compute; reflexivity.
Qed.

(** ** Weights *)

Section Extremes.

Local Open Scope Q_scope.

Lemma foldl_Qmin_le (xs : list Q) : ∀ x,
  foldl Qmin x xs <= x ∧ ∀ y, y ∈ xs → foldl Qmin x xs <= y.
Proof.
  induction xs as [|a xs IH]; intros x.
  - simpl. split; [apply Qle_refl|]. intros y Hy. by apply not_elem_of_nil in Hy.
  - simpl. destruct (IH (Qmin x a)) as [H1 H2]. split.
    + eapply Qle_trans; [exact H1|]. apply Q.le_min_l.
    + intros y [->|Hy]%elem_of_cons.
      * eapply Qle_trans; [exact H1|]. apply Q.le_min_r.
      * by apply H2.
Qed.

Lemma foldl_Qmax_ge (xs : list Q) : ∀ x,
  x <= foldl Qmax x xs ∧ ∀ y, y ∈ xs → y <= foldl Qmax x xs.
Proof.
  induction xs as [|a xs IH]; intros x.
  - simpl. split; [apply Qle_refl|]. intros y Hy. by apply not_elem_of_nil in Hy.
  - simpl. destruct (IH (Qmax x a)) as [H1 H2]. split.
    + eapply Qle_trans; [|exact H1]. apply Q.le_max_l.
    + intros y [->|Hy]%elem_of_cons.
      * eapply Qle_trans; [|exact H1]. apply Q.le_max_r.
      * by apply H2.
Qed.

Lemma foldl_Qmin_glb (c : Q) (xs : list Q) : ∀ x,
  c <= x → (∀ y, y ∈ xs → c <= y) → c <= foldl Qmin x xs.
Proof.
  induction xs as [|a xs IH]; intros x Hx Hxs; [done|].
  simpl. apply IH.
  - apply Q.min_glb; [done|]. apply Hxs. left.
  - intros y Hy. apply Hxs. by right.
Qed.

Lemma foldl_Qmax_lub (c : Q) (xs : list Q) : ∀ x,
  x <= c → (∀ y, y ∈ xs → y <= c) → foldl Qmax x xs <= c.
Proof.
  induction xs as [|a xs IH]; intros x Hx Hxs; [done|].
  simpl. apply IH.
  - apply Q.max_lub; [done|]. apply Hxs. left.
  - intros y Hy. apply Hxs. by right.
Qed.

Lemma foldl_Qmin_in (xs : list Q) : ∀ x, foldl Qmin x xs ∈ x :: xs.
Proof.
  induction xs as [|a xs IH]; intros x; [left|].
  simpl. specialize (IH (Qmin x a)).
  apply elem_of_cons in IH as [->|IH].
  - unfold Qmin, GenericMinMax.gmin. destruct (x ?= a); [left|left|right; left].
  - do 2 right. done.
Qed.

Lemma list_min_le (l : list Q) (y : Q) : y ∈ l → list_min l <= y.
Proof.
  destruct l as [|x xs]; [intros H; by apply not_elem_of_nil in H|].
  simpl. destruct (foldl_Qmin_le xs x) as [H1 H2].
  intros [->|Hy]%elem_of_cons; [done|by apply H2].
Qed.

Lemma list_max_ge (l : list Q) (y : Q) : y ∈ l → y <= list_max l.
Proof.
  destruct l as [|x xs]; [intros H; by apply not_elem_of_nil in H|].
  simpl. destruct (foldl_Qmax_ge xs x) as [H1 H2].
  intros [->|Hy]%elem_of_cons; [done|by apply H2].
Qed.

Lemma list_min_in (l : list Q) : l ≠ [] → list_min l ∈ l.
Proof. destruct l as [|x xs]; [done|]. intros _. apply foldl_Qmin_in. Qed.

Lemma list_min_glb (c : Q) (l : list Q) :
  l ≠ [] → (∀ y, y ∈ l → c <= y) → c <= list_min l.
Proof.
  destruct l as [|x xs]; [done|]. intros _ H. simpl.
  apply foldl_Qmin_glb; [apply H; left|]. intros y Hy. apply H. by right.
Qed.

Lemma list_max_lub (c : Q) (l : list Q) :
  l ≠ [] → (∀ y, y ∈ l → y <= c) → list_max l <= c.
Proof.
  destruct l as [|x xs]; [done|]. intros _ H. simpl.
  apply foldl_Qmax_lub; [apply H; left|]. intros y Hy. apply H. by right.
Qed.

Lemma list_min_le_max (l : list Q) : l ≠ [] → list_min l <= list_max l.
Proof.
  destruct l as [|x xs]; [done|]. intros _.
  eapply Qle_trans; [apply (list_min_le _ x); left|apply list_max_ge; left].
Qed.

(** Distinct extremes: the normalisation is the affine map onto [0,1]. *)
Lemma norm_fn_spread (l : list Q) (x : Q) :
  list_min l < list_max l →
  norm_fn l x = (x - list_min l) / (list_max l - list_min l).
Proof.
  intros Hlt. unfold norm_fn.
  destruct (Qeq_bool (list_min l) (list_max l)) eqn:E; [|done].
  apply Qeq_bool_iff in E. lra.
Qed.

(** Equal extremes: everything goes to 1. *)
Lemma norm_fn_flat (l : list Q) (x : Q) :
  list_min l == list_max l → norm_fn l x = 1.
Proof.
  intros Heq. unfold norm_fn.
  destruct (Qeq_bool (list_min l) (list_max l)) eqn:E; [done|].
  apply Qeq_bool_neq in E. done.
Qed.

Lemma norm_fn_cases (l : list Q) :
  l ≠ [] →
  (list_min l < list_max l) ∨ (list_min l == list_max l).
Proof.
  intros Hl. pose proof (list_min_le_max l Hl).
  destruct (Qlt_le_dec (list_min l) (list_max l)); [by left|right; lra].
Qed.

Lemma norm_fn_strict (l : list Q) (x y : Q) :
  list_min l < list_max l → x < y → norm_fn l x < norm_fn l y.
Proof.
  intros Hlt Hxy. rewrite !norm_fn_spread by done.
  unfold Qdiv. apply Qmult_lt_compat_r; [|lra].
  apply Qinv_lt_0_compat. lra.
Qed.

Lemma norm_fn_nonneg (l : list Q) (x : Q) : x ∈ l → 0 <= norm_fn l x.
Proof.
  intros Hx. assert (l ≠ []) as Hl by (intros ->; by apply not_elem_of_nil in Hx).
  destruct (norm_fn_cases l Hl) as [Hlt|Heq].
  - rewrite norm_fn_spread by done. pose proof (list_min_le l x Hx).
    apply Qle_shift_div_l; lra.
  - rewrite norm_fn_flat by done. lra.
Qed.

(** The least element goes to 0 when the extremes differ. *)
Lemma norm_fn_min (l : list Q) :
  list_min l < list_max l → norm_fn l (list_min l) == 0.
Proof.
  intros Hlt. rewrite norm_fn_spread by done. unfold Qdiv. ring.
Qed.

Lemma py_sum_pos (l : list Q) :
  l ≠ [] → (∀ x, x ∈ l → 0 < x) → 0 < py_sum l.
Proof.
  unfold py_sum.
  assert (∀ l a, 0 <= a → (∀ x, x ∈ l → 0 < x) → a <= foldl Qplus a l) as Hge.
  { clear l. induction l as [|b l IH]; intros a Ha Hl; [simpl; lra|].
    simpl. assert (0 < b) by (apply Hl; left).
    eapply Qle_trans; [|apply IH]; [lra|lra|].
    intros x Hx. apply Hl. by right. }
  destruct l as [|b l]; [done|]. intros _ Hl. simpl.
  assert (0 < b) by (apply Hl; left).
  eapply Qlt_le_trans; [|apply Hge]; [lra|lra|].
  intros x Hx. apply Hl. by right.
Qed.

End Extremes.

(** *** [set_weights] as a map over the items *)

Lemma replicate_fmap_const {A B : Type} (b : B) (l : list A) :
  replicate (length l) b = (λ _, b) <$> l.
Proof. induction l as [|a l IH]; [done|]. simpl. by rewrite IH. Qed.

Lemma zip_fst_fmap_snd {A B C : Type} (f : B → C) (l : list (A * B)) :
  zip (l.*1) (f <$> l.*2) = (λ kv, (kv.1, f kv.2)) <$> l.
Proof.
  induction l as [|[a b] l IH]; [done|].
  rewrite !fmap_cons. cbn [zip_with fst snd]. by rewrite IH.
Qed.

Lemma normalize_scores_fmap (l : list Q) :
  l ≠ [] → normalize_scores l false = Ok (norm_fn l <$> l).
Proof.
  destruct l as [|x xs]; [done|]. intros _.
  unfold normalize_scores, py_min, py_max. cbn [mbind result_bind].
  change (foldl Qmin x xs) with (list_min (x :: xs)).
  change (foldl Qmax x xs) with (list_max (x :: xs)).
  destruct (Qeq_bool (list_min (x :: xs)) (list_max (x :: xs))) eqn:E.
  - rewrite replicate_fmap_const. f_equal. apply list_fmap_ext.
    intros i y _. unfold norm_fn. by rewrite E.
  - f_equal. apply list_fmap_ext. intros i y _. unfold norm_fn. by rewrite E.
Qed.

Lemma weighted_scores_of_spec {K : Type} `{EqDecision K}
    (squash : Q → Q) (s_dict : list (K * Q)) (self : option K) :
  s_dict ≠ [] →
  Qeq_bool (py_sum ((λ y, squash (norm_fn (s_dict.*2) y)) <$> s_dict.*2)) 0
  = false →
  weighted_scores_of squash s_dict self
  = Ok (drop_zero_and_self self
          ((λ kv, (kv.1, weight_curve squash s_dict kv.2)) <$> s_dict)).
Proof.
  intros Hne Htot.
  assert (s_dict.*2 ≠ []) as Hne2 by (destruct s_dict; done).
  unfold weighted_scores_of. cbv zeta.
  rewrite (normalize_scores_fmap _ Hne2). cbn [mbind result_bind].
  rewrite zip_fst_fmap_snd. unfold sigmoid_rewards.
  set (total := py_sum ((λ y, squash (norm_fn (s_dict.*2) y)) <$> s_dict.*2))
    in *.
  assert ((λ '(uid, score), (uid, squash score)) <$>
            ((λ kv : K * Q, (kv.1, norm_fn (s_dict.*2) kv.2)) <$> s_dict)
          = (λ kv, (kv.1, squash (norm_fn (s_dict.*2) kv.2))) <$> s_dict)
    as Hsig.
  { rewrite <- list_fmap_compose. apply list_fmap_ext. by intros i [a b] _. }
  rewrite Hsig. clear Hsig.
  assert (((λ kv : K * Q, (kv.1, squash (norm_fn (s_dict.*2) kv.2)))
             <$> s_dict).*2
          = (λ y, squash (norm_fn (s_dict.*2) y)) <$> s_dict.*2) as Hsig2.
  { rewrite <- !list_fmap_compose. apply list_fmap_ext. by intros i [a b] _. }
  rewrite Hsig2. clear Hsig2. fold total. rewrite Htot.
  destruct ((λ kv : K * Q, (kv.1, squash (norm_fn (s_dict.*2) kv.2)))
              <$> s_dict) as [|p ps] eqn:Es.
  { apply fmap_nil_inv in Es. done. }
  rewrite <- Es. clear p ps Es.
  cbn [mbind result_bind].
  assert ((λ '(uid, score), (uid, (score * 1000 / total)%Q)) <$>
            ((λ kv : K * Q, (kv.1, squash (norm_fn (s_dict.*2) kv.2)))
               <$> s_dict)
          = (λ kv, (kv.1, rescaled squash s_dict kv.2)) <$> s_dict) as Hresc.
  { rewrite <- list_fmap_compose. apply list_fmap_ext. by intros i [a b] _. }
  rewrite Hresc.
  assert (((λ kv : K * Q, (kv.1, rescaled squash s_dict kv.2)) <$> s_dict).*2
          = rescaled squash s_dict <$> s_dict.*2) as H2.
  { rewrite <- !list_fmap_compose. apply list_fmap_ext. by intros i [a b] _. }
  assert (((λ kv : K * Q, (kv.1, rescaled squash s_dict kv.2)) <$> s_dict).*1
          = s_dict.*1) as H1.
  { rewrite <- !list_fmap_compose. apply list_fmap_ext. by intros i [a b] _. }
  rewrite H2, H1.
  rewrite normalize_scores_fmap by (destruct s_dict; done).
  cbn [mbind result_bind].
  assert (zip (s_dict.*1)
              (norm_fn (rescaled squash s_dict <$> s_dict.*2)
                 <$> (rescaled squash s_dict <$> s_dict.*2))
          = (λ kv, (kv.1, weight_curve squash s_dict kv.2)) <$> s_dict) as Hw.
  { rewrite <- list_fmap_compose. apply zip_fst_fmap_snd. }
  rewrite Hw. unfold drop_zero_and_self.
  destruct self as [u|]; [|done]. by case_bool_decide.
Qed.

Lemma drop_zero_and_self_elem {K : Type} `{EqDecision K}
    (self : option K) (items : list (K * Q)) (k : K) (w : Q) :
  (k, w) ∈ drop_zero_and_self self items
  ↔ (k, w) ∈ items ∧ Qeq_bool w 0 = false ∧ self ≠ Some k.
Proof.
  unfold drop_zero_and_self. cbv zeta.
  set (nz := filter (λ kv : K * Q, Qeq_bool kv.2 0 = false) items).
  assert ((k, w) ∈ nz ↔ (k, w) ∈ items ∧ Qeq_bool w 0 = false) as Hnz.
  { unfold nz. rewrite list_elem_of_filter. simpl. tauto. }
  destruct self as [u|].
  - case_bool_decide as Hu.
    + rewrite list_elem_of_filter, Hnz. simpl. split.
      * intros (Hne & ? & ?). split; [done|]. split; [done|]. congruence.
      * intros (? & ? & Hne). split; [|done]. congruence.
    + rewrite Hnz. split; [|tauto]. intros [Hin Hz]. split; [done|].
      split; [done|]. intros [= ->]. apply Hu.
      apply list_elem_of_fmap. exists (k, w). split; [done|]. by apply Hnz.
  - rewrite Hnz. split; [|tauto]. intros [? ?]. done.
Qed.

Section Curve.

Local Open Scope Q_scope.

Context {K : Type}.
Variable squash : Q → Q.
Variable s_dict : list (K * Q).

Hypothesis squash_pos : ∀ x, 0 < squash x.
Hypothesis s_dict_nonempty : s_dict ≠ [].

Let raws : list Q := s_dict.*2.
Let total : Q := py_sum ((λ y, squash (norm_fn raws y)) <$> raws).

Lemma raws_nonempty : raws ≠ [].
Proof. unfold raws. destruct s_dict; done. Qed.

Lemma total_pos : 0 < total.
Proof.
  unfold total. apply py_sum_pos.
  - pose proof raws_nonempty. destruct raws; done.
  - intros x (y & -> & _)%list_elem_of_fmap. apply squash_pos.
Qed.

Lemma total_nonzero : Qeq_bool total 0 = false.
Proof.
  destruct (Qeq_bool total 0) eqn:E; [|done].
  apply Qeq_bool_iff in E. pose proof total_pos. lra.
Qed.

Lemma rescaled_unfold (x : Q) :
  rescaled squash s_dict x = squash (norm_fn raws x) * 1000 / total.
Proof. reflexivity. Qed.

Lemma rescaled_lt (x y : Q) :
  squash (norm_fn raws x) < squash (norm_fn raws y) →
  rescaled squash s_dict x < rescaled squash s_dict y.
Proof.
  intros Hlt. rewrite !rescaled_unfold. unfold Qdiv.
  apply Qmult_lt_compat_r; [|lra].
  apply Qinv_lt_0_compat, total_pos.
Qed.

(** Equal raw scores all round: one rescaled value, and the weight 1. *)
Lemma raws_flat :
  (∀ x y, x ∈ raws → y ∈ raws → x == y) → list_min raws == list_max raws.
Proof.
  intros Heq. pose proof raws_nonempty as Hne. apply Qle_antisym.
  - by apply list_min_le_max.
  - apply list_max_lub; [done|]. intros y Hy.
    rewrite (Heq y (list_min raws)); [apply Qle_refl|done|].
    by apply list_min_in.
Qed.

Lemma weight_curve_flat (x : Q) :
  (∀ x y, x ∈ raws → y ∈ raws → x == y) → weight_curve squash s_dict x = 1.
Proof.
  intros Heq. unfold weight_curve. fold raws. apply norm_fn_flat.
  pose proof raws_nonempty as Hne.
  set (r0 := squash 1 * 1000 / total).
  assert (∀ y, rescaled squash s_dict y = r0) as Hr.
  { intros y. rewrite rescaled_unfold, norm_fn_flat; [done|]. by apply raws_flat. }
  assert (rescaled squash s_dict <$> raws ≠ []) as Hne' by (destruct raws; done).
  assert (∀ y, y ∈ rescaled squash s_dict <$> raws → y = r0) as Hall.
  { intros y (z & -> & _)%list_elem_of_fmap. apply Hr. }
  apply Qle_antisym.
  - by apply list_min_le_max.
  - rewrite (Hall (list_min _) (list_min_in _ Hne')).
    apply list_max_lub; [done|]. intros y Hy. rewrite (Hall y Hy). apply Qle_refl.
Qed.

Lemma rescaled_in (x : Q) :
  x ∈ raws → rescaled squash s_dict x ∈ rescaled squash s_dict <$> raws.
Proof. intros Hx. apply list_elem_of_fmap. eauto. Qed.

Lemma weight_curve_nonneg (x : Q) :
  x ∈ raws → 0 <= weight_curve squash s_dict x.
Proof.
  intros Hx. unfold weight_curve. fold raws. by apply norm_fn_nonneg, rescaled_in.
Qed.

Hypothesis squash_strict : ∀ x y, x < y → squash x < squash y.

(** The curve is strictly increasing on the raw scores at hand. *)
Lemma weight_curve_strict (x y : Q) :
  x ∈ raws → y ∈ raws → x < y →
  weight_curve squash s_dict x < weight_curve squash s_dict y.
Proof.
  intros Hx Hy Hxy.
  assert (list_min raws < list_max raws) as Hspread.
  { pose proof (list_min_le raws x Hx). pose proof (list_max_ge raws y Hy). lra. }
  assert (rescaled squash s_dict x < rescaled squash s_dict y) as Hr.
  { apply rescaled_lt, squash_strict, norm_fn_strict; done. }
  unfold weight_curve. fold raws. apply norm_fn_strict; [|done].
  pose proof (list_min_le _ _ (rescaled_in x Hx)).
  pose proof (list_max_ge _ _ (rescaled_in y Hy)). lra.
Qed.

(** Above the least raw score the weight is positive. *)
Lemma weight_curve_pos (x : Q) :
  x ∈ raws → list_min raws < x → 0 < weight_curve squash s_dict x.
Proof.
  intros Hx Hlt.
  pose proof (list_min_in raws raws_nonempty) as Hmin.
  pose proof (weight_curve_nonneg _ Hmin).
  pose proof (weight_curve_strict _ _ Hmin Hx Hlt). lra.
Qed.

End Curve.

(** *** The sample curve *)

Section RationalSigmoid.

Local Open Scope Q_scope.

Lemma Qdiv_lt_cross (a b c d : Q) :
  0 < b → 0 < d → a * d < c * b → a / b < c / d.
Proof.
  intros Hb Hd Hlt. apply (Qmult_lt_r _ _ (b * d)); [nra|].
  assert (a / b * (b * d) == a * d) as -> by (field; lra).
  assert (c / d * (b * d) == c * b) as -> by (field; lra).
  exact Hlt.
Qed.

Lemma Qabs_bounds (x : Q) :
  0 <= Qabs x ∧ ((0 <= x ∧ Qabs x == x) ∨ (x <= 0 ∧ Qabs x == - x)).
Proof.
  split; [apply Qabs_nonneg|].
  destruct (Qlt_le_dec x 0) as [Hneg|Hpos].
  - right. split; [lra|]. apply Qabs_neg. lra.
  - left. split; [done|]. by apply Qabs_pos.
Qed.

Lemma rational_sigmoid_pos (x : Q) : 0 < rational_sigmoid x.
Proof.
  unfold rational_sigmoid.
  destruct (Qabs_bounds x) as [Hn Hc].
  assert (-(1) < x / (1 + Qabs x)) as Hlow.
  { apply Qlt_shift_div_l; [lra|]. destruct Hc as [[? ?]|[? ?]]; lra. }
  apply Qlt_shift_div_l; lra.
Qed.

Lemma rational_sigmoid_strict (x y : Q) :
  x < y → rational_sigmoid x < rational_sigmoid y.
Proof.
  intros Hxy. unfold rational_sigmoid.
  destruct (Qabs_bounds x) as [Hnx Hcx], (Qabs_bounds y) as [Hny Hcy].
  assert (x / (1 + Qabs x) < y / (1 + Qabs y)) as Hmid.
  { apply Qdiv_lt_cross; [lra|lra|].
    destruct Hcx as [[? Hx]|[? Hx]], Hcy as [[? Hy]|[? Hy]];
      rewrite Hx, Hy; nra. }
  unfold Qdiv at 1 3. apply Qmult_lt_compat_r; [reflexivity|lra].
Qed.

End RationalSigmoid.

(** *** The claims on the weights *)

(** A dictionary holds one value per key. *)
Lemma NoDup_keys_functional {K : Type} (l : list (K * Q)) (k : K) (x y : Q) :
  NoDup (l.*1) → (k, x) ∈ l → (k, y) ∈ l → x = y.
Proof.
  induction l as [|[k0 v0] l IH]; intros Hnd H1 H2.
  - by apply not_elem_of_nil in H1.
  - rewrite fmap_cons in Hnd. apply NoDup_cons in Hnd as [Hni Hnd].
    apply elem_of_cons in H1 as [H1|H1]; apply elem_of_cons in H2 as [H2|H2].
    + congruence.
    + exfalso. apply Hni. apply list_elem_of_fmap. exists (k, y).
      split; [|done]. simpl. congruence.
    + exfalso. apply Hni. apply list_elem_of_fmap. exists (k, x).
      split; [|done]. simpl. congruence.
    + by apply IH.
Qed.

(** ** The weights in binary64 *)

Section Binary64Arithmetic.

Import Binary64.

Lemma round_half_even_bounds (x : Q) :
  (inject_Z (round_half_even x) - (1 # 2) <= x)%Q
  ∧ (x <= inject_Z (round_half_even x) + (1 # 2))%Q.
Proof.
  unfold round_half_even.
  pose proof (Qfloor_le x) as Hlo. pose proof (Qlt_floor x) as Hhi.
  rewrite inject_Z_plus in Hhi. change (inject_Z 1) with 1%Q in Hhi.
  destruct (Qcompare_spec (x - inject_Z (Qfloor x)) (1 # 2)) as [E|E|E].
  - destruct (Z.even _).
    + split; lra.
    + rewrite inject_Z_plus. change (inject_Z 1) with 1%Q. split; lra.
  - split; lra.
  - rewrite inject_Z_plus. change (inject_Z 1) with 1%Q. split; lra.
Qed.

Lemma round_half_even_Z (n : Z) : round_half_even (inject_Z n) = n.
Proof.
  unfold round_half_even. rewrite Qfloor_Z.
  destruct (Qcompare_spec (inject_Z n - inject_Z n) (1 # 2)) as [E|E|E];
    [exfalso; lra|done|exfalso; lra].
Qed.

Lemma round_half_even_mono (x y : Q) :
  (x <= y)%Q → round_half_even x <= round_half_even y.
Proof.
  intros Hxy.
  pose proof (Qfloor_resp_le _ _ Hxy) as Hf.
  pose proof (Qfloor_le x) as Hxlo. pose proof (Qlt_floor x) as Hxhi.
  pose proof (Qfloor_le y) as Hylo. pose proof (Qlt_floor y) as Hyhi.
  rewrite inject_Z_plus in Hxhi, Hyhi.
  change (inject_Z 1) with 1%Q in Hxhi, Hyhi.
  unfold round_half_even.
  destruct (Z.eq_dec (Qfloor x) (Qfloor y)) as [Heq|Hne].
  - rewrite <- Heq in *.
    destruct (Qcompare_spec (x - inject_Z (Qfloor x)) (1 # 2)) as [Ex|Ex|Ex];
      destruct (Qcompare_spec (y - inject_Z (Qfloor x)) (1 # 2)) as [Ey|Ey|Ey];
      try destruct (Z.even (Qfloor x)); try lia; exfalso; lra.
  - assert (Qfloor x + 1 <= Qfloor y) as Hlt by lia.
    destruct (x - inject_Z (Qfloor x) ?= 1 # 2)%Q;
      destruct (y - inject_Z (Qfloor y) ?= 1 # 2)%Q;
      try destruct (Z.even (Qfloor x)); try destruct (Z.even (Qfloor y)); lia.
Qed.

Lemma round_half_even_le_Z (x : Q) (n : Z) :
  (x <= inject_Z n)%Q → round_half_even x <= n.
Proof.
  intros H. rewrite <- (round_half_even_Z n). by apply round_half_even_mono.
Qed.

Lemma round_half_even_ge_Z (x : Q) (n : Z) :
  (inject_Z n <= x)%Q → n <= round_half_even x.
Proof.
  intros H. rewrite <- (round_half_even_Z n) at 1.
  by apply round_half_even_mono.
Qed.

Lemma inject_Z_pow_pos (k : Z) : 0 <= k → (0 < inject_Z (2 ^ k))%Q.
Proof.
  intros Hk. change 0%Q with (inject_Z 0). rewrite <- Zlt_Qlt.
  apply Z.pow_pos_nonneg; lia.
Qed.

Lemma spacing_nonneg (x : Q) : 0 <= spacing x.
Proof. unfold spacing. lia. Qed.

Lemma spacing_mono (x y : Q) : (x <= y)%Q → spacing x <= spacing y.
Proof.
  intros Hxy. unfold spacing.
  pose proof (Z.log2_le_mono _ _ (Qfloor_resp_le _ _ Hxy)). lia.
Qed.

Lemma below_next_binade (x : Q) :
  (0 <= x)%Q → (x <= inject_Z (2 ^ (53 + spacing x)))%Q.
Proof.
  intros Hx.
  assert (0 <= Qfloor x) as Hf.
  { change 0 with (Qfloor 0). by apply Qfloor_resp_le. }
  assert (Qfloor x + 1 <= 2 ^ (53 + spacing x)) as Hb.
  { destruct (Z.eq_dec (Qfloor x) 0) as [E|Hne].
    - rewrite E. pose proof (spacing_nonneg x).
      pose proof (Z.pow_pos_nonneg 2 (53 + spacing x)). lia.
    - pose proof (Z.log2_spec (Qfloor x) ltac:(lia)) as [_ Hhi].
      assert (2 ^ Z.succ (Z.log2 (Qfloor x)) <= 2 ^ (53 + spacing x));
        [|lia].
      apply Z.pow_le_mono_r; [lia|]. unfold spacing. lia. }
  pose proof (Qlt_floor x) as Hlt.
  apply Qlt_le_weak. eapply Qlt_le_trans; [exact Hlt|].
  rewrite <- Zle_Qle. exact Hb.
Qed.

Lemma above_own_binade (y : Q) :
  0 < spacing y → (inject_Z (2 ^ (52 + spacing y)) <= y)%Q.
Proof.
  intros Hk. unfold spacing in *.
  assert (0 < Qfloor y) as Hpos.
  { destruct (Z.lt_trichotomy (Qfloor y) 0) as [H|[H|H]]; [| |done].
    - rewrite Z.log2_nonpos in Hk by lia. lia.
    - rewrite H in Hk. simpl in Hk. lia. }
  pose proof (Z.log2_spec (Qfloor y) Hpos) as [Hlo _].
  replace (52 + Z.max 0 (Z.log2 (Qfloor y) - 52)) with (Z.log2 (Qfloor y))
    by lia.
  eapply Qle_trans; [|apply Qfloor_le].
  rewrite <- Zle_Qle. exact Hlo.
Qed.

Lemma round_units_unfold (x : Q) :
  round_units x
  = round_half_even (x / inject_Z (2 ^ spacing x)) * 2 ^ spacing x.
Proof. reflexivity. Qed.

Lemma round_units_mono (x y : Q) :
  (0 <= x)%Q → (x <= y)%Q → round_units x <= round_units y.
Proof.
  intros Hx Hxy. rewrite !round_units_unfold.
  pose proof (spacing_nonneg x) as Hkx.
  pose proof (spacing_mono x y Hxy) as Hk.
  destruct (Z.eq_dec (spacing x) (spacing y)) as [Heq|Hne].
  - rewrite <- Heq. apply Z.mul_le_mono_nonneg_r.
    + apply Z.pow_nonneg. lia.
    + apply round_half_even_mono. apply Qmult_le_compat_r; [done|].
      apply Qinv_le_0_compat, Qlt_le_weak, inject_Z_pow_pos. done.
  - assert (spacing x + 1 <= spacing y) as Hlt by lia.
    assert (round_half_even (x / inject_Z (2 ^ spacing x)) <= 2 ^ 53) as Hlo.
    { apply round_half_even_le_Z. apply Qle_shift_div_r.
      - by apply inject_Z_pow_pos.
      - rewrite <- inject_Z_mult, <- Z.pow_add_r by lia.
        by apply below_next_binade. }
    assert (2 ^ 52 <= round_half_even (y / inject_Z (2 ^ spacing y))) as Hhi.
    { apply round_half_even_ge_Z. apply Qle_shift_div_l.
      - apply inject_Z_pow_pos. lia.
      - rewrite <- inject_Z_mult, <- Z.pow_add_r by lia.
        apply above_own_binade. lia. }
    assert (0 < 2 ^ spacing x) as Hpx by (apply Z.pow_pos_nonneg; lia).
    assert (0 < 2 ^ spacing y) as Hpy by (apply Z.pow_pos_nonneg; lia).
    transitivity (2 ^ 53 * 2 ^ spacing x).
    { apply Z.mul_le_mono_nonneg_r; lia. }
    transitivity (2 ^ 52 * 2 ^ spacing y).
    { rewrite <- !Z.pow_add_r by lia. apply Z.pow_le_mono_r; lia. }
    apply Z.mul_le_mono_nonneg_r; lia.
Qed.

Lemma round_units_0 : round_units 0 = 0.
Proof. reflexivity. Qed.

Lemma round_units_nonneg (x : Q) : (0 <= x)%Q → 0 <= round_units x.
Proof.
  intros Hx. rewrite <- round_units_0. by apply round_units_mono.
Qed.


(** ** The order of the floats and rounding *)

Lemma fle_refl (a : float) : is_nan a = false → fle a a.
Proof. destruct a; simpl; try done. intros _. apply Qle_refl. Qed.

Lemma fle_trans (a b c : float) : fle a b → fle b c → fle a c.
Proof.
  destruct a, b, c; simpl; try done. apply Qle_trans.
Qed.

Lemma fle_not_nan (a b : float) :
  fle a b → is_nan a = false ∧ is_nan b = false.
Proof. destruct a, b; simpl; done. Qed.

Lemma round64_nonneg_case (q : Q) :
  (0 <= q)%Q →
  round64 q
  = let n := round_units (q * inject_Z (2 ^ 1074)) in
    if 2 ^ 2098 <=? n then PInf
    else Fin (Qred (inject_Z n / inject_Z (2 ^ 1074))).
Proof.
  intros Hq. unfold round64.
  assert (Qle_bool 0 q = true) as -> by (by apply Qle_bool_iff).
  assert (Qabs q = q) as ->; [|done].
  destruct q as [[|p|p] d]; done.
Qed.

Lemma round64_neg_case (q : Q) :
  (q < 0)%Q →
  round64 q
  = let n := round_units (- q * inject_Z (2 ^ 1074)) in
    if 2 ^ 2098 <=? n then NInf
    else Fin (Qred (- (inject_Z n / inject_Z (2 ^ 1074)))).
Proof.
  intros Hq. unfold round64.
  assert (Qle_bool 0 q = false) as ->.
  { destruct (Qle_bool 0 q) eqn:E; [|done].
    apply Qle_bool_iff in E. exfalso. lra. }
  assert (Qabs q = (- q)%Q) as ->; [|done].
  destruct q as [[|p|p] d]; try done.
Qed.

Lemma units_nonneg (q : Q) : (0 <= q)%Q → (0 <= q * inject_Z (2 ^ 1074))%Q.
Proof.
  intros Hq. apply Qmult_le_0_compat; [done|].
  apply Qlt_le_weak, inject_Z_pow_pos. lia.
Qed.

Lemma units_mono (p q : Q) :
  (p <= q)%Q → (p * inject_Z (2 ^ 1074) <= q * inject_Z (2 ^ 1074))%Q.
Proof.
  intros Hq. apply Qmult_le_compat_r; [done|].
  apply Qlt_le_weak, inject_Z_pow_pos. lia.
Qed.

Lemma of_units_mono (m n : Z) :
  m <= n →
  (inject_Z m / inject_Z (2 ^ 1074) <= inject_Z n / inject_Z (2 ^ 1074))%Q.
Proof.
  intros Hmn. apply Qmult_le_compat_r; [by rewrite <- Zle_Qle|].
  apply Qinv_le_0_compat, Qlt_le_weak, inject_Z_pow_pos. lia.
Qed.

Lemma of_units_nonneg (n : Z) :
  0 <= n → (0 <= inject_Z n / inject_Z (2 ^ 1074))%Q.
Proof.
  intros Hn. assert (0 == inject_Z 0 / inject_Z (2 ^ 1074))%Q as ->
    by (unfold Qdiv; ring).
  by apply of_units_mono.
Qed.

Lemma round64_not_nan (q : Q) : is_nan (round64 q) = false.
Proof.
  unfold round64. destruct (_ <=? _); destruct (Qle_bool 0 q); done.
Qed.

Lemma round64_mono (p q : Q) : (p <= q)%Q → fle (round64 p) (round64 q).
Proof.
  intros Hpq.
  destruct (Qlt_le_dec p 0) as [Hp|Hp]; destruct (Qlt_le_dec q 0) as [Hq|Hq].
  - rewrite (round64_neg_case p Hp), (round64_neg_case q Hq). cbv zeta.
    assert (round_units (- q * inject_Z (2 ^ 1074))
            <= round_units (- p * inject_Z (2 ^ 1074))) as Hu.
    { apply round_units_mono; [apply units_nonneg; lra|apply units_mono; lra]. }
    destruct (Z.leb_spec (2 ^ 2098) (round_units (- p * inject_Z (2 ^ 1074))));
      destruct (Z.leb_spec (2 ^ 2098) (round_units (- q * inject_Z (2 ^ 1074))));
      simpl; try done; try lia.
    rewrite !Qred_correct. apply Qopp_le_compat. by apply of_units_mono.
  - rewrite (round64_neg_case p Hp), (round64_nonneg_case q Hq). cbv zeta.
    destruct (_ <=? _); destruct (_ <=? _); simpl; try done.
    rewrite !Qred_correct.
    pose proof (of_units_nonneg (round_units (- p * inject_Z (2 ^ 1074)))
                  ltac:(apply round_units_nonneg, units_nonneg; lra)).
    pose proof (of_units_nonneg (round_units (q * inject_Z (2 ^ 1074)))
                  ltac:(apply round_units_nonneg, units_nonneg; lra)).
    lra.
  - exfalso. lra.
  - rewrite (round64_nonneg_case p Hp), (round64_nonneg_case q Hq). cbv zeta.
    assert (round_units (p * inject_Z (2 ^ 1074))
            <= round_units (q * inject_Z (2 ^ 1074))) as Hu.
    { apply round_units_mono; [by apply units_nonneg|by apply units_mono]. }
    destruct (Z.leb_spec (2 ^ 2098) (round_units (p * inject_Z (2 ^ 1074))));
      destruct (Z.leb_spec (2 ^ 2098) (round_units (q * inject_Z (2 ^ 1074))));
      simpl; try done; try lia.
    rewrite !Qred_correct. by apply of_units_mono.
Qed.

Lemma round64_0 : round64 0 = Fin 0.
Proof. vm_compute. reflexivity. Qed.

Lemma round64_1 : round64 1 = Fin 1.
Proof. vm_compute. reflexivity. Qed.

(** ** Arithmetic: [nan] spreads, the order is kept *)

Lemma fle_NInf (a : float) : is_nan a = false → fle NInf a.
Proof. by destruct a. Qed.

Lemma fle_PInf (a : float) : is_nan a = false → fle a PInf.
Proof. by destruct a. Qed.


Lemma fsub_not_nan (a b : float) :
  is_nan (fsub a b) = false → is_nan a = false ∧ is_nan b = false.
Proof. by destruct a, b. Qed.


Lemma fdiv_not_nan (a b c : float) :
  fdiv a b = Ok c → is_nan c = false →
  is_nan a = false ∧ is_nan b = false ∧ is_zero b = false.
Proof.
  unfold fdiv. destruct (is_zero b) eqn:Hz; [done|]. intros [= <-].
  by destruct a, b.
Qed.

Lemma fsub_mono_l (a b c : float) :
  fle a b → is_nan (fsub a c) = false → is_nan (fsub b c) = false →
  fle (fsub a c) (fsub b c).
Proof.
  destruct a as [x| | |], b as [y| | |], c as [z| | |]; simpl; try done.
  - intros Hxy _ _. apply round64_mono. lra.
  - intros _ _ _. apply fle_PInf, round64_not_nan.
  - intros _ _ _. apply fle_NInf, round64_not_nan.
Qed.

Lemma fsub_nonneg (m M : float) :
  fle m M → is_nan (fsub M m) = false → fle (Fin 0) (fsub M m).
Proof.
  destruct m as [x| | |], M as [y| | |]; try done.
  intros Hxy _. change (fle (Fin 0) (round64 (y - x))).
  rewrite <- round64_0. apply round64_mono. simpl in Hxy. lra.
Qed.



Lemma fdiv_mono_l (a b d qa qb : float) :
  fpos d → fle a b →
  fdiv a d = Ok qa → fdiv b d = Ok qb →
  is_nan qa = false → is_nan qb = false →
  fle qa qb.
Proof.
  intros [Hd Hz]. unfold fdiv. rewrite Hz. intros Hab [= <-] [= <-].
  destruct d as [z| | |]; try done.
  - simpl in Hd, Hz.
    assert (0 < z)%Q as Hpos.
    { destruct (Qeq_bool z 0) eqn:E; [done|].
      apply Qeq_bool_neq in E. lra. }
    assert (Qle_bool 0 z = true) as Hz1 by (apply Qle_bool_iff; lra).
    destruct a as [x| | |], b as [y| | |]; simpl; rewrite ?Hz1; try done.
    + intros _ _. apply round64_mono. simpl in Hab.
      apply Qmult_le_compat_r; [done|]. apply Qinv_le_0_compat. lra.
    + intros _ _. apply fle_PInf, round64_not_nan.
    + intros _ _. apply fle_NInf, round64_not_nan.
  - destruct a as [x| | |], b as [y| | |]; simpl; done.
Qed.

Lemma flt_fle (a b : float) : flt a b = true → fle a b.
Proof.
  destruct a as [x| | |], b as [y| | |]; simpl; try done.
  intros H. apply negb_true_iff in H.
  destruct (Qlt_le_dec x y) as [Hlt|Hle]; [lra|].
  apply Qle_bool_iff in Hle. congruence.
Qed.

Lemma not_flt_fle (a b : float) :
  flt a b = false → is_nan a = false → is_nan b = false → fle b a.
Proof.
  destruct a as [x| | |], b as [y| | |]; simpl; try done.
  intros H _ _. apply negb_false_iff in H. by apply Qle_bool_iff.
Qed.

Lemma flt_nan_r (a : float) : flt a NaN = false.
Proof. by destruct a. Qed.

(** ** [min], [max] and [sum] *)

Lemma fold_min_spec (xs : list float) : ∀ cur,
  let r := foldl (λ cur item, if flt item cur then item else cur) cur xs in
  (r = cur ∨ r ∈ xs)
  ∧ (is_nan r = false →
     is_nan cur = false ∧ fle r cur
     ∧ ∀ x, x ∈ xs → is_nan x = false → fle r x).
Proof.
  induction xs as [|item xs IH]; intros cur r.
  - split; [by left|]. intros Hr. split; [done|]. split; [by apply fle_refl|].
    intros x Hx. by apply not_elem_of_nil in Hx.
  - unfold r. simpl.
    destruct (IH (if flt item cur then item else cur)) as [Hin Hmin].
    split.
    { destruct Hin as [->|Hin]; [|right; by right].
      destruct (flt item cur); [right; left|left]; done. }
    intros Hr. destruct (Hmin Hr) as (Hc & Hle & Hall).
    destruct (flt item cur) eqn:E.
    + apply flt_fle in E. destruct (fle_not_nan _ _ E) as [_ Hcur].
      split; [done|]. split; [by eapply fle_trans|].
      intros x [->|Hx]%elem_of_cons; [done|]. by apply Hall.
    + split; [done|]. split; [done|].
      intros x [->|Hx]%elem_of_cons Hn; [|by apply Hall].
      eapply fle_trans; [exact Hle|]. by apply not_flt_fle.
Qed.

Lemma fold_max_spec (xs : list float) : ∀ cur,
  let r := foldl (λ cur item, if flt cur item then item else cur) cur xs in
  (r = cur ∨ r ∈ xs)
  ∧ (is_nan r = false →
     is_nan cur = false ∧ fle cur r
     ∧ ∀ x, x ∈ xs → is_nan x = false → fle x r).
Proof.
  induction xs as [|item xs IH]; intros cur r.
  - split; [by left|]. intros Hr. split; [done|]. split; [by apply fle_refl|].
    intros x Hx. by apply not_elem_of_nil in Hx.
  - unfold r. simpl.
    destruct (IH (if flt cur item then item else cur)) as [Hin Hmax].
    split.
    { destruct Hin as [->|Hin]; [|right; by right].
      destruct (flt cur item); [right; left|left]; done. }
    intros Hr. destruct (Hmax Hr) as (Hc & Hle & Hall).
    destruct (flt cur item) eqn:E.
    + apply flt_fle in E. destruct (fle_not_nan _ _ E) as [Hcur _].
      split; [done|]. split; [by eapply fle_trans|].
      intros x [->|Hx]%elem_of_cons; [done|]. by apply Hall.
    + split; [done|]. split; [done|].
      intros x [->|Hx]%elem_of_cons Hn; [|by apply Hall].
      eapply fle_trans; [|exact Hle]. by apply not_flt_fle.
Qed.

Lemma b64_py_min_spec (l : list float) (m : float) :
  py_min l = Ok m →
  m ∈ l ∧ (is_nan m = false → ∀ x, x ∈ l → is_nan x = false → fle m x).
Proof.
  destruct l as [|x xs]; [done|]. simpl. intros [= <-].
  destruct (fold_min_spec xs x) as [Hin Hmin]. split.
  - destruct Hin as [->|Hin]; [left|by right].
  - intros Hn y Hy Hyn. destruct (Hmin Hn) as (_ & Hle & Hall).
    apply elem_of_cons in Hy as [->|Hy]; [exact Hle|by apply Hall].
Qed.

Lemma b64_py_max_spec (l : list float) (M : float) :
  py_max l = Ok M →
  M ∈ l ∧ (is_nan M = false → ∀ x, x ∈ l → is_nan x = false → fle x M).
Proof.
  destruct l as [|x xs]; [done|]. simpl. intros [= <-].
  destruct (fold_max_spec xs x) as [Hin Hmax]. split.
  - destruct Hin as [->|Hin]; [left|by right].
  - intros Hn y Hy Hyn. destruct (Hmax Hn) as (_ & Hle & Hall).
    apply elem_of_cons in Hy as [->|Hy]; [exact Hle|by apply Hall].
Qed.



(** [mapM] in the monad of results. *)
Lemma mapM_Ok {A B : Type} (f : A → result B) (l : list A) (ys : list B) :
  mapM f l = Ok ys ↔ Forall2 (λ x y, f x = Ok y) l ys.
Proof.
  revert ys. induction l as [|x l IH]; intros ys; simpl.
  - split; [intros [= <-]; constructor|].
    intros H. apply Forall2_nil_inv_l in H as ->. done.
  - split.
    + destruct (f x) as [y|e] eqn:Hx; [|done]. simpl.
      destruct (mapM f l) as [k|e] eqn:Hl; [|done]. simpl.
      intros [= <-]. constructor; [done|]. by apply IH.
    + intros H. apply Forall2_cons_inv_l in H as (y & k & Hy & Hk & ->).
      rewrite Hy. simpl. apply IH in Hk. rewrite Hk. done.
Qed.

(** ** [normalize_scores] in binary64 *)

Lemma b64_normalize_scores_inv (l ys : list float) :
  normalize_scores l false = Ok ys →
  ∃ m M,
    py_min l = Ok m ∧ py_max l = Ok M
    ∧ ((feq m M = true ∧ ys = replicate (length l) (Fin 1))
       ∨ (feq m M = false
          ∧ Forall2 (λ x y, fdiv (fsub x m) (fsub M m) = Ok y) l ys)).
Proof.
  unfold normalize_scores.
  destruct (py_min l) as [m|e] eqn:Hm; [|done].
  destruct (py_max l) as [M|e] eqn:HM; [|done]. cbn [mbind result_bind].
  destruct (feq m M) eqn:E.
  - intros [= <-]. exists m, M. eauto.
  - destruct (mapM _ l) as [out|e] eqn:Hout; [|done]. cbn [mbind result_bind].
    intros [= <-]. exists m, M. split; [done|]. split; [done|]. right.
    split; [done|]. by apply mapM_Ok.
Qed.

Lemma b64_normalize_scores_length (l ys : list float) :
  normalize_scores l false = Ok ys → length ys = length l.
Proof.
  intros (m & M & _ & _ & [[_ ->]|[_ H]])%b64_normalize_scores_inv.
  - apply length_replicate.
  - symmetry. by eapply Forall2_length.
Qed.

(** In the branch that divides: the extremes are numbers in the right order
    and the divisor is positive (or infinite) as soon as one value returned
    is a number. *)
Lemma b64_normalize_scores_divisor (l ys : list float) (m M : float)
    (i : nat) (x y : float) :
  py_min l = Ok m → py_max l = Ok M →
  Forall2 (λ x y, fdiv (fsub x m) (fsub M m) = Ok y) l ys →
  l !! i = Some x → ys !! i = Some y → is_nan y = false →
  is_nan x = false ∧ is_nan m = false ∧ is_nan M = false
  ∧ fle m x ∧ fle x M ∧ fpos (fsub M m)
  ∧ is_nan (fsub x m) = false
  ∧ fdiv (fsub x m) (fsub M m) = Ok y.
Proof.
  intros Hm HM Hall Hx Hy Hn.
  pose proof (Forall2_lookup_lr _ _ _ _ _ _ Hall Hx Hy) as Hd.
  destruct (fdiv_not_nan _ _ _ Hd Hn) as (Hnum & Hden & Hz).
  destruct (fsub_not_nan _ _ Hnum) as [Hxn Hmn].
  destruct (fsub_not_nan _ _ Hden) as [HMn _].
  destruct (b64_py_min_spec _ _ Hm) as [_ Hmin].
  destruct (b64_py_max_spec _ _ HM) as [HMin Hmax].
  assert (x ∈ l) as Hxl by (by eapply list_elem_of_lookup_2).
  assert (fle m M) as HmM by (by apply Hmin).
  repeat split; try done.
  - by apply Hmin.
  - by apply Hmax.
  - by apply fsub_nonneg.
Qed.

Lemma b64_normalize_scores_mono (l ys : list float) (i j : nat)
    (xi xj yi yj : float) :
  normalize_scores l false = Ok ys →
  l !! i = Some xi → l !! j = Some xj →
  ys !! i = Some yi → ys !! j = Some yj →
  is_nan yi = false → is_nan yj = false →
  fle xi xj → fle yi yj.
Proof.
  intros (m & M & Hm & HM & [[_ ->]|[_ Hall]])%b64_normalize_scores_inv
         Hxi Hxj Hyi Hyj Hni Hnj Hle.
  - apply lookup_replicate in Hyi as [-> _].
    apply lookup_replicate in Hyj as [-> _]. apply Qle_refl.
  - destruct (b64_normalize_scores_divisor _ _ _ _ _ _ _ Hm HM Hall Hxi Hyi Hni)
      as (_ & _ & _ & _ & _ & Hpos & Hnum_i & Hdi).
    destruct (b64_normalize_scores_divisor _ _ _ _ _ _ _ Hm HM Hall Hxj Hyj Hnj)
      as (_ & _ & _ & _ & _ & _ & Hnum_j & Hdj).
    eapply fdiv_mono_l; [exact Hpos| |exact Hdi|exact Hdj|done|done].
    by apply fsub_mono_l.
Qed.

Lemma fdiv_zero (d : float) : fpos d → fdiv (Fin 0) d = Ok (Fin 0).
Proof.
  intros [Hd Hz]. unfold fdiv. rewrite Hz. destruct d as [[zn zd]| | |]; done.
Qed.

Lemma b64_normalize_scores_nonneg (l ys : list float) (i : nat) (y : float) :
  normalize_scores l false = Ok ys →
  ys !! i = Some y → is_nan y = false → fle (Fin 0) y.
Proof.
  intros Hnorm Hy Hn.
  pose proof (b64_normalize_scores_length _ _ Hnorm) as Hlen.
  destruct (b64_normalize_scores_inv _ _ Hnorm)
    as (m & M & Hm & HM & [[_ ->]|[_ Hall]]).
  - apply lookup_replicate in Hy as [-> _]. done.
  - destruct (lookup_lt_is_Some_2 l i) as [x Hx].
    { rewrite <- Hlen. by eapply lookup_lt_Some. }
    destruct (b64_normalize_scores_divisor _ _ _ _ _ _ _ Hm HM Hall Hx Hy Hn)
      as (_ & Hmn & _ & Hmx & _ & Hpos & Hnum & Hd).
    eapply fdiv_mono_l;
      [exact Hpos| |by apply fdiv_zero|exact Hd|done|done].
    by apply fsub_nonneg.
Qed.

(** ** The weights in binary64 *)






Section Rank.

Context {K : Type} `{EqDecision K}.
Variable squash : float → float.
Hypothesis squash_mono : ∀ x y, fle x y → fle (squash x) (squash y).
Hypothesis squash_nan : ∀ y, is_nan (squash y) = false → is_nan y = false.
Hypothesis squash_nonneg : ∀ y, fle (Fin 0) y → fle (Fin 0) (squash y).



End Rank.



(** ** Rounding does not see how a rational is written *)

Lemma round_half_even_Qeq (x y : Q) :
  (x == y)%Q → round_half_even x = round_half_even y.
Proof.
  intros E. apply Z.le_antisymm; apply round_half_even_mono; lra.
Qed.

Lemma round_units_Qeq (x y : Q) :
  (x == y)%Q → round_units x = round_units y.
Proof.
  intros E. rewrite !round_units_unfold.
  assert (spacing x = spacing y) as ->.
  { unfold spacing. by rewrite (Qfloor_comp _ _ E). }
  f_equal. apply round_half_even_Qeq. by rewrite E.
Qed.

Lemma round64_Qeq (p q : Q) : (p == q)%Q → round64 p = round64 q.
Proof.
  intros E. unfold round64.
  assert (round_units (Qabs p * inject_Z (2 ^ 1074))
          = round_units (Qabs q * inject_Z (2 ^ 1074))) as ->.
  { apply round_units_Qeq. by rewrite E. }
  assert (Qle_bool 0 p = Qle_bool 0 q) as -> by (by rewrite E).
  done.
Qed.

Lemma fdiv_self (d : float) :
  fpos d → d ≠ PInf → fdiv d d = Ok (Fin 1).
Proof.
  intros [Hd Hz] Hinf. unfold fdiv. rewrite Hz.
  destruct d as [z| | |]; try done. f_equal. rewrite <- round64_1.
  apply round64_Qeq. simpl in Hz. apply Qeq_bool_neq in Hz. by field.
Qed.

(** What [normalize_scores] returns lies between 0 and 1. *)
Lemma b64_normalize_scores_le_1 (l ys : list float) (i : nat) (y : float) :
  normalize_scores l false = Ok ys →
  ys !! i = Some y → is_nan y = false → fle y (Fin 1).
Proof.
  intros Hnorm Hy Hn.
  pose proof (b64_normalize_scores_length _ _ Hnorm) as Hlen.
  destruct (b64_normalize_scores_inv _ _ Hnorm)
    as (m & M & Hm & HM & [[_ ->]|[_ Hall]]).
  - apply lookup_replicate in Hy as [-> _]. done.
  - destruct (lookup_lt_is_Some_2 l i) as [x Hx].
    { rewrite <- Hlen. by eapply lookup_lt_Some. }
    destruct (b64_normalize_scores_divisor _ _ _ _ _ _ _ Hm HM Hall Hx Hy Hn)
      as (Hxn & Hmn & HMn & Hmx & HxM & Hpos & Hnum & Hd).
    assert (fle (fsub x m) (fsub M m)) as Hle.
    { apply fsub_mono_l; [done|done|].
      destruct Hpos as [Hp _]. by destruct (fle_not_nan _ _ Hp). }
    destruct (fsub M m) as [d| | |] eqn:HD.
    + eapply fdiv_mono_l;
        [exact Hpos|exact Hle|exact Hd|by apply fdiv_self|done|done].
    + unfold fdiv in Hd. simpl in Hd.
      destruct (fsub x m); injection Hd as <-; done.
    + by destruct Hpos.
    + by destruct Hpos.
Qed.

End Binary64Arithmetic.


(** * Further properties of the code *)

(** ** [normalize_scores] *)

Section Normalize.

Local Open Scope Q_scope.

Lemma foldl_Qmax_in (xs : list Q) : ∀ x, foldl Qmax x xs ∈ x :: xs.
Proof.
  induction xs as [|a xs IH]; intros x; [left|].
  simpl. specialize (IH (Qmax x a)).
  apply elem_of_cons in IH as [->|IH].
  - unfold Qmax, GenericMinMax.gmax. destruct (x ?= a); [left|right; left|left].
  - do 2 right. done.
Qed.

Lemma list_max_in (l : list Q) : l ≠ [] → list_max l ∈ l.
Proof. destruct l as [|x xs]; [done|]. intros _. apply foldl_Qmax_in. Qed.

Lemma norm_fn_le_1 (l : list Q) (x : Q) : x ∈ l → norm_fn l x <= 1.
Proof.
  intros Hx. assert (l ≠ []) as Hl by (intros ->; by apply not_elem_of_nil in Hx).
  destruct (norm_fn_cases l Hl) as [Hlt|Heq].
  - rewrite norm_fn_spread by done. pose proof (list_max_ge l x Hx).
    apply Qle_shift_div_r; lra.
  - rewrite norm_fn_flat by done. lra.
Qed.

Lemma norm_fn_mono (l : list Q) (x y : Q) :
  l ≠ [] → x <= y → norm_fn l x <= norm_fn l y.
Proof.
  intros Hl Hxy. destruct (norm_fn_cases l Hl) as [Hlt|Heq].
  - rewrite !norm_fn_spread by done. unfold Qdiv.
    apply Qmult_le_compat_r; [lra|].
    apply Qlt_le_weak, Qinv_lt_0_compat. lra.
  - rewrite !norm_fn_flat by done. lra.
Qed.

Lemma norm_fn_at_min (l : list Q) (x : Q) :
  list_min l < list_max l → x == list_min l → norm_fn l x == 0.
Proof.
  intros Hlt Hx. rewrite norm_fn_spread by done. rewrite Hx.
  unfold Qdiv. ring.
Qed.

Lemma norm_fn_at_max (l : list Q) (x : Q) :
  l ≠ [] → x == list_max l → norm_fn l x == 1.
Proof.
  intros Hl Hx. destruct (norm_fn_cases l Hl) as [Hlt|Heq].
  - rewrite norm_fn_spread by done. rewrite Hx. field. lra.
  - rewrite norm_fn_flat by done. reflexivity.
Qed.

End Normalize.

Section Binary64Normalize.

Import Binary64.

Lemma fsub_eq_l (a b c : float) :
  fle a b → fle b a → fsub a c = fsub b c.
Proof.
  destruct a as [x| | |], b as [y| | |], c as [z| | |]; simpl; try done.
  intros H1 H2. apply round64_Qeq. lra.
Qed.

(** X1.  In binary64 arithmetic [normalize_scores] keeps the length, and
    every value it returns that is a number lies between 0 and 1. *)
Theorem binary64_normalize_scores_unit_interval (l ys : list float) :
  normalize_scores l false = Ok ys →
  length ys = length l
  ∧ ∀ y, y ∈ ys → is_nan y = false → fle (Fin 0) y ∧ fle y (Fin 1).
Proof.
  intros Hnorm. split; [by apply b64_normalize_scores_length|].
  intros y [i Hi]%list_elem_of_lookup Hn. split.
  - by eapply b64_normalize_scores_nonneg.
  - by eapply b64_normalize_scores_le_1.
Qed.

(** X2.  In binary64 arithmetic [normalize_scores] never inverts the order
    of two scores: where both values returned are numbers, the greater or
    equal score has the greater or equal value.  A greatest score goes to 1
    and, when the scores are not all equal, a least score goes to 0, where
    the value returned is a number. *)
Theorem binary64_normalize_scores_order_and_extremes
    (l ys : list float) (m M : float) (i j : nat) (xi xj yi yj : float) :
  normalize_scores l false = Ok ys →
  py_min l = Ok m → py_max l = Ok M →
  l !! i = Some xi → l !! j = Some xj →
  ys !! i = Some yi → ys !! j = Some yj →
  is_nan yi = false →
  (is_nan yj = false → fle xi xj → fle yi yj)
  ∧ (fle M xi → yi = Fin 1)
  ∧ (feq m M = false → fle xi m → yi = Fin 0).
Proof.
  intros Hnorm Hm HM Hxi Hxj Hyi Hyj Hni. split; [|split].
  - intros Hnj Hle.
    exact (b64_normalize_scores_mono _ _ i j _ _ _ _ Hnorm Hxi Hxj Hyi Hyj
             Hni Hnj Hle).
  - intros Htop.
    destruct (b64_normalize_scores_inv _ _ Hnorm)
      as (m' & M' & Hm' & HM' & [[_ Hz]|[_ Hall]]).
    { rewrite Hz in Hyi. by apply lookup_replicate in Hyi as [-> _]. }
    rewrite Hm in Hm'. injection Hm' as <-. rewrite HM in HM'. injection HM' as <-.
    destruct (b64_normalize_scores_divisor _ _ _ _ _ _ _ Hm HM Hall Hxi Hyi Hni)
      as (_ & _ & _ & _ & HxM & Hpos & _ & Hd).
    rewrite (fsub_eq_l xi M m HxM Htop) in Hd.
    destruct (fsub M m) as [d| | |] eqn:HD.
    + rewrite fdiv_self in Hd by done. by injection Hd as <-.
    + unfold fdiv in Hd. simpl in Hd. injection Hd as <-. done.
    + by destruct Hpos.
    + by destruct Hpos.
  - intros Hne Hbot.
    destruct (b64_normalize_scores_inv _ _ Hnorm)
      as (m' & M' & Hm' & HM' & [[Heq _]|[_ Hall]]).
    { rewrite Hm in Hm'. injection Hm' as <-.
      rewrite HM in HM'. injection HM' as <-. congruence. }
    rewrite Hm in Hm'. injection Hm' as <-. rewrite HM in HM'. injection HM' as <-.
    destruct (b64_normalize_scores_divisor _ _ _ _ _ _ _ Hm HM Hall Hxi Hyi Hni)
      as (_ & Hmn & _ & Hmx & _ & Hpos & Hnum & Hd).
    assert (fsub xi m = Fin 0) as Hzero.
    { destruct xi as [x| | |], m as [q| | |]; simpl in *; try done.
      rewrite <- round64_0. apply round64_Qeq. lra. }
    rewrite Hzero, fdiv_zero in Hd by done. by injection Hd as <-.
Qed.

Lemma binary64_normalize_scores_unit_interval_witness :
  normalize_scores (close_scores.*2) false
  = Ok [Fin 0; close_weight; close_weight; Fin 1]
  ∧ length [Fin 0; close_weight; close_weight; Fin 1]
    = length (close_scores.*2)
  ∧ ∀ y, y ∈ [Fin 0; close_weight; close_weight; Fin 1] →
         is_nan y = false → fle (Fin 0) y ∧ fle y (Fin 1).
Proof.
  assert (normalize_scores (close_scores.*2) false
          = Ok [Fin 0; close_weight; close_weight; Fin 1]) as Hnorm
    by (vm_compute; reflexivity).
  split; [exact Hnorm|].
  exact (binary64_normalize_scores_unit_interval (close_scores.*2)
           [Fin 0; close_weight; close_weight; Fin 1] Hnorm).
Defined.

Lemma binary64_normalize_scores_order_and_extremes_witness :
  normalize_scores (close_scores.*2) false
  = Ok [Fin 0; close_weight; close_weight; Fin 1]
  ∧ (is_nan (Fin 1) = false →
     fle (literal 497 1000) (literal 99 100) → fle close_weight (Fin 1))
  ∧ (fle (literal 99 100) (literal 497 1000) → close_weight = Fin 1)
  ∧ (feq (Fin 0) (literal 99 100) = false →
     fle (literal 497 1000) (Fin 0) → close_weight = Fin 0).
Proof.
  assert (normalize_scores (close_scores.*2) false
          = Ok [Fin 0; close_weight; close_weight; Fin 1]) as Hnorm
    by (vm_compute; reflexivity).
  split; [exact Hnorm|].
  apply (binary64_normalize_scores_order_and_extremes (close_scores.*2)
           [Fin 0; close_weight; close_weight; Fin 1]
           (Fin 0) (literal 99 100) 1 3
           (literal 497 1000) (literal 99 100) close_weight (Fin 1)).
  - exact Hnorm.
  - vm_compute. reflexivity.
  - vm_compute. reflexivity.
  - reflexivity.
  - reflexivity.
  - reflexivity.
  - reflexivity.
  - reflexivity.
Defined.

End Binary64Normalize.

(** ** More on the coverage partition *)

(** The batch only grows during the loop. *)
Lemma scan_batch_grows (scored : gmap Z ScoreRecord) (ms : list Miner) :
  ∀ st x,
  x ∈ miners_to_query st → x ∈ miners_to_query (scan_miners scored ms st).
Proof.
  induction ms as [|m ms IH]; intros st x Hx; [done|].
  rewrite scan_miners_cons.
  destruct (covered scored m); [by apply IH|].
  assert (x ∈ miners_to_query
            (enqueue m (if stale scored m then purge_stale m st else st)))
    as Hx'.
  { destruct (purge_or_not_batch scored m st) as (Hb & _ & _).
    simpl. rewrite Hb. apply elem_of_app. by left. }
  cbn zeta. case_bool_decide; [done|by apply IH].
Qed.

(** A record that disappears was that of a stale worker put in the batch. *)
Lemma scan_file_deleted_in_batch (scored : gmap Z ScoreRecord)
    (ms : list Miner) :
  ∀ st u r,
  scan_file st !! u = Some r →
  scan_file (scan_miners scored ms st) !! u = None →
  ∃ m, m ∈ miners_to_query (scan_miners scored ms st)
       ∧ stale scored m = true ∧ uid m = u.
Proof.
  induction ms as [|m ms IH]; intros st u r Hu Hn.
  - simpl in Hn. congruence.
  - rewrite scan_miners_cons in *.
    destruct (covered scored m); [by eapply IH|].
    set (st2 := enqueue m (if stale scored m then purge_stale m st else st)) in *.
    assert (m ∈ miners_to_query st2) as Hm.
    { unfold st2. destruct (purge_or_not_batch scored m st) as (Hb & _ & _).
      simpl. rewrite Hb. apply elem_of_app. right. left. }
    assert (scan_file st2 !! u = None → stale scored m = true ∧ uid m = u)
      as Hhere.
    { unfold st2. destruct (stale scored m); simpl; [|congruence].
      unfold purge, read_weight_file, write_weight_file.
      case_bool_decide; [|congruence].
      intros [?|?]%lookup_delete_None; [done|congruence]. }
    cbn zeta in *. case_bool_decide.
    + exists m. split; [done|]. by apply Hhere.
    + destruct (scan_file st2 !! u) as [r'|] eqn:E2.
      * by eapply IH.
      * exists m. split; [by apply scan_batch_grows|]. by apply Hhere.
Qed.

Lemma partition_record_fate
    (file : gmap Z ScoreRecord) (miners : list Miner) (u : Z)
    (r : ScoreRecord) :
  file !! u = Some r →
  let s := get_miners_to_query file miners in
  (scan_file s !! u = Some r ∨ scan_file s !! u = None)
  ∧ (scan_file s !! u = None
     ↔ ∃ m, m ∈ miners_to_query s ∧ uid m = u ∧ key m ≠ ss58 r).
Proof.
  intros Hu s. split.
  - destruct (scan_file s !! u) as [r'|] eqn:E; [|by right]. left.
    unfold s, get_miners_to_query, read_weight_file in E.
    apply scan_file_lookup_Some in E. simpl in E. congruence.
  - split.
    + intros Hn. unfold s, get_miners_to_query, read_weight_file in *.
      eapply scan_file_deleted_in_batch in Hn as (m & Hm & Hst & Hum);
        [|exact Hu].
      exists m. split; [done|]. split; [done|].
      unfold stale in Hst. rewrite Hum, Hu in Hst.
      by apply bool_decide_eq_true in Hst.
    + intros (m & Hm & Hum & Hk).
      unfold s, get_miners_to_query, read_weight_file in *. rewrite <- Hum.
      apply scan_purged; [|done|simpl; apply not_elem_of_nil].
      unfold stale. rewrite Hum, Hu. by apply bool_decide_eq_true.
Qed.



(** The partition reads the file through [covered] only, as far as the two
    lists go. *)
Lemma scan_lists_ext (s1 s2 : gmap Z ScoreRecord) (ms : list Miner) :
  (∀ m, m ∈ ms → covered s1 m = covered s2 m) →
  ∀ st1 st2,
  remaining_miners st1 = remaining_miners st2 →
  miners_to_query st1 = miners_to_query st2 →
  counter st1 = counter st2 →
  remaining_miners (scan_miners s1 ms st1)
  = remaining_miners (scan_miners s2 ms st2)
  ∧ miners_to_query (scan_miners s1 ms st1)
    = miners_to_query (scan_miners s2 ms st2).
Proof.
  induction ms as [|m ms IH]; intros Hcov st1 st2 Hr Hb Hc; [done|].
  rewrite !scan_miners_cons. rewrite <- (Hcov m) by left.
  assert (∀ m', m' ∈ ms → covered s1 m' = covered s2 m') as Hcov'
    by (intros m' Hm'; apply Hcov; by right).
  destruct (covered s1 m).
  - apply IH; [done|simpl; by rewrite Hr|done|done].
  - destruct (purge_or_not_batch s1 m st1) as (Hb1 & Hc1 & Hr1).
    destruct (purge_or_not_batch s2 m st2) as (Hb2 & Hc2 & Hr2).
    set (a1 := if stale s1 m then purge_stale m st1 else st1) in *.
    set (a2 := if stale s2 m then purge_stale m st2 else st2) in *.
    assert (counter (enqueue m a1) = counter (enqueue m a2)) as Hce
      by (simpl; congruence).
    cbn zeta. rewrite Hce. case_bool_decide.
    + simpl. split; congruence.
    + apply IH; [done|simpl; congruence|simpl; congruence|done].
Qed.

(** With distinct ids the partition leaves every worker of the snapshot as
    covered, or not, as it found it. *)
Lemma partition_keeps_covered (file : gmap Z ScoreRecord)
    (miners : list Miner) (m : Miner) :
  NoDup (uid <$> miners) → m ∈ miners →
  covered (scan_file (get_miners_to_query file miners)) m = covered file m.
Proof.
  intros Hnd Hm. unfold covered.
  destruct (file !! uid m) as [r|] eqn:Hf.
  - destruct (scan_file (get_miners_to_query file miners) !! uid m)
      as [r'|] eqn:E.
    + unfold get_miners_to_query, read_weight_file in E.
      apply scan_file_lookup_Some in E. simpl in E.
      rewrite Hf in E. injection E as ->. done.
    + unfold get_miners_to_query, read_weight_file in E.
      eapply scan_file_lookup_None in E as (m' & Hm' & Hst & Hu); [|exact Hf].
      assert (m' = m) as -> by (eapply NoDup_uid_inj; done).
      unfold stale in Hst. rewrite Hf in Hst.
      apply bool_decide_eq_true in Hst. symmetry. by apply bool_decide_eq_false.
  - destruct (scan_file (get_miners_to_query file miners) !! uid m)
      as [r'|] eqn:E; [|done].
    unfold get_miners_to_query, read_weight_file in E.
    apply scan_file_lookup_Some in E. simpl in E. congruence.
Qed.

(** X6.  With distinct ids, [get_miners_to_query] is idempotent: run again
    on the file it left, it returns the same batch and the same
    [remaining_miners] and leaves the file as it is. *)
Theorem partition_idempotent (file : gmap Z ScoreRecord) (miners : list Miner) :
  NoDup (uid <$> miners) →
  let s := get_miners_to_query file miners in
  let s' := get_miners_to_query (scan_file s) miners in
  miners_to_query s' = miners_to_query s
  ∧ remaining_miners s' = remaining_miners s
  ∧ scan_file s' = scan_file s.
Proof.
  intros Hnd s s'.
  assert (remaining_miners s' = remaining_miners s
          ∧ miners_to_query s' = miners_to_query s) as [Hr Hb].
  { unfold s', s at 3 4, get_miners_to_query, read_weight_file.
    apply scan_lists_ext; try reflexivity.
    intros m Hm. by apply partition_keeps_covered. }
  split; [done|]. split; [done|].
  apply map_eq. intros u.
  destruct (scan_file s !! u) as [r|] eqn:E.
  - destruct (partition_record_fate
                (scan_file s) miners u r E) as [[H|H] Hiff]; [done|].
    exfalso. apply Hiff in H as (m & Hm & Hu & Hk).
    fold s' in Hm. rewrite Hb in Hm.
    destruct (partition_record_fate file miners u r)
      as [_ Hiff'].
    { unfold s, get_miners_to_query, read_weight_file in E.
      by apply scan_file_lookup_Some in E. }
    fold s in Hiff'. rewrite E in Hiff'.
    assert (Some r = None) as Habs by (apply Hiff'; eauto). discriminate.
  - destruct (scan_file s' !! u) as [r'|] eqn:E'; [|done].
    unfold s', get_miners_to_query, read_weight_file in E'.
    apply scan_file_lookup_Some in E'. simpl in E'. congruence.
Qed.

Lemma partition_idempotent_witness :
  let s := get_miners_to_query file_w2_old two_workers in
  let s' := get_miners_to_query (scan_file s) two_workers in
  miners_to_query s' = miners_to_query s
  ∧ remaining_miners s' = remaining_miners s
  ∧ scan_file s' = scan_file s.
Proof.
  apply (partition_idempotent file_w2_old two_workers).
  apply (bool_decide_unpack _). vm_compute. reflexivity.
Defined.

(** ** More on one step *)

Lemma foldl_insert_is_Some (l : list (Z * Q)) : ∀ (d : gmap Z Q) (u : Z),
  is_Some (foldl (λ d '(uid, score), <[uid := score]> d) d l !! u)
  ↔ is_Some (d !! u) ∨ u ∈ l.*1.
Proof.
  induction l as [|[k x] l IH]; intros d u.
  - simpl. split; [by left|]. intros [?|H]; [done|].
    by apply not_elem_of_nil in H.
  - simpl. rewrite IH, lookup_insert_is_Some, elem_of_cons. simpl.
    destruct (decide (k = u)) as [->|Hne].
    + split; intros _; [right; by left|left; by left].
    + split.
      * intros [[?|[_ ?]]|?]; [done|by left|right; by right].
      * intros [?|[?|?]]; [left; right; done|congruence|by right].
Qed.

Lemma foldl_insert_keep (l : list (Z * Q)) : ∀ (d : gmap Z Q) (k : Z) (y : Q),
  k ∉ l.*1 → d !! k = Some y →
  foldl (λ d '(uid, score), <[uid := score]> d) d l !! k = Some y.
Proof.
  induction l as [|[k' y'] l IH]; intros d k y Hni Hd; [done|].
  simpl. rewrite fmap_cons in Hni. apply not_elem_of_cons in Hni as [Hne Hni].
  apply IH; [done|]. rewrite lookup_insert_ne; [done|]. simpl in Hne. congruence.
Qed.

Lemma foldl_insert_lookup (l : list (Z * Q)) : ∀ (d : gmap Z Q) (u : Z) (x : Q),
  NoDup (l.*1) → (u, x) ∈ l →
  foldl (λ d '(uid, score), <[uid := score]> d) d l !! u = Some x.
Proof.
  induction l as [|[k y] l IH]; intros d u x Hnd Hin.
  - by apply not_elem_of_nil in Hin.
  - rewrite fmap_cons in Hnd. apply NoDup_cons in Hnd as [Hni Hnd].
    simpl. apply elem_of_cons in Hin as [Heq|Hin].
    + injection Heq as -> ->. apply foldl_insert_keep; [done|].
      apply lookup_insert_eq.
    + by apply IH.
Qed.

Lemma fst_zip_take {A B : Type} (l : list A) (k : list B) :
  (zip l k).*1 = take (length k) l.
Proof.
  revert k. induction l as [|a l IH]; intros [|b k]; try done.
  simpl. by rewrite IH.
Qed.

Lemma build_score_dict_is_Some (uids : list Z) (scores : list Q) (u : Z) :
  is_Some (build_score_dict uids scores !! u)
  ↔ u ∈ take (length scores) uids.
Proof.
  unfold build_score_dict. rewrite foldl_insert_is_Some, fst_zip_take.
  rewrite lookup_empty. split; [|by right].
  intros [[? ?]|?]; done.
Qed.

Lemma build_data_to_write_total (score_dict : gmap Z Q) (batch : list Miner) :
  ∀ data0,
  (∀ m, m ∈ batch → is_Some (score_dict !! uid m)) →
  ∃ data, build_data_to_write score_dict batch data0 = Ok data.
Proof.
  induction batch as [|item batch IH]; intros data0 Hall; [by eexists|].
  simpl. destruct (Hall item) as [s ->]; [left|].
  apply IH. intros m Hm. apply Hall. by right.
Qed.

Lemma build_data_to_write_raise (score_dict : gmap Z Q) (batch : list Miner) :
  ∀ data0 e,
  build_data_to_write score_dict batch data0 = Raise e →
  e = KeyError ∧ ∃ m, m ∈ batch ∧ score_dict !! uid m = None.
Proof.
  induction batch as [|item batch IH]; intros data0 e Hb; [done|].
  simpl in Hb. destruct (score_dict !! uid item) eqn:Hs.
  - destruct (IH _ _ Hb) as (-> & m & Hm & Hn).
    split; [done|]. exists m. split; [by right|done].
  - injection Hb as <-. split; [done|]. exists item. split; [left|done].
Qed.

(** X7.  The scorer decides whether the batch can be recorded.  When it
    returns at least one score per batch member the records are built, the
    scores beyond the batch being ignored.  When it returns fewer (ids being
    distinct), [KeyError] leaves the step: no record is written for any member
    of the batch, while the records already purged stay purged. *)
Theorem scorer_length_decides_recording
    (squash : Q → Q) (env : Env) (v : Validator)
    (answers : list (option string)) :
  registered env v →
  NoDup (uid <$> get_miner_ip_port (modules env)) →
  (step_answers env v).2 = Ok answers →
  let batch := miners_to_query (step_scan env v) in
  let scores := get_scores env (question (miner_prompt env))
                  (target_language (miner_prompt env)) answers in
  let r := validate_step squash env v in
  ((length batch ≤ length scores)%nat →
   ∃ data, step_data env v answers = Ok data
           ∧ ∀ i m s, batch !! i = Some m → scores !! i = Some s →
               data !! uid m = Some {| ss58 := key m; score := s |})
  ∧ ((length scores < length batch)%nat →
     value r = Raise KeyError
     ∧ weights_file (final r) = scan_file (step_scan env v)
     ∧ EvSettingWeights ∉ trace r).
Proof.
  intros Hreg Hnd Ha batch scores r.
  pose proof (step_batch_NoDup env v Hnd) as Hndb. fold batch in Hndb.
  split.
  - intros Hlen.
    destruct (build_data_to_write_total
                (build_score_dict (uid <$> batch) scores) batch ∅)
      as [data Hd].
    { intros m Hm. apply build_score_dict_is_Some.
      rewrite take_ge by (rewrite length_fmap; lia).
      apply list_elem_of_fmap. eauto. }
    exists data. split; [exact Hd|].
    intros i m s Hi Hs.
    destruct (build_data_to_write_lookup _ _ _ _ Hndb Hd) as [Hin _].
    destruct (Hin m) as (s' & Hs' & Hrec);
      [by eapply list_elem_of_lookup_2|].
    rewrite Hrec. do 2 f_equal.
    (* the score found under the id is the one at the member's position *)
    unfold build_score_dict in Hs'.
    assert ((uid m, s) ∈ zip (uid <$> batch) scores) as Hz.
    { apply list_elem_of_lookup. exists i.
      rewrite lookup_zip_with. rewrite list_lookup_fmap, Hi, Hs. done. }
    assert (NoDup (zip (uid <$> batch) scores).*1) as Hndz.
    { rewrite fst_zip_take. eapply sublist_NoDup; [exact Hndb|].
      apply sublist_take. }
    rewrite (foldl_insert_lookup _ ∅ (uid m) s Hndz Hz) in Hs'. congruence.
  - intros Hlen.
    assert (∃ m, m ∈ batch
                 ∧ build_score_dict (uid <$> batch) scores !! uid m = None)
      as (m & Hm & Hn).
    { destruct (lookup_lt_is_Some_2 batch (length scores) Hlen) as [m Hi].
      exists m. split; [by eapply list_elem_of_lookup_2|].
      apply eq_None_not_Some. rewrite build_score_dict_is_Some.
      intros (j & Hj & Hlt)%elem_of_take.
      assert ((uid <$> batch) !! length scores = Some (uid m)) as Hi'
        by (by rewrite list_lookup_fmap, Hi).
      pose proof (NoDup_lookup _ _ _ _ Hndb Hj Hi'). lia. }
    destruct (step_data env v answers) as [data|e] eqn:Hd.
    { exfalso. unfold step_data in Hd. cbv zeta in Hd.
      destruct (build_data_to_write_lookup _ _ _ _ Hndb Hd) as [Hin _].
      destruct (Hin m Hm) as (s & Hs & _). fold batch scores in Hs.
      congruence. }
    assert (e = KeyError) as ->.
    { unfold step_data in Hd. cbv zeta in Hd.
      by apply build_data_to_write_raise in Hd as [-> _]. }
    unfold r. rewrite (validate_step_data_raise _ _ _ answers KeyError) by done.
    simpl. split; [done|]. split; [done|].
    apply calls_not_setting_weights, executor_map_events.
Qed.

Lemma scorer_length_decides_recording_witness :
  let env := sample_env two_workers true true in
  let v := sample_validator ∅ in
  let batch := miners_to_query (step_scan env v) in
  let scores := get_scores env (question (miner_prompt env))
                  (target_language (miner_prompt env)) [None; None] in
  let r := validate_step rational_sigmoid env v in
  ((length batch ≤ length scores)%nat →
   ∃ data, step_data env v [None; None] = Ok data
           ∧ ∀ i m s, batch !! i = Some m → scores !! i = Some s →
               data !! uid m = Some {| ss58 := key m; score := s |})
  ∧ ((length scores < length batch)%nat →
     value r = Raise KeyError
     ∧ weights_file (final r) = scan_file (step_scan env v)
     ∧ EvSettingWeights ∉ trace r).
Proof.
  apply (scorer_length_decides_recording rational_sigmoid
           (sample_env two_workers true true) (sample_validator ∅)
           [None; None]).
  - unfold registered. apply (bool_decide_unpack _). vm_compute. reflexivity.
  - apply (bool_decide_unpack _). vm_compute. reflexivity.
  - vm_compute. reflexivity.
Defined.

Lemma filter_not_in_take {A : Type} `{!EqDecision A} (n : nat) (l : list A) :
  NoDup l → filter (λ x, x ∉ take n l) l = drop n l.
Proof.
  revert n. induction l as [|a l IH]; intros n Hnd.
  - by rewrite drop_nil.
  - apply NoDup_cons in Hnd as [Hni Hnd]. destruct n as [|n].
    + simpl. rewrite filter_all; [done|].
      intros x _. apply not_elem_of_nil.
    + simpl. rewrite filter_cons_False by (intros H; apply H; left).
      rewrite <- (IH n Hnd). apply filter_ext_in.
      intros x Hx. rewrite not_elem_of_cons. split; [tauto|].
      intros Hn. split; [|done]. intros ->. done.
Qed.

(** A member of the batch is on file once the step has returned. *)
Lemma batch_member_on_file (squash : Q → Q) (env : Env) (v : Validator)
    (m : Miner) :
  registered env v →
  NoDup (uid <$> get_miner_ip_port (modules env)) →
  value (validate_step squash env v) = Ok () →
  m ∈ miners_to_query (step_scan env v) →
  ∃ s, weights_file (final (validate_step squash env v)) !! uid m
       = Some {| ss58 := key m; score := s |}.
Proof.
  intros Hreg Hnd Hval Hm.
  destruct (step_answers env v).2 as [answers|e] eqn:Ha.
  2:{ rewrite (validate_step_dispatch_raise _ _ _ e) in Hval by done.
      discriminate. }
  destruct (step_data env v answers) as [data|e] eqn:Hd.
  2:{ rewrite (validate_step_data_raise _ _ _ answers e) in Hval by done.
      discriminate. }
  assert (remaining_miners (step_scan env v) ≠ []) as Hne.
  { intros E.
    assert (m ∈ remaining_miners (step_scan env v)) as Hrem.
    { apply candidate_remains; [done|]. unfold step_scan in Hm.
      rewrite batch_is_take in Hm. by apply subseteq_take in Hm. }
    rewrite E in Hrem. by apply not_elem_of_nil in Hrem. }
  destruct (build_data_to_write_lookup _ _ _ _ (step_batch_NoDup env v Hnd) Hd)
    as [Hin _].
  destruct (Hin m Hm) as (s & _ & Hs). exists s.
  rewrite (validate_step_no_finalize _ _ _ answers data) by done.
  cbn [final]. rewrite weights_file_with_file. by apply lookup_union_Some_l.
Qed.

(** What a step that does not finalise leaves on file, worker by worker. *)
Lemma step_covered_after (squash : Q → Q) (env : Env) (v : Validator)
    (m : Miner) :
  registered env v →
  NoDup (uid <$> get_miner_ip_port (modules env)) →
  value (validate_step squash env v) = Ok () →
  EvSettingWeights ∉ trace (validate_step squash env v) →
  m ∈ get_miner_ip_port (modules env) →
  covered (weights_file (final (validate_step squash env v))) m = false
  ↔ covered (weights_file v) m = false
    ∧ m ∉ miners_to_query (step_scan env v).
Proof.
  intros Hreg Hnd Hval Hnf Hm.
  destruct (decide (m ∈ miners_to_query (step_scan env v))) as [Hb|Hb].
  - destruct (batch_member_on_file squash _ _ m Hreg Hnd Hval Hb) as [s Hs].
    assert (covered (weights_file (final (validate_step squash env v))) m
            = true) as Hc.
    { unfold covered. rewrite Hs. simpl. by apply bool_decide_eq_true. }
    split; [congruence|tauto].
  - destruct (step_answers env v).2 as [answers|e] eqn:Ha.
    2:{ rewrite (validate_step_dispatch_raise _ _ _ e) in Hval by done.
        discriminate. }
    destruct (step_data env v answers) as [data|e] eqn:Hd.
    2:{ rewrite (validate_step_data_raise _ _ _ answers e) in Hval by done.
        discriminate. }
    destruct (decide (remaining_miners (step_scan env v) = [])) as [Hrem|Hrem].
    { exfalso. apply Hnf.
      rewrite (validate_step_finalize _ _ _ answers data) by done.
      unfold prepend. cbn [trace]. apply elem_of_app. left.
      apply elem_of_app. right. left. }
    rewrite (validate_step_no_finalize _ _ _ answers data) by done.
    cbn [final]. rewrite weights_file_with_file.
    destruct (build_data_to_write_lookup _ _ _ _ (step_batch_NoDup env v Hnd) Hd)
      as [_ Hout].
    assert ((data ∪ scan_file (step_scan env v)) !! uid m
            = scan_file (step_scan env v) !! uid m) as Hlk.
    { apply lookup_union_r. rewrite Hout; [done|].
      intros (m' & Hu & Hm')%list_elem_of_fmap.
      assert (m' ∈ get_miner_ip_port (modules env)) as Hm'in.
      { unfold step_scan in Hm'. rewrite batch_is_take in Hm'.
        apply subseteq_take, list_elem_of_filter in Hm'. tauto. }
      assert (m = m') as -> by (eapply NoDup_uid_inj; done). done. }
    assert (covered (data ∪ scan_file (step_scan env v)) m
            = covered (scan_file (step_scan env v)) m) as ->
      by (unfold covered; by rewrite Hlk).
    unfold step_scan. rewrite partition_keeps_covered by done. tauto.
Qed.

(** The candidates after a step that returned without finalising. *)
Lemma candidates_after_step
    (squash : Q → Q) (env : Env) (v : Validator) :
  registered env v →
  NoDup (uid <$> get_miner_ip_port (modules env)) →
  value (validate_step squash env v) = Ok () →
  EvSettingWeights ∉ trace (validate_step squash env v) →
  candidates (weights_file (final (validate_step squash env v)))
             (get_miner_ip_port (modules env))
  = drop 8 (candidates (weights_file v) (get_miner_ip_port (modules env))).
Proof.
  intros Hreg Hnd Hval Hnf.
  assert (NoDup (candidates (weights_file v)
                   (get_miner_ip_port (modules env)))) as Hndc.
  { unfold candidates. apply NoDup_filter. by eapply NoDup_fmap_1. }
  rewrite <- (filter_not_in_take 8 _ Hndc).
  unfold candidates. rewrite list_filter_filter.
  apply filter_ext_in. intros m Hm.
  rewrite (step_covered_after squash env v m) by done.
  unfold step_scan. rewrite batch_is_take. unfold candidates. tauto.
Qed.

(** X8.  Progress of a cycle.  When a step of a registered validator over a
    snapshot with distinct ids returns without finalising, the workers of the
    snapshot still to be scored are the former candidates less the batch: the
    candidate list of the new file is the old one without its first eight. *)
Theorem step_consumes_its_batch
    (squash : Q → Q) (env : Env) (v : Validator) :
  registered env v →
  NoDup (uid <$> get_miner_ip_port (modules env)) →
  value (validate_step squash env v) = Ok () →
  EvSettingWeights ∉ trace (validate_step squash env v) →
  candidates (weights_file (final (validate_step squash env v)))
             (get_miner_ip_port (modules env))
  = drop 8 (candidates (weights_file v) (get_miner_ip_port (modules env))).
Proof. apply candidates_after_step. Qed.

Lemma step_consumes_its_batch_witness :
  let env := sample_env nine_workers true true in
  let v := sample_validator ∅ in
  candidates (weights_file (final (validate_step rational_sigmoid env v)))
             (get_miner_ip_port (modules env))
  = drop 8 (candidates (weights_file v) (get_miner_ip_port (modules env))).
Proof.
  apply (step_consumes_its_batch rational_sigmoid
           (sample_env nine_workers true true) (sample_validator ∅)).
  - unfold registered. apply (bool_decide_unpack _). vm_compute. reflexivity.
  - apply (bool_decide_unpack _). vm_compute. reflexivity.
  - vm_compute. reflexivity.
  - intros Hin.
    assert (Forall (λ e, is_call e = true)
              (trace (validate_step rational_sigmoid
                        (sample_env nine_workers true true)
                        (sample_validator ∅)))) as Hcalls
      by (vm_compute; repeat constructor).
    rewrite Forall_forall in Hcalls. apply Hcalls in Hin. discriminate.
Defined.

(** [set_weights] touches the client only. *)
Lemma set_weights_final (squash : Q → Q) (env : Env)
    (s_dict : list (dict_key * Q))
    (v : Validator) :
  weights_file (final (set_weights squash env s_dict v)) = weights_file v
  ∧ self_uid (final (set_weights squash env s_dict v)) = self_uid v
  ∧ val_ss58 (final (set_weights squash env s_dict v)) = val_ss58 v
  ∧ Forall (λ e, is_call e = false) (trace (set_weights squash env s_dict v)).
Proof.
  destruct (weighted_scores_of squash s_dict (IntKey <$> self_uid v))
    as [ws|e] eqn:Hw.
  - destruct (vote_first env) eqn:Hv.
    + rewrite (set_weights_first_try _ _ _ _ ws) by done.
      simpl. repeat split. repeat constructor.
    + rewrite (set_weights_retry _ _ _ _ ws) by done.
      simpl. repeat split. repeat constructor.
  - rewrite (set_weights_raise _ _ _ _ e) by done. simpl. repeat split.
    constructor.
Qed.

Lemma finish_final (r : Run unit) :
  self_uid (final (finish r)) = self_uid (final r)
  ∧ val_ss58 (final (finish r)) = val_ss58 (final r)
  ∧ client (final (finish r)) = client (final r).
Proof. unfold finish. destruct (value r); done. Qed.

(** The shape of the trace of a step and the attributes it leaves. *)
Lemma validate_step_shape (squash : Q → Q) (env : Env) (v : Validator) :
  registered env v →
  (∃ t, trace (validate_step squash env v) = (step_answers env v).1 ++ t
        ∧ Forall (λ e, is_call e = false) t)
  ∧ self_uid (final (validate_step squash env v))
    = find_uid (modules_keys env) (val_ss58 v) (self_uid v)
  ∧ val_ss58 (final (validate_step squash env v)) = val_ss58 v.
Proof.
  intros Hreg.
  destruct (step_answers env v).2 as [answers|e] eqn:Ha.
  2:{ rewrite (validate_step_dispatch_raise _ _ _ e) by done. simpl.
      split; [|done]. exists []. by rewrite app_nil_r. }
  destruct (step_data env v answers) as [data|e] eqn:Hd.
  2:{ rewrite (validate_step_data_raise _ _ _ answers e) by done. simpl.
      split; [|done]. exists []. by rewrite app_nil_r. }
  destruct (decide (remaining_miners (step_scan env v) = [])) as [Hrem|Hrem].
  - rewrite (validate_step_finalize _ _ _ answers data) by done.
    unfold prepend. cbn [trace final].
    match goal with |- context [finish ?r] => set (sw := r) end.
    destruct (finish_final sw) as (Hu & Hk & _).
    destruct (set_weights_final squash env
                (s_dict_of (data ∪ scan_file (step_scan env v)))
                (with_file (step_validator env v)
                           (data ∪ scan_file (step_scan env v))))
      as (_ & Hu' & Hk' & Hc).
    fold sw in Hu', Hk', Hc. split; [|split].
    + exists ([EvSettingWeights] ++ trace (finish sw)).
      split; [by rewrite app_assoc|].
      apply Forall_app. split; [repeat constructor|].
      by rewrite finish_trace.
    + rewrite Hu, Hu'. reflexivity.
    + rewrite Hk, Hk'. reflexivity.
  - rewrite (validate_step_no_finalize _ _ _ answers data) by done. simpl.
    split; [|done]. exists []. by rewrite app_nil_r.
Qed.

Lemma executor_map_events_length (env : Env) (prompt : Prompt)
    (batch : list Miner) :
  (length (executor_map (_get_miner_prediction env prompt) batch).1
   ≤ length batch)%nat.
Proof.
  unfold executor_map. cbn [fst].
  induction batch as [|m batch IH]; [done|].
  rewrite !fmap_cons. cbn [concat]. rewrite length_app. simpl.
  assert (length (_get_miner_prediction env prompt m).1 ≤ 1)%nat; [|lia].
  unfold _get_miner_prediction.
  destruct (split_ip_port (address m)) as [ip port].
  destruct (_ || _); [simpl; lia|].
  destruct (int_ env port); simpl; lia.
Qed.

(** X9.  Whatever happens in it, a step calls at most one worker per batch
    member, hence at most eight workers. *)
Theorem step_calls_bounded (squash : Q → Q) (env : Env) (v : Validator) :
  let calls := filter (λ e, is_call e = true)
                      (trace (validate_step squash env v)) in
  (length calls ≤ length (miners_to_query (step_scan env v)))%nat
  ∧ (length calls ≤ 8)%nat.
Proof.
  intros calls.
  assert (length (miners_to_query (step_scan env v)) ≤ 8)%nat as H8.
  { unfold step_scan. rewrite batch_is_take, length_take. lia. }
  assert (length calls ≤ length (miners_to_query (step_scan env v)))%nat;
    [|lia].
  unfold calls.
  destruct (decide (val_ss58 v ∈ (modules_keys env).*2)) as [Hreg|Hreg].
  - destruct (validate_step_shape squash env v Hreg) as ((t & -> & Ht) & _).
    rewrite filter_app, length_app.
    rewrite (filter_none _ t).
    2:{ intros e He. rewrite Forall_forall in Ht. rewrite (Ht e He). done. }
    assert (length (filter (λ e, is_call e = true) (step_answers env v).1)
            ≤ length (step_answers env v).1)%nat as H1
      by apply length_filter.
    assert (length (step_answers env v).1
            ≤ length (miners_to_query (step_scan env v)))%nat as H2
      by apply executor_map_events_length.
    replace (length (@nil event)) with 0%nat by reflexivity. lia.
  - rewrite validate_step_not_registered by done. simpl. lia.
Qed.

Lemma find_uid_last (l : list (Z * string)) (val : string) (cur : option Z) :
  val ∈ l.*2 →
  ∃ pre u post,
    l = pre ++ (u, val) :: post ∧ (val ∉ post.*2)
    ∧ find_uid l val cur = Some u.
Proof.
  induction l as [|[k x] l IH] using rev_ind; intros Hin.
  - by apply not_elem_of_nil in Hin.
  - unfold find_uid in *. rewrite foldl_app. simpl.
    case_bool_decide as Hx.
    + subst x. exists l, k, []. split; [done|]. split; [|done].
      apply not_elem_of_nil.
    + rewrite fmap_app in Hin. apply elem_of_app in Hin as [Hin|Hin].
      * destruct (IH Hin) as (pre & u & post & -> & Hpost & Hf).
        exists pre, u, (post ++ [(k, x)]). split; [by rewrite <- app_assoc|].
        split; [|done]. rewrite fmap_app. intros [?|Hl]%elem_of_app; [done|].
        simpl in Hl. apply list_elem_of_singleton in Hl. congruence.
      * simpl in Hin. apply list_elem_of_singleton in Hin. congruence.
Qed.

(** X10.  A step of a registered validator sets [uid] to the id of the last
    directory entry that carries the validator's key, whatever else happens
    in the step, and never changes the key itself. *)
Theorem step_sets_uid_to_last_entry
    (squash : Q → Q) (env : Env) (v : Validator) :
  registered env v →
  ∃ pre u post,
    modules_keys env = pre ++ (u, val_ss58 v) :: post
    ∧ (val_ss58 v ∉ post.*2)
    ∧ self_uid (final (validate_step squash env v)) = Some u
    ∧ val_ss58 (final (validate_step squash env v)) = val_ss58 v.
Proof.
  intros Hreg.
  destruct (validate_step_shape squash env v Hreg) as (_ & Hu & Hk).
  destruct (find_uid_last (modules_keys env) (val_ss58 v) (self_uid v) Hreg)
    as (pre & u & post & Hl & Hpost & Hf).
  exists pre, u, post. rewrite Hu, Hf. done.
Qed.

Lemma step_sets_uid_to_last_entry_witness :
  let env := sample_env two_workers true true in
  let v := sample_validator ∅ in
  ∃ pre u post,
    modules_keys env = pre ++ (u, val_ss58 v) :: post
    ∧ (val_ss58 v ∉ post.*2)
    ∧ self_uid (final (validate_step rational_sigmoid env v)) = Some u
    ∧ val_ss58 (final (validate_step rational_sigmoid env v)) = val_ss58 v.
Proof.
  apply (step_sets_uid_to_last_entry rational_sigmoid
           (sample_env two_workers true true) (sample_validator ∅)).
  unfold registered. apply (bool_decide_unpack _). vm_compute. reflexivity.
Defined.

(** ** The loop *)

Lemma bind_assoc {A B C : Type} (m : M A) (k : A → M B) (h : B → M C)
    (v : Validator) :
  ((m ≫= k) ≫= h) v = (m ≫= (λ a, k a ≫= h)) v.
Proof.
  rewrite !run_bind. destruct (m v) as [t f [a|e]]; cbn [value final trace].
  - rewrite run_bind. unfold prepend. cbn [value final trace].
    destruct (k a f) as [t' f' [b|e']]; cbn [value final trace].
    + by rewrite app_assoc.
    + done.
  - done.
Qed.

Lemma bind_ext {A B : Type} (m : M A) (k k' : A → M B) (v : Validator) :
  (∀ a w, k a w = k' a w) → (m ≫= k) v = (m ≫= k') v.
Proof. intros Hk. rewrite !run_bind. destruct (value (m v)); by rewrite ?Hk. Qed.

(** X12.  While the validator's key is absent from the directory the loop
    only sleeps: no call, no vote, and the validator, its file included, is
    left as it was. *)
Theorem unregistered_loop_only_sleeps (squash : Q → Q) (interval : Z)
    (ticks : list Env) (v : Validator) :
  Forall (λ env, ¬ registered env v) ticks →
  validation_loop squash interval ticks v
  = {| trace := replicate (length ticks) (EvSleep (inject_Z interval));
       final := v; value := Ok () |}.
Proof.
  induction ticks as [|env ticks IH]; intros Hall; [done|].
  apply Forall_cons in Hall as [Hreg Hall].
  simpl. rewrite run_bind, (validate_step_not_registered _ _ _ Hreg).
  cbn [value final trace]. rewrite emit_bind, (IH Hall). reflexivity.
Qed.

Lemma unregistered_loop_only_sleeps_witness :
  validation_loop rational_sigmoid 60 [stranger_env; stranger_env]
                  (sample_validator file_both)
  = {| trace := replicate (length [stranger_env; stranger_env])
                          (EvSleep (inject_Z 60));
       final := sample_validator file_both; value := Ok () |}.
Proof.
  apply (unregistered_loop_only_sleeps rational_sigmoid 60
           [stranger_env; stranger_env] (sample_validator file_both)).
  repeat constructor; unfold registered; apply (bool_decide_unpack _);
    vm_compute; reflexivity.
Defined.

(** ** A whole cycle *)

Lemma count_events_app (kind : event → bool) (t1 t2 : list event) :
  count_events kind (t1 ++ t2)
  = (count_events kind t1 + count_events kind t2)%nat.
Proof. unfold count_events. by rewrite filter_app, length_app. Qed.

Lemma count_events_all (kind : event → bool) (t : list event) :
  Forall (λ e, kind e = true) t → count_events kind t = length t.
Proof.
  intros Hall. unfold count_events. rewrite filter_all; [done|].
  by apply Forall_forall.
Qed.

Lemma count_events_none (kind : event → bool) (t : list event) :
  Forall (λ e, kind e = false) t → count_events kind t = 0%nat.
Proof.
  intros Hall. unfold count_events. rewrite filter_none; [done|].
  intros e He. rewrite Forall_forall in Hall. rewrite (Hall e He). done.
Qed.

Lemma validation_loop_cons_ok (squash : Q → Q) (interval : Z) (env : Env)
    (later : list Env) (v : Validator) :
  value (validate_step squash env v) = Ok () →
  validation_loop squash interval (env :: later) v
  = prepend (trace (validate_step squash env v) ++ [EvSleep (inject_Z interval)])
      (validation_loop squash interval later
         (final (validate_step squash env v))).
Proof.
  intros Hv. simpl. rewrite run_bind, Hv, emit_bind.
  unfold prepend. cbn [value final trace]. by rewrite app_assoc.
Qed.

Lemma step_data_total (env : Env) (v : Validator)
    (answers : list (option string)) :
  (length (miners_to_query (step_scan env v))
   ≤ length (get_scores env (question (miner_prompt env))
               (target_language (miner_prompt env)) answers))%nat →
  ∃ data, step_data env v answers = Ok data.
Proof.
  intros Hlen. unfold step_data. cbv zeta.
  apply build_data_to_write_total. intros m Hm.
  apply build_score_dict_is_Some.
  rewrite take_ge by (rewrite length_fmap; lia).
  apply list_elem_of_fmap. eauto.
Qed.

Section Cycle.

Variable squash : Q → Q.
Variable mods : list Miner.
Variable keys : list (Z * string).

Hypothesis squash_pos : ∀ x, (0 < squash x)%Q.
Hypothesis ids_distinct : NoDup (uid <$> get_miner_ip_port mods).

Lemma healthy_dispatch (env : Env) (prompt : Prompt) (batch : list Miner) :
  healthy mods keys env →
  (∀ m, m ∈ batch → m ∈ get_miner_ip_port mods) →
  ∃ t answers,
    executor_map (_get_miner_prediction env prompt) batch = (t, Ok answers)
    ∧ length t = length batch
    ∧ Forall (λ e, is_call e = true) t
    ∧ length answers = length batch.
Proof.
  intros (_ & _ & Haddr & _ & _) Hsub. unfold executor_map.
  induction batch as [|m batch IH].
  - exists [], []. done.
  - destruct IH as (t & answers & Heq & Hlt & Hct & Hla).
    { intros m' Hm'. apply Hsub. by right. }
    injection Heq as Ht Ha.
    destruct (Haddr m) as (ip & port & n & Hs & Hip & Hport & Hn);
      [apply Hsub; left|].
    assert (_get_miner_prediction env prompt m
            = ([EvCall (Some ip) n (key m)],
               Ok (call env (Some ip) n (key m) prompt))) as Hm.
    { unfold _get_miner_prediction. rewrite Hs.
      rewrite !bool_decide_eq_false_2 by congruence. simpl.
      unfold int_. rewrite Hn. done. }
    exists (EvCall (Some ip) n (key m) :: t),
           (call env (Some ip) n (key m) prompt :: answers).
    rewrite !fmap_cons. cbn [concat collect]. rewrite Hm, Ht, Ha.
    cbn. split; [done|]. split; [by rewrite Hlt|].
    split; [by constructor|by rewrite Hla].
Qed.

Lemma batch_eligible (file : gmap Z ScoreRecord) (m : Miner) :
  m ∈ miners_to_query (get_miners_to_query file (get_miner_ip_port mods)) →
  m ∈ get_miner_ip_port mods.
Proof.
  rewrite batch_is_take. intros Hm%subseteq_take.
  apply list_elem_of_filter in Hm. tauto.
Qed.

(** A scoring step of the cycle. *)
Lemma healthy_scoring_step (env : Env) (v : Validator) :
  healthy mods keys env →
  val_ss58 v ∈ keys.*2 →
  candidates (weights_file v) (get_miner_ip_port mods) ≠ [] →
  let r := validate_step squash env v in
  let c := candidates (weights_file v) (get_miner_ip_port mods) in
  value r = Ok ()
  ∧ Forall (λ e, is_call e = true) (trace r)
  ∧ length (trace r) = length (take 8 c)
  ∧ val_ss58 (final r) = val_ss58 v
  ∧ candidates (weights_file (final r)) (get_miner_ip_port mods) = drop 8 c.
Proof.
  intros Hh Hval Hc r c.
  pose proof Hh as (Hmods & Hkeys & Haddr & Hsc & Hvote).
  assert (registered env v) as Hreg by (unfold registered; by rewrite Hkeys).
  assert (NoDup (uid <$> get_miner_ip_port (modules env))) as Hnd
    by (by rewrite Hmods).
  assert (miners_to_query (step_scan env v) = take 8 c) as Hb.
  { unfold step_scan. rewrite batch_is_take, Hmods. done. }
  destruct (healthy_dispatch env (miner_prompt env)
              (miners_to_query (step_scan env v)) Hh)
    as (t & answers & Heq & Hlt & Hct & Hla).
  { intros m Hm. unfold step_scan in Hm. rewrite Hmods in Hm.
    by eapply batch_eligible. }
  fold (step_answers env v) in Heq.
  assert ((step_answers env v).2 = Ok answers) as Ha by (by rewrite Heq).
  destruct (step_data_total env v answers) as [data Hd].
  { rewrite Hsc, Hla. done. }
  assert (remaining_miners (step_scan env v) ≠ []) as Hrem.
  { destruct c as [|m0 c'] eqn:Ec; [done|].
    assert (m0 ∈ remaining_miners (step_scan env v)) as Hin.
    { apply candidate_remains; [done|]. rewrite Hmods. fold c.
      rewrite Ec. left. }
    intros E. rewrite E in Hin. by apply not_elem_of_nil in Hin. }
  assert (r = {| trace := t;
                 final := with_file (step_validator env v)
                            (data ∪ scan_file (step_scan env v));
                 value := Ok () |}) as Hr.
  { unfold r. rewrite (validate_step_no_finalize _ _ _ answers data) by done.
    by rewrite Heq. }
  assert (value r = Ok ()) as Hv by (by rewrite Hr).
  assert (EvSettingWeights ∉ trace r) as Hnf.
  { rewrite Hr. simpl. by apply calls_not_setting_weights. }
  split; [done|]. split; [by rewrite Hr|]. split; [by rewrite Hr, <- Hb|].
  split; [by rewrite Hr|].
  pose proof (candidates_after_step squash env v Hreg Hnd Hv Hnf) as Hp.
  rewrite Hmods in Hp. exact Hp.
Qed.

(** The finalising step of the cycle. *)
Lemma healthy_finalising_step (env : Env) (v : Validator) :
  healthy mods keys env →
  val_ss58 v ∈ keys.*2 →
  get_miner_ip_port mods ≠ [] →
  candidates (weights_file v) (get_miner_ip_port mods) = [] →
  let r := validate_step squash env v in
  value r = Ok ()
  ∧ weights_file (final r) = ∅
  ∧ val_ss58 (final r) = val_ss58 v
  ∧ ∃ uids weights,
      trace r = [EvSettingWeights; EvVote (client v) uids weights].
Proof.
  intros Hh Hval Hne Hc r.
  pose proof Hh as (Hmods & Hkeys & Haddr & Hsc & Hvote).
  assert (registered env v) as Hreg by (unfold registered; by rewrite Hkeys).
  assert (Forall (λ m, covered (weights_file v) m = true)
                 (get_miner_ip_port (modules env))) as Hall.
  { rewrite Hmods. apply Forall_forall. intros m Hm.
    destruct (covered (weights_file v) m) eqn:E; [done|]. exfalso.
    assert (m ∈ candidates (weights_file v) (get_miner_ip_port mods)) as Hin
      by (by apply list_elem_of_filter).
    rewrite Hc in Hin. by apply not_elem_of_nil in Hin. }
  destruct (all_covered_scan _ _ Hall) as (Hb & Hr & Hs).
  fold (step_scan env v) in Hb, Hr, Hs.
  destruct (step_empty_batch env v Hb) as [Ha Hd].
  assert (s_dict_of (weights_file v) ≠ []) as Hsd.
  { pose proof Hall as Hall'. rewrite Hmods in Hall'.
    destruct (get_miner_ip_port mods) as [|m0 l] eqn:El; [done|].
    apply Forall_cons in Hall' as [Hm0 _].
    unfold covered in Hm0.
    destruct (weights_file v !! uid m0) as [r0|] eqn:E0; [|done].
    unfold s_dict_of. intros E%fmap_nil_inv%map_to_list_empty_iff.
    rewrite E in E0. by rewrite lookup_empty in E0. }
  destruct (weighted_scores_of squash (s_dict_of (weights_file v))
              (IntKey <$> self_uid (step_validator env v))) as [ws|e] eqn:Hw.
  2:{ rewrite weighted_scores_of_spec in Hw;
        [discriminate|done|by apply total_nonzero]. }
  assert (r = prepend [EvSettingWeights]
                (finish (set_weights squash env (s_dict_of (weights_file v))
                           (with_file (step_validator env v) (weights_file v)))))
    as Hrun.
  { unfold r. rewrite (validate_step_finalize _ _ _ [] ∅); try done.
    - rewrite Ha, Hs, (left_id_L ∅ (∪)). reflexivity.
    - rewrite Ha. reflexivity. }
  rewrite (set_weights_first_try _ _ _ _ ws) in Hrun by done.
  rewrite Hrun. unfold finish, prepend. cbn [value final trace].
  split; [done|]. split; [done|]. split; [done|].
  exists (ws.*1), (ws.*2). reflexivity.
Qed.

(** The run of a cycle: [n] scoring steps, none of which finalises, then
    the step that does. *)
Lemma cycle_run (interval : Z) (n : nat) :
  ∀ (ticks : list Env) (v : Validator),
  get_miner_ip_port mods ≠ [] →
  val_ss58 v ∈ keys.*2 →
  Forall (healthy mods keys) ticks →
  length ticks = S n →
  let c := candidates (weights_file v) (get_miner_ip_port mods) in
  (length c ≤ 8 * n)%nat →
  (8 * n < length c + 8)%nat →
  let r := validation_loop squash interval ticks v in
  let before := validation_loop squash interval (take n ticks) v in
  (value r = Ok ()
   ∧ weights_file (final r) = ∅
   ∧ count_events is_call (trace r) = length c
   ∧ count_events is_setting_weights (trace r) = 1%nat
   ∧ count_events is_vote (trace r) = 1%nat)
  ∧ value before = Ok ()
  ∧ count_events is_setting_weights (trace before) = 0%nat
  ∧ count_events is_vote (trace before) = 0%nat
  ∧ candidates (weights_file (final before)) (get_miner_ip_port mods) = [].
Proof.
  induction n as [|n IH]; intros ticks v Hne Hval Hh Hlen c Hle Hlt r before.
  - destruct ticks as [|env [|? ?]]; try discriminate.
    apply Forall_cons in Hh as [Hh _].
    assert (c = []) as Hc by (destruct c; [done|simpl in Hle; lia]).
    destruct (healthy_finalising_step env v Hh Hval Hne Hc)
      as (Hv & Hf & _ & uids & weights & Ht).
    split; [|done].
    unfold r. rewrite validation_loop_cons_ok by done.
    rewrite Ht, Hc. cbn [validation_loop]. unfold prepend, mret, M_ret.
    cbn [value final trace]. split; [done|]. split; [exact Hf|].
    repeat split; reflexivity.
  - destruct ticks as [|env later]; [discriminate|].
    apply Forall_cons in Hh as [Hh Hlater].
    assert (c ≠ []) as Hc by (intros E; rewrite E in Hlt; simpl in Hlt; lia).
    destruct (healthy_scoring_step env v Hh Hval Hc)
      as (Hv & Hcalls & Hlen' & Hk & Hcand).
    fold c in Hlen', Hcand.
    set (v' := final (validate_step squash env v)) in *.
    destruct (IH later v')
      as ((Hv' & Hf' & Hc' & Hs' & Hvo') & Hbv & Hbs & Hbvo & Hbc).
    + done.
    + by rewrite Hk.
    + done.
    + simpl in Hlen. lia.
    + rewrite Hcand, length_drop. lia.
    + rewrite Hcand, length_drop. lia.
    + assert (∀ kind, kind (EvSleep (inject_Z interval)) = false →
                count_events kind [EvSleep (inject_Z interval)] = 0%nat)
        as Hsleep.
      { intros kind Hkind. apply count_events_none. by repeat constructor. }
      assert (count_events is_setting_weights
                (trace (validate_step squash env v)) = 0%nat) as Hns.
      { apply count_events_none. eapply Forall_impl; [exact Hcalls|].
        by intros []. }
      assert (count_events is_vote
                (trace (validate_step squash env v)) = 0%nat) as Hnv.
      { apply count_events_none. eapply Forall_impl; [exact Hcalls|].
        by intros []. }
      split.
      * unfold r. rewrite validation_loop_cons_ok by done. fold v'.
        unfold prepend. cbn [value final trace].
        split; [done|]. split; [done|].
        rewrite !count_events_app, Hc', Hs', Hvo', Hcand, length_drop.
        rewrite !Hsleep by done.
        rewrite (count_events_all is_call) by done.
        rewrite Hns, Hnv.
        rewrite Hlen', length_take. split; [lia|]. split; lia.
      * unfold before. rewrite firstn_cons.
        rewrite validation_loop_cons_ok by done. fold v'.
        unfold prepend. cbn [value final trace].
        split; [done|].
        rewrite !count_events_app, Hbs, Hbvo, Hns, Hnv.
        rewrite !Hsleep by done. done.
Qed.



End Cycle.

Lemma sample_env_healthy (workers : list Miner) (retry : bool) :
  (∀ m, m ∈ get_miner_ip_port (workers ++ [validator_module]) →
     address m = Some "10.0.0.1:8080"%string) →
  healthy (workers ++ [validator_module])
          ((λ m, (uid m, key m)) <$> (workers ++ [validator_module]))
          (sample_env workers true retry).
Proof.
  intros Haddr. split; [done|]. split; [done|]. split; [|split; [|done]].
  - intros m Hm. exists "10.0.0.1"%string, "8080"%string, 8080.
    rewrite (Haddr m Hm). repeat split; done.
  - intros q t answers. simpl. by rewrite length_fmap.
Qed.


(** ** Addresses and dispatch *)

Lemma split_colon_nonempty (s : string) : split_colon s ≠ [].
Proof.
  destruct s as [|c s]; [done|]. simpl.
  destruct (Ascii.eqb c colon); [done|]. by destruct (split_colon s).
Qed.

Lemma split_colon_parts (s : string) :
  Forall (λ part, has_colon part = false) (split_colon s).
Proof.
  induction s as [|c s IH]; [by repeat constructor|].
  simpl. destruct (Ascii.eqb c colon) eqn:Ec.
  - by constructor.
  - pose proof (split_colon_nonempty s).
    destruct (split_colon s) as [|part parts]; [done|].
    apply Forall_cons in IH as [Hp Hps]. constructor; [|done].
    simpl. by rewrite Ec.
Qed.

Lemma join_split_colon (s : string) : join_colon (split_colon s) = s.
Proof.
  induction s as [|c s IH]; [done|].
  simpl. destruct (Ascii.eqb c colon) eqn:Ec.
  - apply Ascii.eqb_eq in Ec as ->.
    pose proof (split_colon_nonempty s).
    destruct (split_colon s) as [|part parts] eqn:E; [done|].
    change (join_colon (EmptyString :: part :: parts))
      with (String colon (join_colon (part :: parts))).
    by rewrite IH.
  - pose proof (split_colon_nonempty s).
    destruct (split_colon s) as [|part parts] eqn:E; [done|].
    destruct parts as [|part' parts].
    + simpl in *. by rewrite IH.
    + change (join_colon (part :: part' :: parts))
        with (String.append part (String colon (join_colon (part' :: parts))))
        in IH.
      change (join_colon (String c part :: part' :: parts))
        with (String c (String.append part
                          (String colon (join_colon (part' :: parts))))).
      by rewrite IH.
Qed.

Lemma split_colon_no_colon (s : string) :
  has_colon s = false → split_colon s = [s].
Proof.
  induction s as [|c s IH]; [done|]. simpl.
  intros [Hc Hs]%orb_false_elim. rewrite Hc, (IH Hs). done.
Qed.

Lemma split_colon_join (ip rest : string) :
  has_colon ip = false →
  split_colon (String.append ip (String colon rest)) = ip :: split_colon rest.
Proof.
  induction ip as [|c ip IH]; intros Hip.
  - reflexivity.
  - simpl in Hip. apply orb_false_elim in Hip as [Hc Hip].
    simpl. rewrite Hc, (IH Hip). done.
Qed.

(** X14.  [split_ip_port] returns a host and a port exactly for the
    addresses made of a host and a port without colon joined by one colon,
    and it returns them as they were joined; on every other address, the
    empty one and [None] included, it returns [(None, None)]. *)
Theorem split_ip_port_spec (a : option string) :
  (∀ ip port,
     split_ip_port a = (Some ip, Some port)
     ↔ a = Some (String.append ip (String colon port))
       ∧ has_colon ip = false ∧ has_colon port = false)
  ∧ (split_ip_port a = (None, None)
     ∨ ∃ ip port, split_ip_port a = (Some ip, Some port)).
Proof.
  split.
  - intros ip port. split.
    + destruct a as [s|]; [|done]. unfold split_ip_port.
      destruct s as [|c s]; [done|].
      pose proof (join_split_colon (String c s)) as Hj.
      pose proof (split_colon_parts (String c s)) as Hp.
      destruct (split_colon (String c s)) as [|p1 [|p2 [|p3 ps]]]; try done.
      intros [= -> ->]. simpl in Hj.
      apply Forall_cons in Hp as [H1 Hp]. apply Forall_cons in Hp as [H2 _].
      by rewrite Hj.
    + intros (-> & Hip & Hport). unfold split_ip_port.
      rewrite split_colon_join, split_colon_no_colon by done.
      by destruct ip.
  - destruct a as [s|]; [|by left]. unfold split_ip_port.
    destruct s as [|c s]; [by left|].
    destruct (split_colon (String c s)) as [|p1 [|p2 [|p3 ps]]]; eauto.
Qed.

(** X15.  [_get_miner_prediction] makes at most one call.  It raises only
    before any call, and then [TypeError] or [ValueError] from the [int] of
    the port; once the call is made it returns what the call gave, a failed
    call being the answer [None]; and without a call the only answer it
    returns is the empty string. *)
Theorem prediction_raises_only_before_the_call
    (env : Env) (prompt : Prompt) (m : Miner) :
  let t := (_get_miner_prediction env prompt m).1 in
  let r := (_get_miner_prediction env prompt m).2 in
  (length t ≤ 1)%nat
  ∧ (∀ e, r = Raise e → t = [] ∧ (e = TypeError ∨ e = ValueError))
  ∧ (∀ ip port k, t = [EvCall ip port k] →
       k = key m ∧ r = Ok (call env ip port k prompt))
  ∧ (t = [] → ∀ a, r = Ok a → a = Some EmptyString).
Proof.
  unfold _get_miner_prediction.
  destruct (split_ip_port (address m)) as [ip port].
  destruct (_ || _).
  - simpl. split; [lia|]. split; [done|]. split; [done|]. by intros _ a [= <-].
  - unfold int_. destruct port as [port|].
    + destruct (py_int env port) as [n|]; simpl.
      * split; [lia|]. split; [done|]. split; [|done].
        by intros ip' port' k [= <- <- <-].
      * split; [lia|]. split; [|done]. intros e [= <-]. eauto.
    + simpl. split; [lia|]. split; [|done]. intros e [= <-]. eauto.
Qed.

(** X16.  The dispatch returns answers exactly when every member of the
    batch returned one, and then the answers stand position by position for
    the members.  It raises exactly when some member raised, and then with
    the exception of the first such member in batch order, whatever the
    members after it did: no answer is returned. *)
Theorem dispatch_all_or_nothing
    (env : Env) (prompt : Prompt) (batch : list Miner) :
  (∀ answers,
     (executor_map (_get_miner_prediction env prompt) batch).2 = Ok answers
     ↔ Forall2 (λ m a, (_get_miner_prediction env prompt m).2 = Ok a)
               batch answers)
  ∧ (∀ e,
       (executor_map (_get_miner_prediction env prompt) batch).2 = Raise e
       ↔ ∃ pre m post,
           batch = pre ++ m :: post
           ∧ Forall (λ m', ∃ a, (_get_miner_prediction env prompt m').2 = Ok a)
                    pre
           ∧ (_get_miner_prediction env prompt m).2 = Raise e).
Proof.
  unfold executor_map. cbn [fst snd]. split.
  - induction batch as [|m batch IH]; intros answers.
    + simpl. split.
      * intros [= <-]. constructor.
      * intros H. apply Forall2_nil_inv_l in H as ->. done.
    + rewrite !fmap_cons. cbn [collect]. split.
      * destruct (_get_miner_prediction env prompt m).2 as [a|e] eqn:Hm;
          [|done].
        destruct (collect _) as [as'|e] eqn:Hc; [|done].
        intros [= <-]. constructor; [done|]. by apply IH.
      * intros H. apply Forall2_cons_inv_l in H as (a & as' & Ha & Has & ->).
        rewrite Ha. apply IH in Has. rewrite Has. done.
  - induction batch as [|m batch IH]; intros e.
    + simpl. split; [done|]. intros (pre & m & post & Hb & _).
      by destruct pre.
    + rewrite !fmap_cons. cbn [collect].
      destruct (_get_miner_prediction env prompt m).2 as [a|e'] eqn:Hm.
      * split.
        -- destruct (collect _) as [as'|e''] eqn:Hc; [done|].
           intros [= ->].
           destruct (proj1 (IH e) eq_refl) as (pre & m' & post & -> & Hpre & He).
           exists (m :: pre), m', post. split; [done|].
           split; [|done]. constructor; [eauto|done].
        -- intros (pre & m' & post & Hb & Hpre & He).
           destruct pre as [|m0 pre].
           ++ simpl in Hb. injection Hb as <- <-. congruence.
           ++ simpl in Hb. injection Hb as <- ->.
              apply Forall_cons in Hpre as [_ Hpre].
              assert (collect ((_get_miner_prediction env prompt
                                  <$> pre ++ m' :: post).*2) = Raise e) as ->.
              { apply IH. eauto 6. }
              done.
      * split.
        -- intros [= ->]. exists [], m, batch. split; [done|].
           split; [constructor|done].
        -- intros (pre & m' & post & Hb & Hpre & He).
           destruct pre as [|m0 pre].
           ++ simpl in Hb. injection Hb as <- <-. congruence.
           ++ simpl in Hb. injection Hb as <- ->.
              apply Forall_cons in Hpre as [[a Ha] _]. congruence.
Qed.

(** ** The directory filter *)

(** X17.  [get_miner_ip_port] keeps, in directory order, exactly the modules
    whose incentive and dividends are both zero or whose incentive exceeds
    its dividends; a module whose two values are equal and not zero is
    dropped; filtering twice changes nothing. *)
Theorem get_miner_ip_port_spec (modules : list Miner) :
  get_miner_ip_port modules `sublist_of` modules
  ∧ (∀ m, m ∈ get_miner_ip_port modules
          ↔ m ∈ modules
            ∧ ((incentive m = 0 ∧ dividends m = 0)
               ∨ incentive m > dividends m))
  ∧ get_miner_ip_port (get_miner_ip_port modules) = get_miner_ip_port modules.
Proof.
  assert (∀ m, eligible m = true
               ↔ (incentive m = 0 ∧ dividends m = 0)
                 ∨ incentive m > dividends m) as Hel.
  { intros m. unfold eligible.
    destruct (bool_decide (incentive m = dividends m)) eqn:E1;
      destruct (bool_decide (dividends m = 0)) eqn:E2; simpl;
      try apply bool_decide_eq_true in E1; try apply bool_decide_eq_true in E2;
      try apply bool_decide_eq_false in E1;
      try apply bool_decide_eq_false in E2;
      rewrite ?bool_decide_eq_true; split; try lia; intros _; left; lia. }
  unfold get_miner_ip_port. split; [apply sublist_filter|]. split.
  - intros m. rewrite list_elem_of_filter, Hel. tauto.
  - apply filter_all. intros m Hm. apply list_elem_of_filter in Hm. tauto.
Qed.

(** ** The task *)

Lemma choice_in (a : list string) (draw : nat) :
  a ≠ [] → ∃ x, choice a draw = inr x ∧ x ∈ a.
Proof.
  intros Ha. unfold choice.
  assert (draw `mod` length a < length a)%nat as Hlt.
  { apply Nat.mod_upper_bound. by destruct a. }
  destruct (lookup_lt_is_Some_2 a _ Hlt) as [x Hx].
  rewrite Hx. exists x. split; [done|]. by eapply list_elem_of_lookup_2.
Qed.

(** X18.  [get_miner_prompt] never raises; the source and the target
    language it draws are two different languages of the list, and the text
    is a record of the dataset in the source language. *)
Theorem get_miner_prompt_languages_differ
    (cc_100 : string → string) (d1 d2 d3 : nat) :
  ∃ source_language target_language,
    get_miner_prompt cc_100 d1 d2 d3
    = inr (cc_100 source_language, source_language, target_language)
    ∧ source_language ∈ languages
    ∧ target_language ∈ languages
    ∧ source_language ≠ target_language.
Proof.
  unfold get_miner_prompt.
  destruct (choice_in languages d1) as (src & -> & Hsrc); [done|].
  assert (filter (λ language, language ≠ src) languages ≠ []) as Hne.
  { unfold languages in *.
    repeat (apply elem_of_cons in Hsrc as [->|Hsrc]; [done|]).
    by apply not_elem_of_nil in Hsrc. }
  cbv zeta. destruct (choice_in _ d2 Hne) as (tgt & -> & Htgt).
  apply list_elem_of_filter in Htgt as [Hdiff Htgt].
  assert (datasets cc_100 !! src = Some [cc_100]) as ->.
  { unfold languages in Hsrc.
    repeat (apply elem_of_cons in Hsrc as [->|Hsrc]; [reflexivity|]).
    by apply not_elem_of_nil in Hsrc. }
  exists src, tgt. unfold randint. simpl. rewrite Z.mod_1_r. simpl.
  split; [done|]. split; [done|]. split; [done|]. congruence.
Qed.

(** ** The scale of the weights *)

Section WeightScale.

Local Open Scope Q_scope.

Context {K : Type}.
Variable squash : Q → Q.
Variable s_dict : list (K * Q).

Hypothesis squash_pos : ∀ x, 0 < squash x.
Hypothesis squash_mono : ∀ x y, x <= y → squash x <= squash y.
Hypothesis s_dict_nonempty : s_dict ≠ [].

Lemma rescaled_mono (x y : Q) :
  x <= y → rescaled squash s_dict x <= rescaled squash s_dict y.
Proof.
  intros Hxy. rewrite !rescaled_unfold. unfold Qdiv.
  apply Qmult_le_compat_r.
  - apply Qmult_le_compat_r; [|lra].
    apply squash_mono, norm_fn_mono; [|done]. by destruct s_dict.
  - apply Qlt_le_weak, Qinv_lt_0_compat. by apply total_pos.
Qed.

Lemma weight_curve_top (x : Q) :
  x ∈ s_dict.*2 → (∀ y, y ∈ s_dict.*2 → y <= x) →
  weight_curve squash s_dict x == 1.
Proof.
  intros Hx Htop. unfold weight_curve.
  assert (rescaled squash s_dict <$> s_dict.*2 ≠ []) as Hne
    by (destruct s_dict; done).
  apply norm_fn_at_max; [done|]. apply Qle_antisym.
  - apply list_max_ge. apply list_elem_of_fmap. eauto.
  - apply list_max_lub; [done|].
    intros y (z & -> & Hz)%list_elem_of_fmap. by apply rescaled_mono, Htop.
Qed.

End WeightScale.

(** X19.  The weights handed to the vote are not on the scale of the budget
    of 1000: for a squashing curve with positive values that never decreases,
    every weight is above 0 and at most 1, and a worker other than the
    validator whose raw score is the greatest receives the weight 1. *)
Theorem weights_within_unit_top_is_one {K : Type} `{EqDecision K}
    (squash : Q → Q) (s_dict : list (K * Q)) (self : option K) :
  (∀ x, 0 < squash x)%Q →
  (∀ x y, x <= y → squash x <= squash y)%Q →
  s_dict ≠ [] →
  ∃ ws,
    weighted_scores_of squash s_dict self = Ok ws
    ∧ (∀ k w, (k, w) ∈ ws → (0 < w)%Q ∧ (w <= 1)%Q)
    ∧ (∀ a ra,
         (a, ra) ∈ s_dict → self ≠ Some a →
         (∀ x, x ∈ s_dict.*2 → (x <= ra)%Q) →
         ∃ wa, (a, wa) ∈ ws ∧ (wa == 1)%Q).
Proof.
  intros Hpos Hmono Hne.
  eexists. split.
  { apply weighted_scores_of_spec; [done|]. by apply total_nonzero. }
  split.
  - intros k w (Hin & Hz & _)%drop_zero_and_self_elem.
    apply list_elem_of_fmap in Hin as ([k' x] & [= -> ->] & Hx).
    assert (x ∈ s_dict.*2) as Hx'
      by (apply list_elem_of_fmap; by exists (k', x)).
    apply Qeq_bool_neq in Hz.
    pose proof (weight_curve_nonneg squash s_dict x Hx').
    split.
    + apply Qle_lteq in H as [?|Heq]; [done|]. exfalso. apply Hz. by symmetry.
    + unfold weight_curve. apply norm_fn_le_1.
      apply list_elem_of_fmap. eauto.
  - intros a ra Ha Hself Htop.
    assert (ra ∈ s_dict.*2) as Hra
      by (apply list_elem_of_fmap; by exists (a, ra)).
    pose proof (weight_curve_top squash s_dict Hpos Hmono Hne ra Hra Htop)
      as Hone.
    exists (weight_curve squash s_dict ra). split; [|done].
    apply drop_zero_and_self_elem. split; [|split; [|done]].
    + apply list_elem_of_fmap. by exists (a, ra).
    + destruct (Qeq_bool (weight_curve squash s_dict ra) 0) eqn:E; [|done].
      apply Qeq_bool_iff in E. rewrite E in Hone. discriminate.
Qed.

Lemma rational_sigmoid_mono (x y : Q) :
  (x <= y)%Q → (rational_sigmoid x <= rational_sigmoid y)%Q.
Proof.
  intros [Hlt|Heq]%Qle_lteq.
  - apply Qlt_le_weak. by apply rational_sigmoid_strict.
  - unfold rational_sigmoid. rewrite Heq. apply Qle_refl.
Qed.

Lemma weights_within_unit_top_is_one_witness :
  let s_dict := [(1, 4%Q); (2, 3%Q); (3, 2%Q); (4, 5%Q)] in
  ∃ ws,
    weighted_scores_of rational_sigmoid s_dict (Some 1) = Ok ws
    ∧ (∀ k w, (k, w) ∈ ws → (0 < w)%Q ∧ (w <= 1)%Q)
    ∧ (∀ a ra,
         (a, ra) ∈ s_dict → Some 1 ≠ Some a →
         (∀ x, x ∈ s_dict.*2 → (x <= ra)%Q) →
         ∃ wa, (a, wa) ∈ ws ∧ (wa == 1)%Q).
Proof.
  apply (weights_within_unit_top_is_one rational_sigmoid
           [(1, 4%Q); (2, 3%Q); (3, 2%Q); (4, 5%Q)] (Some 1)).
  - exact rational_sigmoid_pos.
  - exact rational_sigmoid_mono.
  - discriminate.
Defined.

(** ** The outcomes of the weight computation *)

Lemma weighted_scores_of_zero_total {K : Type} `{EqDecision K}
    (squash : Q → Q) (s_dict : list (K * Q)) (self : option K) :
  s_dict ≠ [] →
  Qeq_bool (py_sum ((λ y, squash (norm_fn (s_dict.*2) y)) <$> s_dict.*2)) 0
  = true →
  weighted_scores_of squash s_dict self = Raise ZeroDivisionError.
Proof.
  intros Hne Htot.
  assert (s_dict.*2 ≠ []) as Hne2 by (destruct s_dict; done).
  unfold weighted_scores_of. cbv zeta.
  rewrite (normalize_scores_fmap _ Hne2). cbn [mbind result_bind].
  rewrite zip_fst_fmap_snd. unfold sigmoid_rewards.
  assert ((λ '(uid, score), (uid, squash score)) <$>
            ((λ kv : K * Q, (kv.1, norm_fn (s_dict.*2) kv.2)) <$> s_dict)
          = (λ kv, (kv.1, squash (norm_fn (s_dict.*2) kv.2))) <$> s_dict)
    as Hsig.
  { rewrite <- list_fmap_compose. apply list_fmap_ext. by intros i [a b] _. }
  rewrite Hsig. clear Hsig.
  assert (((λ kv : K * Q, (kv.1, squash (norm_fn (s_dict.*2) kv.2)))
             <$> s_dict).*2
          = (λ y, squash (norm_fn (s_dict.*2) y)) <$> s_dict.*2) as Hsig2.
  { rewrite <- !list_fmap_compose. apply list_fmap_ext. by intros i [a b] _. }
  rewrite Hsig2, Htot. clear Hsig2.
  destruct ((λ kv : K * Q, (kv.1, squash (norm_fn (s_dict.*2) kv.2)))
              <$> s_dict) as [|p ps] eqn:Es; [|done].
  apply fmap_nil_inv in Es. done.
Qed.

Lemma drop_zero_and_self_sublist {K : Type} `{EqDecision K}
    (self : option K) (items : list (K * Q)) :
  drop_zero_and_self self items `sublist_of` items.
Proof.
  unfold drop_zero_and_self. cbv zeta. destruct self as [u|].
  - case_bool_decide.
    + etrans; apply sublist_filter.
    + apply sublist_filter.
  - apply sublist_filter.
Qed.

Lemma weighted_scores_of_ids {K : Type} `{EqDecision K}
    (squash : Q → Q) (s_dict : list (K * Q)) (self : option K)
    (ws : list (K * Q)) :
  weighted_scores_of squash s_dict self = Ok ws →
  ws.*1 `sublist_of` s_dict.*1.
Proof.
  intros Hws.
  assert (s_dict ≠ []) as Hne by (intros ->; discriminate).
  destruct (Qeq_bool (py_sum ((λ y, squash (norm_fn (s_dict.*2) y))
                                <$> s_dict.*2)) 0) eqn:E.
  - rewrite (weighted_scores_of_zero_total _ _ _ Hne E) in Hws. discriminate.
  - rewrite (weighted_scores_of_spec _ _ _ Hne E) in Hws. injection Hws as <-.
    etrans; [apply fmap_sublist, drop_zero_and_self_sublist|].
    rewrite <- list_fmap_compose. done.
Qed.



Lemma s_dict_of_keys (file : gmap Z ScoreRecord) :
  NoDup ((s_dict_of file).*1)
  ∧ ∀ k, k ∈ (s_dict_of file).*1
         ↔ ∃ u, k = StrKey (str u) ∧ is_Some (file !! u).
Proof.
  assert ((s_dict_of file).*1
          = (λ u, StrKey (str u)) <$> (map_to_list file).*1) as ->.
  { unfold s_dict_of. rewrite <- !list_fmap_compose.
    apply list_fmap_ext. by intros i [u data] _. }
  split.
  - apply NoDup_fmap_2; [|apply NoDup_fst_map_to_list].
    intros u1 u2 [= E]. by apply (inj pretty) in E.
  - intros k. rewrite list_elem_of_fmap. split.
    + intros (u & -> & Hin). exists u. split; [done|].
      apply list_elem_of_fmap in Hin as ([u' data] & -> & Hin).
      apply elem_of_map_to_list in Hin. eauto.
    + intros (u & -> & [data Hd]). exists u. split; [done|].
      apply list_elem_of_fmap. exists (u, data). split; [done|].
      by apply elem_of_map_to_list.
Qed.

(** X21.  The end of a cycle that goes well.  In a step of a registered
    validator that finds every eligible worker covered, when the weights are
    computed and the first vote succeeds: the step announces the weights and
    votes exactly once, on the client it had, without sleeping or resolving a
    new endpoint; the ids voted for are distinct ids of the file and are as
    many as the weights; and the file is empty afterwards. *)
Theorem finalising_step_votes_once
    (squash : Q → Q) (env : Env) (v : Validator)
    (ws : list (dict_key * Q)) :
  registered env v →
  Forall (λ m, covered (weights_file v) m = true)
         (get_miner_ip_port (modules env)) →
  weighted_scores_of squash (s_dict_of (weights_file v))
    (IntKey <$> find_uid (modules_keys env) (val_ss58 v) (self_uid v))
  = Ok ws →
  vote_first env = true →
  let r := validate_step squash env v in
  value r = Ok ()
  ∧ trace r = [EvSettingWeights; EvVote (client v) ws.*1 ws.*2]
  ∧ weights_file (final r) = ∅
  ∧ client (final r) = client v
  ∧ NoDup (ws.*1)
  ∧ (∀ k, k ∈ ws.*1 →
       ∃ u, k = StrKey (str u) ∧ is_Some (weights_file v !! u))
  ∧ length (ws.*1) = length (ws.*2).
Proof.
  intros Hreg Hall Hws Hfirst r.
  destruct (all_covered_scan _ _ Hall) as (Hb & Hr & Hs).
  fold (step_scan env v) in Hb, Hr, Hs.
  destruct (step_empty_batch env v Hb) as [Ha Hd].
  assert (r = prepend [EvSettingWeights]
                (finish (set_weights squash env (s_dict_of (weights_file v))
                           (with_file (step_validator env v) (weights_file v)))))
    as Hrun.
  { unfold r. rewrite (validate_step_finalize _ _ _ [] ∅); try done.
    - rewrite Ha, Hs, (left_id_L ∅ (∪)). reflexivity.
    - rewrite Ha. reflexivity. }
  rewrite (set_weights_first_try _ _ _ _ ws) in Hrun by done.
  rewrite Hrun. unfold finish, prepend. cbn [value final trace].
  split; [done|]. split; [done|]. split; [done|]. split; [done|].
  destruct (s_dict_of_keys (weights_file v)) as [Hnd Hkeys].
  pose proof (weighted_scores_of_ids _ _ _ _ Hws) as Hsub.
  split; [by eapply sublist_NoDup|]. split; [|by rewrite !length_fmap].
  intros u Hu. apply Hkeys. by eapply elem_of_sublist.
Qed.

Lemma finalising_step_votes_once_witness :
  let env := sample_env two_workers true true in
  let v := sample_validator file_both in
  let r := validate_step rational_sigmoid env v in
  value r = Ok ()
  ∧ trace r = [EvSettingWeights;
               EvVote (client v) sample_weights.*1 sample_weights.*2]
  ∧ weights_file (final r) = ∅
  ∧ client (final r) = client v
  ∧ NoDup (sample_weights.*1)
  ∧ (∀ k, k ∈ sample_weights.*1 →
       ∃ u, k = StrKey (str u) ∧ is_Some (weights_file v !! u))
  ∧ length (sample_weights.*1) = length (sample_weights.*2).
Proof.
  apply (finalising_step_votes_once rational_sigmoid
           (sample_env two_workers true true) (sample_validator file_both)
           sample_weights).
  - unfold registered. apply (bool_decide_unpack _). vm_compute. reflexivity.
  - apply (bool_decide_unpack _). vm_compute. reflexivity.
  - vm_compute. reflexivity.
  - reflexivity.
Defined.

(** * The validator's own weight *)

(** A key that is not in the dictionary is not removed from it. *)
Lemma weighted_scores_of_absent_self {K : Type} `{EqDecision K}
    (squash : Q → Q) (s_dict : list (K * Q)) (u : K) :
  u ∉ s_dict.*1 →
  weighted_scores_of squash s_dict (Some u)
  = weighted_scores_of squash s_dict None.
Proof.
  intros Hu. destruct s_dict as [|kv s_dict'] eqn:Es; [done|].
  rewrite <- Es in *.
  assert (s_dict ≠ []) as Hne by (by rewrite Es).
  destruct (Qeq_bool (py_sum ((λ y, squash (norm_fn (s_dict.*2) y))
                                <$> s_dict.*2)) 0) eqn:E.
  - by rewrite !(weighted_scores_of_zero_total _ _ _ Hne E).
  - rewrite !(weighted_scores_of_spec _ _ _ Hne E). f_equal.
    unfold drop_zero_and_self. cbv zeta.
    rewrite bool_decide_eq_false_2; [done|].
    intros ([k w] & -> & Hin)%list_elem_of_fmap.
    apply list_elem_of_filter in Hin as [_ Hin].
    apply list_elem_of_fmap in Hin as ([k' x] & [= -> ->] & Hin).
    apply Hu. apply list_elem_of_fmap. by exists (k', x).
Qed.

(** With a key of the type of the keys of the dictionary, the removal
    works: the key is never returned. *)
Lemma weighted_scores_of_excludes_self {K : Type} `{EqDecision K}
    (squash : Q → Q) (s_dict ws : list (K * Q)) (u : K) :
  weighted_scores_of squash s_dict (Some u) = Ok ws →
  u ∉ ws.*1.
Proof.
  intros Hws Hin. destruct s_dict as [|kv s_dict'] eqn:Es; [done|].
  rewrite <- Es in *.
  assert (s_dict ≠ []) as Hne by (by rewrite Es).
  destruct (Qeq_bool (py_sum ((λ y, squash (norm_fn (s_dict.*2) y))
                                <$> s_dict.*2)) 0) eqn:E.
  - by rewrite (weighted_scores_of_zero_total _ _ _ Hne E) in Hws.
  - rewrite (weighted_scores_of_spec _ _ _ Hne E) in Hws.
    injection Hws as Hws. subst ws.
    apply list_elem_of_fmap in Hin as ([k w] & Hk & Hin). simpl in Hk.
    apply (drop_zero_and_self_elem (Some u)) in Hin as (_ & _ & Hself).
    apply Hself. by rewrite Hk.
Qed.

(** The keys read from the file are strings: none of them is the integer
    [self.uid]. *)
Lemma stored_keys_are_strings (file : gmap Z ScoreRecord) (u : Z) :
  IntKey u ∉ (s_dict_of file).*1.
Proof.
  intros (k & Hk & _)%s_dict_of_keys. discriminate.
Qed.

(** Equal raw scores: every key keeps the weight 1. *)
Lemma uniform_scores_weights {K : Type} `{EqDecision K}
    (squash : Q → Q) (s_dict : list (K * Q)) :
  (∀ x, 0 < squash x)%Q →
  s_dict ≠ [] →
  (∀ x y, x ∈ s_dict.*2 → y ∈ s_dict.*2 → (x == y)%Q) →
  weighted_scores_of squash s_dict None
  = Ok ((λ kv, (kv.1, 1%Q)) <$> s_dict).
Proof.
  intros Hpos Hne Hflat.
  rewrite weighted_scores_of_spec; [|done|by apply total_nonzero].
  f_equal. unfold drop_zero_and_self. cbv zeta.
  assert ((λ kv : K * Q, (kv.1, weight_curve squash s_dict kv.2)) <$> s_dict
          = (λ kv, (kv.1, 1%Q)) <$> s_dict) as ->.
  { apply list_fmap_ext. intros i [k x] _. simpl. f_equal.
    by apply weight_curve_flat. }
  apply filter_all. by intros [k w] ([k' x] & [= -> ->] & _)%list_elem_of_fmap.
Qed.

(** C5 fails on the code.  [set_weights] compares the integer [self.uid]
    with the keys of the dictionary it is given, and [validate_step] gives
    it the keys as they are read from the file, which are strings: whatever
    the file holds, nothing is removed.  A validator whose own module is
    eligible is scored like a worker; in the finalising step of a file with
    equal scores it votes for every id on file with the weight 1, its own
    id included. *)
Theorem own_id_is_voted_for
    (squash : Q → Q) (env : Env) (v : Validator) (u : Z) (own : ScoreRecord) :
  (∀ x, 0 < squash x)%Q →
  registered env v →
  Forall (λ m, covered (weights_file v) m = true)
         (get_miner_ip_port (modules env)) →
  vote_first env = true →
  find_uid (modules_keys env) (val_ss58 v) (self_uid v) = Some u →
  weights_file v !! u = Some own →
  (∀ u' r', weights_file v !! u' = Some r' → (score r' == score own)%Q) →
  let r := validate_step squash env v in
  let uids := (s_dict_of (weights_file v)).*1 in
  (∀ file, weighted_scores_of squash (s_dict_of file) (Some (IntKey u))
           = weighted_scores_of squash (s_dict_of file) None)
  ∧ self_uid (final r) = Some u
  ∧ value r = Ok ()
  ∧ trace r = [EvSettingWeights;
               EvVote (client v) uids ((λ _, 1%Q) <$> uids)]
  ∧ StrKey (str u) ∈ uids.
Proof.
  intros Hpos Hreg Hall Hfirst Hu Hown Hflat r uids.
  assert (∀ file, weighted_scores_of squash (s_dict_of file) (Some (IntKey u))
                  = weighted_scores_of squash (s_dict_of file) None) as Hnone.
  { intros file. apply weighted_scores_of_absent_self, stored_keys_are_strings. }
  split; [exact Hnone|].
  destruct (all_covered_scan _ _ Hall) as (Hb & Hr & Hs).
  fold (step_scan env v) in Hb, Hr, Hs.
  destruct (step_empty_batch env v Hb) as [Ha Hd].
  assert (r = prepend [EvSettingWeights]
                (finish (set_weights squash env (s_dict_of (weights_file v))
                           (with_file (step_validator env v) (weights_file v)))))
    as Hrun.
  { unfold r. rewrite (validate_step_finalize _ _ _ [] ∅); try done.
    - rewrite Ha, Hs, (left_id_L ∅ (∪)). reflexivity.
    - rewrite Ha. reflexivity. }
  assert (s_dict_of (weights_file v) ≠ []) as Hne.
  { unfold s_dict_of. intros E%fmap_nil_inv%map_to_list_empty_iff.
    rewrite E in Hown. by rewrite lookup_empty in Hown. }
  assert (∀ x, x ∈ (s_dict_of (weights_file v)).*2 → (x == score own)%Q)
    as Hscore.
  { intros x ([k x'] & -> & Hin)%list_elem_of_fmap.
    unfold s_dict_of in Hin.
    apply list_elem_of_fmap in Hin as ([u' r'] & [= -> ->] & Hin).
    apply elem_of_map_to_list in Hin. simpl. by eapply Hflat. }
  assert (weighted_scores_of squash (s_dict_of (weights_file v))
            (IntKey <$> self_uid (with_file (step_validator env v)
                                    (weights_file v)))
          = Ok ((λ kv, (kv.1, 1%Q)) <$> s_dict_of (weights_file v))) as Hws.
  { change (self_uid (with_file (step_validator env v) (weights_file v)))
      with (find_uid (modules_keys env) (val_ss58 v) (self_uid v)).
    rewrite Hu. cbn [fmap option_fmap option_map]. rewrite Hnone.
    apply uniform_scores_weights; [done|done|].
    intros x y Hx Hy. rewrite (Hscore x Hx), (Hscore y Hy). reflexivity. }
  rewrite (set_weights_first_try _ _ _ _ _ Hws Hfirst) in Hrun.
  rewrite Hrun. unfold finish, prepend. cbn [value final trace].
  split.
  { change (self_uid (with_file (with_file (step_validator env v)
                                   (weights_file v)) ∅))
      with (find_uid (modules_keys env) (val_ss58 v) (self_uid v)). exact Hu. }
  split; [done|]. split.
  { unfold uids. rewrite <- !list_fmap_compose. reflexivity. }
  apply s_dict_of_keys. exists u. split; [done|]. by rewrite Hown.
Qed.

Lemma own_id_is_voted_for_witness :
  let r := validate_step rational_sigmoid newcomer_env
             (sample_validator file_with_validator) in
  let uids := (s_dict_of file_with_validator).*1 in
  (∀ file, weighted_scores_of rational_sigmoid (s_dict_of file)
             (Some (IntKey 0))
           = weighted_scores_of rational_sigmoid (s_dict_of file) None)
  ∧ self_uid (final r) = Some 0
  ∧ value r = Ok ()
  ∧ trace r = [EvSettingWeights; EvVote 1 uids ((λ _, 1%Q) <$> uids)]
  ∧ StrKey (str 0) ∈ uids.
Proof.
  apply (own_id_is_voted_for rational_sigmoid newcomer_env
           (sample_validator file_with_validator) 0 (record "val" 1)).
  - exact rational_sigmoid_pos.
  - unfold registered. apply (bool_decide_unpack _). vm_compute. reflexivity.
  - apply (bool_decide_unpack _). vm_compute. reflexivity.
  - reflexivity.
  - reflexivity.
  - reflexivity.
  - intros u' r' Hr'. cbn [weights_file sample_validator] in Hr'.
    unfold file_with_validator in Hr'.
    apply lookup_insert_Some in Hr' as [[_ <-]|[_ Hr']]; [reflexivity|].
    apply lookup_singleton_Some in Hr' as [_ <-]. reflexivity.
Defined.

(** The step evaluated on that file: the vote holds the validator's id 0
    beside the worker's. *)
Lemma own_id_is_voted_for_evaluated :
  ∃ uids,
    trace (validate_step rational_sigmoid newcomer_env
             (sample_validator file_with_validator))
    = [EvSettingWeights; EvVote 1 uids [1%Q; 1%Q]]
    ∧ uids ≡ₚ [StrKey "0"; StrKey "1"].
Proof.
  exists [StrKey "1"; StrKey "0"]. split; [vm_compute; reflexivity|].
  apply Permutation_swap.
Qed.

(** * The cycle *)

Lemma uncovered_worker_queried (file : gmap Z ScoreRecord)
    (miners : list Miner) :
  ¬ Forall (λ m, covered file m = true) miners →
  ∃ m, m ∈ miners_to_query (get_miners_to_query file miners).
Proof.
  intros Hnot. rewrite batch_is_take.
  destruct (candidates file miners) as [|m c] eqn:Ec.
  - exfalso. apply Hnot. apply Forall_forall. intros m Hm.
    destruct (covered file m) eqn:E; [done|].
    assert (m ∈ candidates file miners) as Hin
      by (by apply list_elem_of_filter).
    rewrite Ec in Hin. by apply not_elem_of_nil in Hin.
  - exists m. left.
Qed.

(** C1 (as amended).  With the validator registered and distinct ids in the
    snapshot, a step finalises exactly when every eligible worker of the
    snapshot was already covered by the file the step started from.
    Finalising is: the weights are computed from the scores on file, a vote
    is cast with exactly these weights, and the file is emptied when the
    step returns; when the weights cannot be computed or both votes fail the
    exception leaves the step and the file is kept.  A step that finds a
    worker uncovered queries it and neither computes weights nor votes nor
    empties the file: the step that scores the last unscored workers does
    not finalise, the next one does.  Over a cycle in which the collaborators
    behave, the [n] scoring steps do not finalise and the step after them
    does: finalisation runs exactly once per cycle. *)
Theorem finalization_iff_covered_at_start
    (squash : Q → Q) (env : Env) (v : Validator) :
  registered env v →
  NoDup (uid <$> get_miner_ip_port (modules env)) →
  let miners := get_miner_ip_port (modules env) in
  let all_covered := Forall (λ m, covered (weights_file v) m = true) miners in
  let synthesis :=
    weighted_scores_of squash (s_dict_of (weights_file v))
      (IntKey <$> find_uid (modules_keys env) (val_ss58 v) (self_uid v)) in
  let r := validate_step squash env v in
  (EvSettingWeights ∈ trace r ↔ all_covered)
  ∧ (all_covered →
     count_events is_setting_weights (trace r) = 1%nat
     ∧ (∀ e, synthesis = Raise e →
          value r = Raise e
          ∧ trace r = [EvSettingWeights]
          ∧ weights_file (final r) = weights_file v)
     ∧ (∀ ws, synthesis = Ok ws →
          (∃ rest,
             trace r = EvSettingWeights :: EvVote (client v) ws.*1 ws.*2 :: rest
             ∧ count_events is_setting_weights rest = 0%nat)
          ∧ (value r = Ok () ↔ vote_first env = true ∨ vote_retry env = true)
          ∧ (value r = Ok () → weights_file (final r) = ∅)
          ∧ (value r ≠ Ok () → weights_file (final r) = weights_file v)))
  ∧ (¬ all_covered →
     count_events is_setting_weights (trace r) = 0%nat
     ∧ count_events is_vote (trace r) = 0%nat
     ∧ (value r = Ok () → weights_file (final r) ≠ ∅))
  ∧ (∀ (interval : Z) (n : nat) (ticks : list Env),
       (∀ x, 0 < squash x)%Q →
       miners ≠ [] →
       Forall (healthy (modules env) (modules_keys env)) ticks →
       length ticks = S n →
       let c := candidates (weights_file v) miners in
       (length c ≤ 8 * n)%nat →
       (8 * n < length c + 8)%nat →
       let before := validation_loop squash interval (take n ticks) v in
       let cycle := validation_loop squash interval ticks v in
       count_events is_setting_weights (trace before) = 0%nat
       ∧ count_events is_vote (trace before) = 0%nat
       ∧ Forall (λ m, covered (weights_file (final before)) m = true) miners
       ∧ count_events is_setting_weights (trace cycle) = 1%nat
       ∧ count_events is_vote (trace cycle) = 1%nat
       ∧ value cycle = Ok ()
       ∧ weights_file (final cycle) = ∅).
Proof.
  intros Hreg Hnd miners all_covered synthesis r.
  pose proof (executor_map_events env (miner_prompt env)
                (miners_to_query (step_scan env v))) as Hcalls.
  fold (step_answers env v) in Hcalls.
  assert (remaining_miners (step_scan env v) = [] → all_covered) as Hrem_cov.
  { intros Hrem. apply Forall_forall. intros m Hm.
    destruct (covered (weights_file v) m) eqn:Hc; [done|]. exfalso.
    assert (m ∈ remaining_miners (step_scan env v)) as Hin.
    { apply candidate_remains; [done|]. apply list_elem_of_filter. done. }
    rewrite Hrem in Hin. by apply not_elem_of_nil in Hin. }
  assert (remaining_miners (step_scan env v) ≠ [] →
          Forall (λ e, is_call e = true) (trace r)) as Hno.
  { intros Hrem. unfold r.
    destruct (step_answers env v).2 as [answers|e] eqn:Ha.
    - destruct (step_data env v answers) as [data|e] eqn:Hd.
      + by rewrite (validate_step_no_finalize _ _ _ answers data).
      + by rewrite (validate_step_data_raise _ _ _ answers e).
    - by rewrite (validate_step_dispatch_raise _ _ _ e). }
  assert (all_covered →
          r = prepend [EvSettingWeights]
                (finish (set_weights squash env (s_dict_of (weights_file v))
                           (with_file (step_validator env v) (weights_file v)))))
    as Hfin.
  { intros Hall. destruct (all_covered_scan _ _ Hall) as (Hb & Hr & Hs).
    change (miners_to_query (step_scan env v) = []) in Hb.
    change (remaining_miners (step_scan env v) = []) in Hr.
    change (scan_file (step_scan env v) = weights_file v) in Hs.
    destruct (step_empty_batch env v Hb) as [Ha Hd].
    unfold r. rewrite (validate_step_finalize _ _ _ [] ∅); try done.
    - rewrite Ha, Hs, (left_id_L ∅ (∪)). reflexivity.
    - rewrite Ha. reflexivity. }
  assert (all_covered → remaining_miners (step_scan env v) = []) as Hcov_rem.
  { intros Hall. by destruct (all_covered_scan _ _ Hall) as (_ & Hr & _). }
  assert (¬ all_covered → Forall (λ e, is_call e = true) (trace r)) as Hno'.
  { intros Hnot. apply Hno. intros Hrem. by apply Hnot, Hrem_cov. }
  split; [|split; [|split]].
  - split.
    + intros Hin.
      destruct (decide (remaining_miners (step_scan env v) = [])) as [Hrem|Hrem];
        [by apply Hrem_cov|].
      exfalso. by apply (calls_not_setting_weights _ (Hno Hrem)).
    + intros Hall. rewrite (Hfin Hall). left.
  - intros Hall. pose proof (Hfin Hall) as Hrun.
    set (v0 := with_file (step_validator env v) (weights_file v)) in *.
    assert (IntKey <$> self_uid v0 = IntKey <$> find_uid (modules_keys env)
                                       (val_ss58 v) (self_uid v)) as Hself
      by reflexivity.
    destruct synthesis as [ws|e] eqn:Hsyn; unfold synthesis in Hsyn;
      rewrite <- Hself in Hsyn.
    + destruct (vote_first env) eqn:Hfirst.
      * rewrite (set_weights_first_try _ _ _ _ ws Hsyn Hfirst) in Hrun.
        rewrite Hrun. unfold finish, prepend. cbn [value final trace].
        split; [reflexivity|]. split; [done|]. intros ws' [= <-].
        split; [by exists []|]. split; [by split; [left|]|].
        split; [done|]. by intros H.
      * rewrite (set_weights_retry _ _ _ _ ws Hsyn Hfirst) in Hrun.
        rewrite Hrun. unfold finish, prepend. cbn [value final trace].
        destruct (vote_retry env); cbn [value final trace].
        -- split; [reflexivity|]. split; [done|]. intros ws' [= <-].
           split; [eexists; split; [reflexivity|reflexivity]|].
           split; [by split; [right|]|]. split; [done|]. by intros H.
        -- split; [reflexivity|]. split; [done|]. intros ws' [= <-].
           split; [eexists; split; [reflexivity|reflexivity]|].
           split; [split; [done|by intros [|]]|]. split; [done|]. done.
    + rewrite (set_weights_raise _ _ _ _ e Hsyn) in Hrun.
      rewrite Hrun. unfold finish, prepend. cbn [value final trace].
      split; [reflexivity|]. split; [|done]. intros e' [= <-]. done.
  - intros Hnot. pose proof (Hno' Hnot) as Hc.
    split; [|split].
    + apply count_events_none. eapply Forall_impl; [exact Hc|]. by intros [].
    + apply count_events_none. eapply Forall_impl; [exact Hc|]. by intros [].
    + intros Hv Hempty.
      destruct (uncovered_worker_queried _ _ Hnot) as [m Hm].
      destruct (batch_member_on_file squash env v m Hreg Hnd Hv Hm) as [s Hs].
      fold r in Hs. rewrite Hempty in Hs. by rewrite lookup_empty in Hs.
  - intros interval n ticks Hpos Hne Hh Hlen c Hle Hlt before cycle.
    destruct (cycle_run squash (modules env) (modules_keys env) Hpos Hnd
                interval n ticks v Hne Hreg Hh Hlen Hle Hlt)
      as ((Hv & Hf & _ & Hs & Hvo) & _ & Hbs & Hbvo & Hbc).
    split; [exact Hbs|]. split; [exact Hbvo|]. split; [|done].
    apply Forall_forall. intros m Hm.
    destruct (covered (weights_file (final before)) m) eqn:E; [done|].
    assert (m ∈ candidates (weights_file (final before))
                  (get_miner_ip_port (modules env))) as Hin
      by (by apply list_elem_of_filter).
    unfold before in Hin. rewrite Hbc in Hin. by apply not_elem_of_nil in Hin.
Qed.

Lemma finalization_iff_covered_at_start_witness :
  (let env := sample_env two_workers true true in
   let v := sample_validator file_both in
   let r := validate_step rational_sigmoid env v in
   EvSettingWeights ∈ trace r
   ∧ count_events is_setting_weights (trace r) = 1%nat
   ∧ (∃ rest,
        trace r = EvSettingWeights
                  :: EvVote (client v) sample_weights.*1 sample_weights.*2
                  :: rest
        ∧ count_events is_setting_weights rest = 0%nat)
   ∧ weights_file (final r) = ∅)
  ∧ (let env := sample_env nine_workers true true in
     let v := sample_validator ∅ in
     let r := validate_step rational_sigmoid env v in
     let before := validation_loop rational_sigmoid 60 [env; env] v in
     let cycle := validation_loop rational_sigmoid 60 [env; env; env] v in
     count_events is_setting_weights (trace r) = 0%nat
     ∧ count_events is_vote (trace r) = 0%nat
     ∧ count_events is_setting_weights (trace before) = 0%nat
     ∧ count_events is_vote (trace before) = 0%nat
     ∧ count_events is_setting_weights (trace cycle) = 1%nat
     ∧ count_events is_vote (trace cycle) = 1%nat
     ∧ value cycle = Ok ()
     ∧ weights_file (final cycle) = ∅).
Proof.
  split.
  - assert (Forall (λ m, covered file_both m = true)
              (get_miner_ip_port (modules (sample_env two_workers true true))))
      as Hall by (apply (bool_decide_unpack _); vm_compute; reflexivity).
    destruct (finalization_iff_covered_at_start rational_sigmoid
                (sample_env two_workers true true) (sample_validator file_both))
      as (Hiff & Hfin & _ & _).
    + unfold registered. apply (bool_decide_unpack _). vm_compute. reflexivity.
    + apply (bool_decide_unpack _). vm_compute. reflexivity.
    + destruct (Hfin Hall) as (Hone & _ & Hok).
      destruct (Hok sample_weights) as (Hvote & Hval & Hempty & _).
      { vm_compute. reflexivity. }
      split; [by apply Hiff|]. split; [exact Hone|]. split; [exact Hvote|].
      apply Hempty, Hval. by left.
  - assert (healthy (nine_workers ++ [validator_module])
              ((λ m, (uid m, key m)) <$> (nine_workers ++ [validator_module]))
              (sample_env nine_workers true true)) as Hh.
    { apply sample_env_healthy. intros m Hm.
      assert (get_miner_ip_port (nine_workers ++ [validator_module])
              = nine_workers) as E by (vm_compute; reflexivity).
      rewrite E in Hm. unfold nine_workers in Hm.
      repeat (apply elem_of_cons in Hm as [->|Hm]; [reflexivity|]).
      by apply not_elem_of_nil in Hm. }
    destruct (finalization_iff_covered_at_start rational_sigmoid
                (sample_env nine_workers true true) (sample_validator ∅))
      as (_ & _ & Hnot & Hcycle).
    + unfold registered. apply (bool_decide_unpack _). vm_compute. reflexivity.
    + apply (bool_decide_unpack _). vm_compute. reflexivity.
    + destruct Hnot as (Hs & Hv & _).
      { intros Hall. apply Forall_inv in Hall. vm_compute in Hall.
        discriminate. }
      destruct (Hcycle 60 2%nat
                  [sample_env nine_workers true true;
                   sample_env nine_workers true true;
                   sample_env nine_workers true true])
        as (Hbs & Hbv & _ & Hcs & Hcv & Hval & Hfile).
      * exact rational_sigmoid_pos.
      * vm_compute. discriminate.
      * repeat (apply Forall_cons; split; [exact Hh|]). constructor.
      * reflexivity.
      * vm_compute. lia.
      * vm_compute. lia.
      * split; [exact Hs|]. split; [exact Hv|]. split; [exact Hbs|].
        split; [exact Hbv|]. split; [exact Hcs|]. split; [exact Hcv|].
        split; [exact Hval|exact Hfile].
Defined.

(** ** Equal scores in binary64 *)

Section Binary64Uniform.

Import Binary64.

Lemma flt_irrefl (x : float) : flt x x = false.
Proof.
  destruct x as [q| | |]; try done. simpl.
  assert (Qle_bool q q = true) as -> by (apply Qle_bool_iff; lra). done.
Qed.

Lemma feq_refl (x : float) : is_nan x = false → feq x x = true.
Proof.
  destruct x as [q| | |]; try done. intros _. simpl. apply Qeq_bool_iff. lra.
Qed.

Lemma b64_normalize_scores_uniform (n : nat) (x : float) :
  is_nan x = false →
  normalize_scores (replicate (S n) x) false = Ok (replicate (S n) (Fin 1)).
Proof.
  intros Hx. unfold normalize_scores.
  assert (∀ f : float → float → float, f x x = x →
            foldl f x (replicate n x) = x) as Hfold.
  { intros f Hf. induction n as [|n IH]; [done|]. simpl. by rewrite Hf. }
  assert (py_min (replicate (S n) x) = Ok x) as ->.
  { simpl. f_equal. apply Hfold. by rewrite flt_irrefl. }
  assert (py_max (replicate (S n) x) = Ok x) as ->.
  { simpl. f_equal. apply Hfold. by rewrite flt_irrefl. }
  cbn [mbind result_bind]. rewrite (feq_refl x Hx).
  by rewrite length_replicate.
Qed.

Lemma zip_replicate {K A : Type} (ks : list K) (c : A) :
  zip ks (replicate (length ks) c) = (λ k, (k, c)) <$> ks.
Proof.
  induction ks as [|k ks IH]; [done|]. simpl. by rewrite IH.
Qed.

Lemma pair_const_fst {K A : Type} (ks : list K) (c : A) :
  ((λ k, (k, c)) <$> ks).*1 = ks.
Proof.
  induction ks as [|k ks IH]; [done|]. rewrite !fmap_cons. simpl. by rewrite IH.
Qed.

Lemma pair_const_snd {K A : Type} (ks : list K) (c : A) :
  ((λ k, (k, c)) <$> ks).*2 = replicate (length ks) c.
Proof.
  induction ks as [|k ks IH]; [done|]. rewrite !fmap_cons. simpl. by rewrite IH.
Qed.

(** Equal raw scores in binary64: whatever the curve makes of 1, as long as
    the share of one worker in the sum is a number, every key keeps the
    weight 1. *)
Lemma b64_uniform_scores_weights {K : Type} `{EqDecision K}
    (squash : float → float) (ks : list K) (x w : float) :
  ks ≠ [] →
  is_nan x = false →
  fdiv (fmul (squash (Fin 1)) (Fin 1000))
       (py_sum (replicate (length ks) (squash (Fin 1)))) = Ok w →
  is_nan w = false →
  weighted_scores_of squash ((λ k, (k, x)) <$> ks) None
  = Ok ((λ k, (k, Fin 1)) <$> ks).
Proof.
  intros Hne Hx Hw Hwn.
  destruct ks as [|k0 ks0] eqn:Eks; [done|]. rewrite <- Eks in *.
  assert (length ks = S (length ks0)) as Hlen by (by rewrite Eks).
  pose proof (λ c : float, pair_const_fst ks c) as Hk1.
  pose proof (λ c : float, pair_const_snd ks c) as Hk2.
  unfold weighted_scores_of. cbv zeta.
  rewrite (Hk1 x), (Hk2 x), Hlen, (b64_normalize_scores_uniform _ x Hx), <- Hlen.
  cbn [mbind result_bind]. rewrite zip_replicate.
  assert ((λ '(uid, score), (uid, squash score)) <$> ((λ k : K, (k, Fin 1)) <$> ks)
          = (λ k : K, (k, squash (Fin 1))) <$> ks) as ->
    by (by rewrite <- list_fmap_compose).
  rewrite (Hk2 (squash (Fin 1))).
  assert (mapM (λ '(uid, score),
                  weight ← fdiv (fmul score (Fin 1000))
                             (py_sum (replicate (length ks) (squash (Fin 1))));
                  Ok (uid, weight))
               ((λ k : K, (k, squash (Fin 1))) <$> ks)
          = Ok ((λ k : K, (k, w)) <$> ks)) as ->.
  { apply mapM_Ok. apply Forall2_fmap. apply Forall_Forall2_diag.
    apply Forall_forall. intros k _. simpl. by rewrite Hw. }
  cbn [mbind result_bind].
  rewrite (Hk1 w), (Hk2 w), Hlen, (b64_normalize_scores_uniform _ w Hwn), <- Hlen.
  cbn [mbind result_bind]. rewrite zip_replicate. f_equal.
  apply filter_all. by intros kv (k & -> & _)%list_elem_of_fmap.
Qed.

End Binary64Uniform.
